(** * xml-streamer: a shallow embedding of the tree assembler, the node
    model, text extraction and the navigation cursor.

    Go values are modelled as follows.
    - [int] is [Z]; every index the code computes is bounded by a slice
      length, so no wrap-around can occur.
    - [[]byte] is [list byte], [string] is [string], and the conversion
      [string(b)] is [string_of_list_byte].
    - Pointers are addresses into two arenas (one per node type), [nil] is
      [None].  The dynamic type of an [XMLNode] interface value is the
      constructor of [XMLNode].
    - A run-time panic (index or slice out of range, nil dereference) is the
      result [Panic]; a loop that would exceed its iteration budget is
      [OutOfFuel].
    - A node pool is the list of the nodes put back into it.  In the
      assembler of the first part every node is taken new, at the next free
      address, which is what the pools give as long as nothing has been
      released; [Release], the pools and the assembler over them come
      after it, with the run of a parser and a releasing consumer.
    - The output channel is the sequence of elements sent on it.
    - The tokenizer is the list of events it returns. *)

From Stdlib Require Import ZArith Lia List Strings.String Strings.Byte.
From stdpp Require Import gmap strings list fin_maps.

Local Open Scope Z_scope.

(** ** Results of fallible code *)

Inductive result (A : Type) : Type :=
| Ok (a : A)
| Panic
| OutOfFuel.
Arguments Ok {A} a.
Arguments Panic {A}.
Arguments OutOfFuel {A}.

#[global] Instance result_ret : MRet result := fun A a => Ok a.
#[global] Instance result_bind : MBind result := fun A B f m =>
  match m with
  | Ok a => f a
  | Panic => Panic
  | OutOfFuel => OutOfFuel
  end.

(** ** Slices *)

Definition len {A} (s : list A) : Z := Z.of_nat (length s).

(** [s[i]] *)
Definition index {A} (s : list A) (i : Z) : result A :=
  if (0 <=? i) && (i <? len s) then
    match s !! Z.to_nat i with
    | Some x => Ok x
    | None => Panic
    end
  else Panic.

(** [s[lo:hi]] *)
Definition slice {A} (s : list A) (lo hi : Z) : result (list A) :=
  if (0 <=? lo) && (lo <=? hi) && (hi <=? len s) then
    Ok (take (Z.to_nat (hi - lo)) (drop (Z.to_nat lo) s))
  else Panic.

(** ** Bytes *)

Definition bSpace : byte := x20.
Definition bTab : byte := x09.
Definition bLF : byte := x0a.
Definition bCR : byte := x0d.
Definition bEq : byte := x3d.
Definition bQuote : byte := x22.
Definition bApos : byte := x27.
Definition bSlash : byte := x2f.
Definition bGt : byte := x3e.
Definition bColon : byte := x3a.
Definition bLowerX : byte := x78.
Definition bUpperX : byte := x58.

(** [bytes.HasPrefix] *)
Fixpoint HasPrefix (s p : list byte) : bool :=
  match p, s with
  | [], _ => true
  | _ :: _, [] => false
  | c :: p', d :: s' => Byte.eqb c d && HasPrefix s' p'
  end.

(** [bytes.Contains] *)
Fixpoint Contains (s sub : list byte) : bool :=
  HasPrefix s sub ||
  match s with
  | [] => false
  | _ :: s' => Contains s' sub
  end.

Definition xmlns : list byte := list_byte_of_string "xmlns".

(** [strings.IndexByte]; -1 when absent. *)
Fixpoint IndexByte_from (s : list byte) (c : byte) (i : Z) : Z :=
  match s with
  | [] => -1
  | d :: s' => if Byte.eqb d c then i else IndexByte_from s' c (i + 1)
  end.

Definition IndexByte (s : string) (c : byte) : Z :=
  IndexByte_from (list_byte_of_string s) c 0.

(** [s[lo:]] and [s[:hi]] on strings. *)
Definition strFrom (s : string) (lo : Z) : result string :=
  b ← slice (list_byte_of_string s) lo (len (list_byte_of_string s));
  Ok (string_of_list_byte b).

Definition strTo (s : string) (hi : Z) : result string :=
  b ← slice (list_byte_of_string s) 0 hi;
  Ok (string_of_list_byte b).

(** An instance of [bytes.TrimSpace] restricted to the ASCII white space
    bytes; used where a concrete run is evaluated. *)
Definition asciiSpace (c : byte) : bool :=
  Byte.eqb c bSpace || Byte.eqb c bTab || Byte.eqb c bLF || Byte.eqb c bCR
  || Byte.eqb c x0b || Byte.eqb c x0c.

Fixpoint trimLeft (s : list byte) : list byte :=
  match s with
  | c :: s' => if asciiSpace c then trimLeft s' else s
  | [] => []
  end.

Definition asciiTrimSpace (s : list byte) : list byte :=
  rev (trimLeft (rev (trimLeft s))).

(** ** Node model (element.go) *)

(** [xpath.NodeType] *)
Inductive NodeType : Type :=
| RootNode
| ElementNode
| AttributeNode
| TextNode
| CommentNode.

Definition NodeType_eqb (a b : NodeType) : bool :=
  match a, b with
  | RootNode, RootNode | ElementNode, ElementNode
  | AttributeNode, AttributeNode | TextNode, TextNode
  | CommentNode, CommentNode => true
  | _, _ => false
  end.

(** A non-nil [XMLNode] interface value: a pointer together with its
    dynamic type. *)
Inductive XMLNode : Type :=
| ElemRef (a : nat)       (* pointer to XMLElement *)
| ContentRef (a : nat).   (* pointer to XMLContentNode *)

(** The type assertion of [n] to an element pointer; [None] when it fails. *)
Definition asElement (n : XMLNode) : option nat :=
  match n with
  | ElemRef a => Some a
  | ContentRef _ => None
  end.

Definition XMLNode_eqb (a b : XMLNode) : bool :=
  match a, b with
  | ElemRef x, ElemRef y => Nat.eqb x y
  | ContentRef x, ContentRef y => Nat.eqb x y
  | _, _ => false
  end.

(** [XMLContentNode]; [end] is a keyword, and [parent] and [siblingIndex]
    are also fields of [XMLElement], hence the prefixed names. *)
Record XMLContentNode : Type := mkContent {
  start : Z;
  end_ : Z;
  nodeType : NodeType;
  cparent : option nat;
  csiblingIndex : Z
}.

Record XMLAttribute : Type := mkAttr {
  AttrName : string;
  AttrValue : string
}.

Record XMLElement : Type := mkElement {
  Name : string;
  children : list XMLNode;
  parent : option nat;
  Attributes : list XMLAttribute;
  localName : string;
  prefix_ : string;
  namespaceURI : string;
  namespaces : option (gmap string string);
  siblingIndex : Z;
  rawContent : list byte
}.

(** The two arenas; an address is an index. *)
Record heap : Type := mkHeap {
  elems : list XMLElement;
  contents : list XMLContentNode
}.

Definition getElem (h : heap) (a : nat) : result XMLElement :=
  match elems h !! a with
  | Some e => Ok e
  | None => Panic
  end.

Definition getContent (h : heap) (a : nat) : result XMLContentNode :=
  match contents h !! a with
  | Some c => Ok c
  | None => Panic
  end.

Definition setElem (h : heap) (a : nat) (e : XMLElement) : heap :=
  {| elems := <[a := e]> (elems h); contents := contents h |}.

(** [n.Parent()] *)
Definition Parent (h : heap) (n : XMLNode) : result (option nat) :=
  match n with
  | ElemRef a => e ← getElem h a; Ok (parent e)
  | ContentRef a => c ← getContent h a; Ok (cparent c)
  end.

(** [n.getSiblingIndex()] *)
Definition getSiblingIndex (h : heap) (n : XMLNode) : result Z :=
  match n with
  | ElemRef a => e ← getElem h a; Ok (siblingIndex e)
  | ContentRef a => c ← getContent h a; Ok (csiblingIndex c)
  end.

(** [XMLContentNode.InnerText]; the unchecked [unsafe.String] read of
    [end-start] bytes at [&rawContent[start]] is the checked slice. *)
Definition ContentInnerText (h : heap) (a : nat) : result string :=
  c ← getContent h a;
  match cparent c with
  | None => Ok EmptyString
  | Some p =>
      if end_ c <=? start c then Ok EmptyString
      else
        pe ← getElem h p;
        b ← slice (rawContent pe) (start c) (end_ c);
        Ok (string_of_list_byte b)
  end.

(** [XMLElement.collectText]; [sb] is the builder's content. *)
Fixpoint collectText (fuel : nat) (h : heap) (e : nat) (sb : list byte)
  : result (list byte) :=
  match fuel with
  | O => OutOfFuel
  | S fuel' =>
      el ← getElem h e;
      (fix range (cs : list XMLNode) (sb : list byte) : result (list byte) :=
         match cs with
         | [] => Ok sb
         | child :: cs' =>
             sb' ← match child with
                   | ContentRef c =>
                       node ← getContent h c;
                       match cparent node with
                       | Some p =>
                           if NodeType_eqb (nodeType node) TextNode
                              && (start node <? end_ node)
                           then
                             pe ← getElem h p;
                             b ← slice (rawContent pe) (start node) (end_ node);
                             Ok (sb ++ b)
                           else Ok sb
                       | None => Ok sb
                       end
                   | ElemRef c => collectText fuel' h c sb
                   end;
             range cs' sb'
         end) (children el) sb
  end.

Definition isElemRef (n : XMLNode) : bool :=
  match n with ElemRef _ => true | ContentRef _ => false end.

(** [XMLElement.InnerText]; [fuel] bounds the depth of the recursion of
    the slow path. *)
Definition InnerText (fuel : nat) (h : heap) (e : nat) : result string :=
  el ← getElem h e;
  if len (children el) =? 0 then Ok EmptyString
  else
    let hasElementChild := existsb isElemRef (children el) in
    if negb hasElementChild then Ok (string_of_list_byte (rawContent el))
    else
      sb ← collectText fuel h e [];
      Ok (string_of_list_byte sb).

(** [XMLNode.InnerText] by dynamic type. *)
Definition NodeInnerText (fuel : nat) (h : heap) (n : XMLNode) : result string :=
  match n with
  | ElemRef a => InnerText fuel h a
  | ContentRef a => ContentInnerText h a
  end.

(** ** Navigation cursor (navigator.go) *)

(** [Evaluate] builds the cursor with [root], [currNode] and [currElement]
    set to the element, and no operation stores nil into [root] or
    [currNode]: these two are non-nil. *)
Record elementNavigator : Type := mkNav {
  root : nat;
  currNode : XMLNode;
  currElement : option nat;
  attributeIndex : Z
}.

Definition moveTo (navigator : elementNavigator) (n : XMLNode) : elementNavigator :=
  {| root := root navigator;
     currNode := n;
     currElement := asElement n;
     attributeIndex := attributeIndex navigator |}.

Definition NavNodeType (h : heap) (navigator : elementNavigator) : result NodeType :=
  if negb (attributeIndex navigator =? -1) then Ok AttributeNode
  else
    match currNode navigator with
    | ContentRef a => node ← getContent h a; Ok (nodeType node)
    | ElemRef a =>
        node ← getElem h a;
        if Nat.eqb a (root navigator) && negb (bool_decide (is_Some (parent node)))
        then Ok RootNode
        else Ok ElementNode
    end.

Definition Value (fuel : nat) (h : heap) (navigator : elementNavigator) : result string :=
  if negb (attributeIndex navigator =? -1) then
    match currElement navigator with
    | None => Panic
    | Some e =>
        el ← getElem h e;
        a ← index (Attributes el) (attributeIndex navigator);
        Ok (AttrValue a)
    end
  else NodeInnerText fuel h (currNode navigator).

Definition MoveToRoot (navigator : elementNavigator) : elementNavigator :=
  {| root := root navigator;
     currNode := ElemRef (root navigator);
     currElement := Some (root navigator);
     attributeIndex := -1 |}.

Definition MoveToParent (h : heap) (navigator : elementNavigator)
  : result (bool * elementNavigator) :=
  if negb (attributeIndex navigator =? -1) then
    Ok (true, {| root := root navigator;
                 currNode := currNode navigator;
                 currElement := currElement navigator;
                 attributeIndex := -1 |})
  else
    p ← Parent h (currNode navigator);
    match p with
    | Some p =>
        Ok (true, {| root := root navigator;
                     currNode := ElemRef p;
                     currElement := Some p;
                     attributeIndex := -1 |})
    | None => Ok (false, navigator)
    end.

Definition MoveToNextAttribute (h : heap) (navigator : elementNavigator)
  : result (bool * elementNavigator) :=
  match currElement navigator with
  | None => Ok (false, navigator)
  | Some e =>
      el ← getElem h e;
      if len (Attributes el) - 1 <=? attributeIndex navigator then
        Ok (false, navigator)
      else
        Ok (true, {| root := root navigator;
                     currNode := currNode navigator;
                     currElement := currElement navigator;
                     attributeIndex := attributeIndex navigator + 1 |})
  end.

Definition MoveToChild (h : heap) (navigator : elementNavigator)
  : result (bool * elementNavigator) :=
  if negb (attributeIndex navigator =? -1) then Ok (false, navigator)
  else
    match currElement navigator with
    | None => Ok (false, navigator)
    | Some e =>
        el ← getElem h e;
        if 0 <? len (children el) then
          child ← index (children el) 0;
          Ok (true, moveTo navigator child)
        else Ok (false, navigator)
    end.

Definition MoveToFirst (h : heap) (navigator : elementNavigator)
  : result (bool * elementNavigator) :=
  if negb (attributeIndex navigator =? -1) then Ok (false, navigator)
  else
    p ← Parent h (currNode navigator);
    match p with
    | None => Ok (false, navigator)
    | Some p =>
        idx ← getSiblingIndex h (currNode navigator);
        if idx =? 0 then Ok (false, navigator)
        else
          pe ← getElem h p;
          if 0 <? len (children pe) then
            first ← index (children pe) 0;
            Ok (true, moveTo navigator first)
          else Ok (false, navigator)
    end.

Definition MoveToNext (h : heap) (navigator : elementNavigator)
  : result (bool * elementNavigator) :=
  if negb (attributeIndex navigator =? -1) then Ok (false, navigator)
  else
    p ← Parent h (currNode navigator);
    match p with
    | None => Ok (false, navigator)
    | Some p =>
        idx ← getSiblingIndex h (currNode navigator);
        pe ← getElem h p;
        if len (children pe) <=? idx + 1 then Ok (false, navigator)
        else
          next ← index (children pe) (idx + 1);
          Ok (true, moveTo navigator next)
    end.

Definition MoveToPrevious (h : heap) (navigator : elementNavigator)
  : result (bool * elementNavigator) :=
  if negb (attributeIndex navigator =? -1) then Ok (false, navigator)
  else
    p ← Parent h (currNode navigator);
    match p with
    | None => Ok (false, navigator)
    | Some p =>
        idx ← getSiblingIndex h (currNode navigator);
        if idx <=? 0 then Ok (false, navigator)
        else
          pe ← getElem h p;
          prev ← index (children pe) (idx - 1);
          Ok (true, moveTo navigator prev)
    end.

(** The movement operations of the cursor. *)
Inductive Move : Type :=
| ToParent
| ToNextAttribute
| ToChild
| ToFirst
| ToNext
| ToPrevious.

Definition runMove (m : Move) (h : heap) (navigator : elementNavigator)
  : result (bool * elementNavigator) :=
  match m with
  | ToParent => MoveToParent h navigator
  | ToNextAttribute => MoveToNextAttribute h navigator
  | ToChild => MoveToChild h navigator
  | ToFirst => MoveToFirst h navigator
  | ToNext => MoveToNext h navigator
  | ToPrevious => MoveToPrevious h navigator
  end.

(** ** Attribute and namespace scanning (parser.go) *)

(** [for i < len(s) && cond(s[i]) { i++ }], returning the final [i]. *)
Fixpoint advance (fuel : nat) (cond : byte → bool) (s : list byte) (i : Z)
  : result Z :=
  match fuel with
  | O => OutOfFuel
  | S fuel' =>
      if i <? len s then
        c ← index s i;
        if cond c then advance fuel' cond s (i + 1) else Ok i
      else Ok i
  end.

Definition advanceWhile (cond : byte → bool) (s : list byte) (i : Z) : result Z :=
  advance (S (length s)) cond s i.

Definition isSpace4 (c : byte) : bool :=
  Byte.eqb c bSpace || Byte.eqb c bTab || Byte.eqb c bLF || Byte.eqb c bCR.

Definition isSpace2 (c : byte) : bool :=
  Byte.eqb c bSpace || Byte.eqb c bTab.

Definition isQuote (c : byte) : bool :=
  Byte.eqb c bQuote || Byte.eqb c bApos.

Definition notByte (q c : byte) : bool := negb (Byte.eqb c q).

Definition countEq (attrs : list byte) : Z :=
  len (filter (λ c, Byte.eqb c bEq = true) attrs).

Section Scanner.

(** [bytes.TrimSpace] of the Go standard library. *)
Variable TrimSpace : list byte → list byte.

(** The main loop of [parseAttributes]; [acc] is [elem.Attributes]. *)
Fixpoint parseAttributes_loop (fuel : nat) (attrs : list byte) (i : Z)
         (acc : list XMLAttribute) : result (list XMLAttribute) :=
  match fuel with
  | O => OutOfFuel
  | S fuel' =>
      if negb (i <? len attrs) then Ok acc else
      i ← advanceWhile isSpace4 attrs i;
      if len attrs <=? i then Ok acc else
      let nameStart := i in
      i ← advanceWhile (notByte bEq) attrs i;
      if len attrs <=? i then Ok acc else
      nameBytes ← slice attrs nameStart i;
      let name := string_of_list_byte (TrimSpace nameBytes) in
      let i := i + 1 in
      i ← advanceWhile isSpace2 attrs i;
      if len attrs <=? i then Ok acc else
      quote ← index attrs i;
      if negb (isQuote quote) then Ok acc else
      let i := i + 1 in
      let valueStart := i in
      i ← advanceWhile (notByte quote) attrs i;
      valueBytes ← slice attrs valueStart i;
      let value := string_of_list_byte valueBytes in
      let i := i + 1 in
      parseAttributes_loop fuel' attrs i
        (acc ++ [{| AttrName := name; AttrValue := value |}])
  end.

(** [parseAttributes(attrs, elem)]; [old] is [elem.Attributes] on entry and
    the result is [elem.Attributes] on return. *)
Definition parseAttributes (attrs : list byte) (old : list XMLAttribute)
  : result (list XMLAttribute) :=
  let attrCount := countEq attrs in
  if attrCount =? 0 then Ok old
  else parseAttributes_loop (S (length attrs)) attrs 0 [].

(** [namespaces[k] = v], allocating the map when it is nil. *)
Definition nsStore (namespaces : option (gmap string string)) (k v : string)
  : option (gmap string string) :=
  Some (<[k := v]> (default ∅ namespaces)).

(** The main loop of [extractNamespaces]. *)
Fixpoint extractNamespaces_loop (fuel : nat) (attrs : list byte) (i : Z)
         (namespaces : option (gmap string string))
  : result (option (gmap string string)) :=
  match fuel with
  | O => OutOfFuel
  | S fuel' =>
      if negb (i <? len attrs) then Ok namespaces else
      i ← advanceWhile isSpace4 attrs i;
      if len attrs <=? i then Ok namespaces else
      let nameStart := i in
      i ← advanceWhile (notByte bEq) attrs i;
      if len attrs <=? i then Ok namespaces else
      nb ← slice attrs nameStart i;
      let nameBytes := TrimSpace nb in
      notDecl ← (if len nameBytes <? 5 then Ok true
                 else
                   c ← index nameBytes 0;
                   Ok (negb (Byte.eqb c bLowerX) && negb (Byte.eqb c bUpperX)));
      if (notDecl : bool) then
        let i := i + 1 in
        i ← advanceWhile isSpace2 attrs i;
        i ← (if i <? len attrs then
               q ← index attrs i;
               if isQuote q then
                 let quote := q in
                 let i := i + 1 in
                 i ← advanceWhile (notByte quote) attrs i;
                 Ok (i + 1)
               else Ok i
             else Ok i);
        extractNamespaces_loop fuel' attrs i namespaces
      else
        let name := string_of_list_byte nameBytes in
        let i := i + 1 in
        i ← advanceWhile isSpace2 attrs i;
        if len attrs <=? i then Ok namespaces else
        quote ← index attrs i;
        if negb (isQuote quote) then Ok namespaces else
        let i := i + 1 in
        let valueStart := i in
        i ← advanceWhile (notByte quote) attrs i;
        valueBytes ← slice attrs valueStart i;
        let value := string_of_list_byte valueBytes in
        let i := i + 1 in
        namespaces ←
          (if String.eqb name "xmlns" then
             Ok (nsStore namespaces EmptyString value)
           else if String.prefix "xmlns:" name then
             pre ← strFrom name 6;
             Ok (nsStore namespaces pre value)
           else Ok namespaces);
        extractNamespaces_loop fuel' attrs i namespaces
  end.

Definition extractNamespaces (attrs : list byte)
  : result (option (gmap string string)) :=
  if len attrs =? 0 then Ok None
  else extractNamespaces_loop (S (length attrs)) attrs 0 None.

(** The guarded call in [parse]: extraction only when the attribute bytes
    contain [xmlns]. *)
Definition elementNamespacesOf (attrs : list byte)
  : result (option (gmap string string)) :=
  if (0 <? len attrs) && Contains attrs xmlns then extractNamespaces attrs
  else Ok None.

End Scanner.

(** ** Tree assembler (parser.go) *)

Record Parser : Type := mkParser {
  streamNames : option (gmap string bool);
  bufferSize : Z;
  once : bool;          (* whether [once.Do] has run *)
  ch : option nat       (* the channel handle; nil before the first request *)
}.

(** [NewParser]; the context and the reader are the event source of
    [parse] below. *)
Definition NewParser (names : list string) (size : Z) : Parser :=
  let size := if size <=? 0 then 8 else size in
  {| streamNames :=
       if 0 <? len names then
         Some (foldl (λ m name, <[name := true]> m) ∅ names)
       else None;
     bufferSize := size;
     once := false;
     ch := None |}.

(** [len(p.streamNames) > 0 && p.streamNames[name]] *)
Definition shouldStream (p : Parser) (name : string) : bool :=
  match streamNames p with
  | None => false
  | Some m => (0 <? Z.of_nat (size m)) && default false (m !! name)
  end.

(** The events of the tokenizer.  A start event carries the full tag bytes;
    [name] and [attrs] are the two results of [gosax.Name] on them. *)
Inductive Event : Type :=
| EventStart (name attrs fullTag : list byte)
| EventEnd
| EventText (bytes : list byte)
| EventCData (bytes : list byte)
| EventComment (bytes : list byte)
| EventEOF
| EventOther (bytes : list byte).

(** [parseState]; the head of [stack] is [stack[len(stack)-1]]. *)
Record parseState : Type := mkState {
  stack : list nat;
  depth : Z
}.

(** The memory, the parse state, and the sequence of elements sent on the
    output channel so far (oldest first). *)
Record machine : Type := mkMachine {
  hp : heap;
  st : parseState;
  sent : list nat
}.

Definition initial : machine :=
  {| hp := {| elems := []; contents := [] |};
     st := {| stack := []; depth := 0 |};
     sent := [] |}.

Definition withParent (e : XMLElement) (p : option nat) : XMLElement :=
  {| Name := Name e; children := children e; parent := p;
     Attributes := Attributes e; localName := localName e;
     prefix_ := prefix_ e; namespaceURI := namespaceURI e;
     namespaces := namespaces e; siblingIndex := siblingIndex e;
     rawContent := rawContent e |}.

Definition appendChild (e : XMLElement) (n : XMLNode) : XMLElement :=
  {| Name := Name e; children := children e ++ [n]; parent := parent e;
     Attributes := Attributes e; localName := localName e;
     prefix_ := prefix_ e; namespaceURI := namespaceURI e;
     namespaces := namespaces e; siblingIndex := siblingIndex e;
     rawContent := rawContent e |}.

Definition appendRaw (e : XMLElement) (b : list byte) : XMLElement :=
  {| Name := Name e; children := children e; parent := parent e;
     Attributes := Attributes e; localName := localName e;
     prefix_ := prefix_ e; namespaceURI := namespaceURI e;
     namespaces := namespaces e; siblingIndex := siblingIndex e;
     rawContent := rawContent e ++ b |}.

(** [checkAndStreamElement] *)
Definition checkAndStreamElement (p : Parser) (h : heap) (out : list nat)
           (elem : nat) : result (heap * list nat) :=
  el ← getElem h elem;
  if shouldStream p (Name el) then
    Ok (setElem h elem (withParent el None), out ++ [elem])
  else Ok (h, out).

(** [handleEndElement] *)
Definition handleEndElement (p : Parser) (w : machine) : result machine :=
  match stack (st w) with
  | [] => Ok w
  | elem :: rest =>
      '(h, out) ← checkAndStreamElement p (hp w) (sent w) elem;
      Ok {| hp := h;
            st := {| stack := rest; depth := depth (st w) - 1 |};
            sent := out |}
  end.

(** The block shared by the text, CDATA and comment cases of [parse]: a
    content node from the pool, filled in and appended to the stack top. *)
Definition appendContentNode (h : heap) (top : nat) (bytes : list byte)
           (kind : NodeType) : result heap :=
  pe ← getElem h top;
  let node := {| start := len (rawContent pe);
                 end_ := len (rawContent pe ++ bytes);
                 nodeType := kind;
                 cparent := Some top;
                 csiblingIndex := len (children pe) |} in
  let a := length (contents h) in
  Ok {| elems := <[top := appendChild (appendRaw pe bytes) (ContentRef a)]> (elems h);
        contents := contents h ++ [node] |}.

Definition withHeap (w : machine) (h : heap) : machine :=
  {| hp := h; st := st w; sent := sent w |}.

Definition withLink (e : XMLElement) (p : nat) (i : Z) : XMLElement :=
  {| Name := Name e; children := children e; parent := Some p;
     Attributes := Attributes e; localName := localName e;
     prefix_ := prefix_ e; namespaceURI := namespaceURI e;
     namespaces := namespaces e; siblingIndex := i;
     rawContent := rawContent e |}.

(** The block "set parent relationship" of [handleStartElement]: the new
    element [fresh] takes the next address and, if an element is open,
    becomes its last child. *)
Definition linkToParent (h : heap) (stk : list nat) (fresh : XMLElement)
  : result heap :=
  match stk with
  | top :: _ =>
      pe ← getElem h top;
      Ok {| elems := <[top := appendChild pe (ElemRef (length (elems h)))]> (elems h)
                       ++ [withLink fresh top (len (children pe))];
            contents := contents h |}
  | [] => Ok {| elems := elems h ++ [fresh]; contents := contents h |}
  end.

(** The first block of [handleStartElement]: the prefix and the local name
    of a qualified name. *)
Definition splitName (nameStr : string) : result (string * string) :=
  let idx := IndexByte nameStr bColon in
  if negb (idx =? -1) then
    pre ← strTo nameStr idx;
    localN ← strFrom nameStr (idx + 1);
    Ok (pre, localN)
  else Ok (EmptyString, nameStr).

(** [len(fullTag) >= 2 && fullTag[len(fullTag)-2] == '/' &&
    fullTag[len(fullTag)-1] == '>'] *)
Definition isSelfClosing (fullTag : list byte) : result bool :=
  if 2 <=? len fullTag then
    a ← index fullTag (len fullTag - 2);
    if Byte.eqb a bSlash then
      b ← index fullTag (len fullTag - 1);
      Ok (Byte.eqb b bGt)
    else Ok false
  else Ok false.

Section Assembler.

Variable TrimSpace : list byte → list byte.

(** [handleStartElement]; a pooled element arrives cleared. *)
Definition handleStartElement (p : Parser) (w : machine)
           (name attrs fullTag : list byte)
           (elementNamespaces : option (gmap string string))
  : result machine :=
  let nameStr := string_of_list_byte name in
  '(pre, localN) ← splitName nameStr;
  parentNS ←
    match stack (st w) with
    | top :: _ => pe ← getElem (hp w) top; Ok (namespaces pe)
    | [] => Ok None
    end;
  let nsContext :=
    match elementNamespaces with
    | Some decl =>
        if 0 <? Z.of_nat (size decl) then
          match parentNS with
          | Some pns => Some (decl ∪ pns)
          | None => Some decl
          end
        else parentNS
    | None => parentNS
    end in
  let uri :=
    match nsContext with
    | Some m => default EmptyString (m !! pre)
    | None => EmptyString
    end in
  attributes ←
    (if 0 <? len attrs then parseAttributes TrimSpace attrs [] else Ok []);
  let elem := length (elems (hp w)) in
  let fresh := {| Name := nameStr; children := []; parent := None;
                  Attributes := attributes; localName := localN;
                  prefix_ := pre; namespaceURI := uri;
                  namespaces := nsContext; siblingIndex := 0;
                  rawContent := [] |} in
  h ← linkToParent (hp w) (stack (st w)) fresh;
  selfClosing ← isSelfClosing fullTag;
  if (selfClosing : bool) then
    '(h, out) ← checkAndStreamElement p h (sent w) elem;
    Ok {| hp := h; st := st w; sent := out |}
  else
    Ok {| hp := h;
          st := {| stack := elem :: stack (st w); depth := depth (st w) + 1 |};
          sent := sent w |}.

(** One iteration of the loop of [parse] on an event other than EOF. *)
Definition handleEvent (p : Parser) (w : machine) (e : Event) : result machine :=
  match e with
  | EventStart name attrs fullTag =>
      elementNamespaces ← elementNamespacesOf TrimSpace attrs;
      handleStartElement p w name attrs fullTag elementNamespaces
  | EventEnd => handleEndElement p w
  | EventText bytes =>
      match stack (st w) with
      | top :: _ =>
          if 0 <? len bytes then
            h ← appendContentNode (hp w) top bytes TextNode;
            Ok (withHeap w h)
          else Ok w
      | [] => Ok w
      end
  | EventCData bytes =>
      match stack (st w) with
      | top :: _ =>
          if 12 <? len bytes then
            content ← slice bytes 9 (len bytes - 3);
            if 0 <? len content then
              h ← appendContentNode (hp w) top content TextNode;
              Ok (withHeap w h)
            else Ok w
          else Ok w
      | [] => Ok w
      end
  | EventComment bytes =>
      match stack (st w) with
      | top :: _ =>
          if 7 <? len bytes then
            content ← slice bytes 4 (len bytes - 3);
            h ← appendContentNode (hp w) top content CommentNode;
            Ok (withHeap w h)
          else Ok w
      | [] => Ok w
      end
  | EventEOF => Ok w
  | EventOther _ => Ok w
  end.

(** The loop of [parse].  It ends at the EOF event or when the event
    source fails (the list ends); a cancellation observed before an
    event ends it the same way as the list ending there. *)
Fixpoint parse_loop (p : Parser) (events : list Event) (w : machine)
  : result machine :=
  match events with
  | [] => Ok w
  | EventEOF :: _ => Ok w
  | e :: rest =>
      w' ← handleEvent p w e;
      parse_loop p rest w'
  end.

Definition parse (p : Parser) (events : list Event) : result machine :=
  parse_loop p events initial.

End Assembler.

(** ** Stream (parser.go) *)

(** What [Stream] touches outside the parser: the channels made so far
    (handles are numbered in order of creation) and, for each background
    parse task started, the channel it writes to. *)
Record runtime : Type := mkRuntime {
  channels : nat;
  tasks : list nat
}.

Definition boot : runtime := {| channels := 0; tasks := [] |}.

(** [p.Stream()]: the returned handle, the parser and the runtime after. *)
Definition Stream (p : Parser) (rt : runtime) : option nat * Parser * runtime :=
  if once p then (ch p, p, rt)
  else
    let c := channels rt in
    (Some c,
     {| streamNames := streamNames p; bufferSize := bufferSize p;
        once := true; ch := Some c |},
     {| channels := S (channels rt); tasks := tasks rt ++ [c] |}).

(** [n] successive calls; the handles returned, oldest first. *)
Fixpoint StreamTimes (n : nat) (p : Parser) (rt : runtime)
  : list (option nat) * Parser * runtime :=
  match n with
  | O => ([], p, rt)
  | S n' =>
      let '(c, p', rt') := Stream p rt in
      let '(cs, p'', rt'') := StreamTimes n' p' rt' in
      (c :: cs, p'', rt'')
  end.

(** ** Properties the proofs are stated with *)

(** [name == "xmlns" || strings.HasPrefix(name, "xmlns:")]: the test under
    which [extractNamespaces] stores a declaration. *)
Definition isDeclName (name : string) : bool :=
  String.eqb name "xmlns" || String.prefix "xmlns:" name.

(** Some attribute name of [attrs], as the scanner reads it (a slice of
    [attrs], trimmed), declares a namespace. *)
Definition declares (TrimSpace : list byte → list byte) (attrs : list byte) : Prop :=
  ∃ lo hi : Z, 0 ≤ lo ∧ lo ≤ hi ∧ hi ≤ len attrs ∧
    isDeclName (string_of_list_byte
                  (TrimSpace (take (Z.to_nat (hi - lo))
                                (drop (Z.to_nat lo) attrs)))) = true.

(** A pointer refers to a node of the memory. *)
Definition allocated (h : heap) (n : XMLNode) : Prop :=
  match n with
  | ElemRef a => (a < length (elems h))%nat
  | ContentRef a => (a < length (contents h))%nat
  end.

(** [children[i].siblingIndex == i] for every element and every index. *)
Definition siblings_ok (h : heap) : Prop :=
  ∀ p e i c,
    getElem h p = Ok e → index (children e) i = Ok c →
    getSiblingIndex h c = Ok i.

(** A node with a non-nil parent is listed among the children of that
    parent at its sibling index. *)
Definition parents_ok (h : heap) : Prop :=
  ∀ n p,
    Parent h n = Ok (Some p) →
    ∃ pe idx, getElem h p = Ok pe ∧ getSiblingIndex h n = Ok idx ∧
              index (children pe) idx = Ok n.

(** The element at [a] is a detached root. *)
Definition detached (h : heap) (a : nat) : Prop :=
  Parent h (ElemRef a) = Ok None.

(** A start tag ends in [/>]. *)
Definition isSelfClosingTag (fullTag : list byte) : bool :=
  match rev fullTag with
  | b :: a :: _ => Byte.eqb a bSlash && Byte.eqb b bGt
  | _ => false
  end.

(** The elements an event sequence closes, in closing order.  The [n]-th
    start event creates the element at address [n]; [opened] lists the open
    elements, innermost first.  An element is closed by its end tag or by
    the self-closing marker of its start tag; an end tag with nothing open
    closes nothing. *)
Fixpoint closedFrom (events : list Event) (n : nat) (opened : list nat)
  : list nat :=
  match events with
  | [] => []
  | EventEOF :: _ => []
  | EventStart _ _ fullTag :: rest =>
      if isSelfClosingTag fullTag then n :: closedFrom rest (S n) opened
      else closedFrom rest (S n) (n :: opened)
  | EventEnd :: rest =>
      match opened with
      | a :: opened' => a :: closedFrom rest n opened'
      | [] => closedFrom rest n []
      end
  | _ :: rest => closedFrom rest n opened
  end.

Definition closed (events : list Event) : list nat := closedFrom events 0 [].

(** The qualified name of the element at [a] is one of [names]. *)
Definition named (names : list string) (h : heap) (a : nat) : bool :=
  match getElem h a with
  | Ok e => bool_decide (Name e ∈ names)
  | _ => false
  end.

(** Where a move leads in the tree, if anywhere: out of attribute mode or
    to the parent; to the next attribute of the enclosing element; to the
    first child; to the first, next or previous entry of the parent's child
    list. *)
Definition target (m : Move) (h : heap) (navigator : elementNavigator)
  : option (XMLNode * Z) :=
  let onAttribute := negb (attributeIndex navigator =? -1) in
  let up := match Parent h (currNode navigator) with
            | Ok (Some p) => elems h !! p
            | _ => None
            end in
  let at_ := match getSiblingIndex h (currNode navigator) with
             | Ok i => i
             | _ => 0
             end in
  match m with
  | ToParent =>
      if onAttribute then Some (currNode navigator, -1)
      else match Parent h (currNode navigator) with
           | Ok (Some p) => Some (ElemRef p, -1)
           | _ => None
           end
  | ToNextAttribute =>
      e ← currElement navigator;
      el ← elems h !! e;
      _ ← Attributes el !! Z.to_nat (attributeIndex navigator + 1);
      if 0 <=? attributeIndex navigator + 1
      then Some (currNode navigator, attributeIndex navigator + 1)
      else None
  | ToChild =>
      if onAttribute then None
      else
        e ← currElement navigator;
        el ← elems h !! e;
        c ← head (children el);
        Some (c, -1)
  | ToFirst =>
      if onAttribute then None
      else pe ← up; c ← head (children pe); Some (c, -1)
  | ToNext =>
      if onAttribute then None
      else
        pe ← up;
        c ← children pe !! Z.to_nat (at_ + 1);
        if 0 <=? at_ + 1 then Some (c, -1) else None
  | ToPrevious =>
      if onAttribute then None
      else
        pe ← up;
        c ← children pe !! Z.to_nat (at_ - 1);
        if 0 <=? at_ - 1 then Some (c, -1) else None
  end.

(** The cursor points into the memory. *)
Definition cursor_ok (h : heap) (navigator : elementNavigator) : Prop :=
  allocated h (currNode navigator) ∧
  (∀ e, currElement navigator = Some e → allocated h (ElemRef e)) ∧
  -1 ≤ attributeIndex navigator.

(** How the assembler changes memory between two moments: nodes stay where
    they are; an element keeps its name and sibling index, its parent
    pointer is kept or cleared, and its child list only grows at the end;
    a content node does not change. *)
Definition evolves (h h' : heap) : Prop :=
  (∀ a e, elems h !! a = Some e →
     ∃ e', elems h' !! a = Some e' ∧ Name e' = Name e ∧
           siblingIndex e' = siblingIndex e ∧
           (parent e' = parent e ∨ parent e' = None) ∧
           children e `prefix_of` children e') ∧
  (∀ a c, contents h !! a = Some c → contents h' !! a = Some c).

(** The element at [a] passes the test of [checkAndStreamElement]. *)
Definition streamed (p : Parser) (h : heap) (a : nat) : bool :=
  match getElem h a with
  | Ok e => shouldStream p (Name e)
  | _ => false
  end.

(** What holds of the assembler between two events. *)
Definition Inv (w : machine) : Prop :=
  Forall (λ a, allocated (hp w) (ElemRef a)) (stack (st w)) ∧
  siblings_ok (hp w) ∧
  parents_ok (hp w) ∧
  Forall (detached (hp w)) (sent w).

(** ** Sample inputs *)

Definition bytesOf (s : string) : list byte := list_byte_of_string s.

Definition startTag (name : string) : Event :=
  EventStart (bytesOf name) [] (bytesOf ("<" ++ name ++ ">")).

(** The events of [<root><item><!--c-->text</item></root>]. *)
Definition docComment : list Event :=
  [startTag "root"; startTag "item"; EventComment (bytesOf "<!--c-->");
   EventText (bytesOf "text"); EventEnd; EventEnd; EventEOF].

(** The events of [<root><item><!--c-->text<b/></item></root>]. *)
Definition docCommentAndChild : list Event :=
  [startTag "root"; startTag "item"; EventComment (bytesOf "<!--c-->");
   EventText (bytesOf "text");
   EventStart (bytesOf "b") (bytesOf "/") (bytesOf "<b/>");
   EventEnd; EventEnd; EventEOF].

(** The events of
    [<root><item>1</item><other>x</other><item>2</item></root>]. *)
Definition docItems : list Event :=
  [startTag "root";
   startTag "item"; EventText (bytesOf "1"); EventEnd;
   startTag "other"; EventText (bytesOf "x"); EventEnd;
   startTag "item"; EventText (bytesOf "2"); EventEnd;
   EventEnd; EventEOF].

Definition plainElement (name : string) (cs : list XMLNode)
           (par : option nat) (i : Z) : XMLElement :=
  {| Name := name; children := cs; parent := par; Attributes := [];
     localName := name; prefix_ := EmptyString; namespaceURI := EmptyString;
     namespaces := None; siblingIndex := i; rawContent := [] |}.

(** A root with one child element, and a cursor on that child. *)
Definition heapTwo : heap :=
  {| elems := [plainElement "root" [ElemRef 1] None 0;
               plainElement "item" [] (Some 0%nat) 0];
     contents := [] |}.

Definition navOnItem : elementNavigator :=
  {| root := 0; currNode := ElemRef 1; currElement := Some 1%nat;
     attributeIndex := -1 |}.

(** ** What one event does to the state *)

(** The namespace scope of a new element: the declarations of its own tag
    laid over the scope of the enclosing element; the scope of the
    enclosing element itself when the tag declares nothing. *)
Definition scopeOf (decl parentNS : option (gmap string string))
  : option (gmap string string) :=
  match decl with
  | Some d =>
      if 0 <? Z.of_nat (size d) then
        match parentNS with
        | Some pns => Some (d ∪ pns)
        | None => Some d
        end
      else parentNS
  | None => parentNS
  end.

(** [nsContext[prefix]] when the scope is not nil, the empty string
    otherwise. *)
Definition resolve (scope : option (gmap string string)) (pre : string) : string :=
  match scope with
  | Some m => default EmptyString (m !! pre)
  | None => EmptyString
  end.

(** The scope of the innermost open element. *)
Definition parentScope (h : heap) (stk : list nat) : option (gmap string string) :=
  match stk with
  | top :: _ =>
      match elems h !! top with
      | Some pe => namespaces pe
      | None => None
      end
  | [] => None
  end.

(** What [handleStartElement] has put into the fields of a new element
    before it links it. *)
Definition born (h : heap) (stk : list nat) (fresh : XMLElement) : Prop :=
  splitName (Name fresh) = Ok (prefix_ fresh, localName fresh) ∧
  (∃ decl, namespaces fresh = scopeOf decl (parentScope h stk)) ∧
  namespaceURI fresh = resolve (namespaces fresh) (prefix_ fresh).

(** The five shapes of one iteration of the loop of [parse]: nothing; a
    content node appended to the innermost open element; the innermost open
    element closed; a new element opened; a new element created and closed
    at once. *)
Inductive effect (p : Parser) (w : machine) : machine → Prop :=
| eff_none : effect p w w
| eff_content (top : nat) (stk : list nat) (bytes : list byte)
              (kind : NodeType) (h' : heap) :
    stack (st w) = top :: stk → 0 < len bytes →
    appendContentNode (hp w) top bytes kind = Ok h' →
    effect p w (withHeap w h')
| eff_close (elem : nat) (stk : list nat) (h' : heap) (out' : list nat) :
    stack (st w) = elem :: stk →
    checkAndStreamElement p (hp w) (sent w) elem = Ok (h', out') →
    effect p w {| hp := h';
                  st := {| stack := stk; depth := depth (st w) - 1 |};
                  sent := out' |}
| eff_open (fresh : XMLElement) (h' : heap) :
    children fresh = [] → parent fresh = None → rawContent fresh = [] →
    born (hp w) (stack (st w)) fresh →
    linkToParent (hp w) (stack (st w)) fresh = Ok h' →
    effect p w {| hp := h';
                  st := {| stack := length (elems (hp w)) :: stack (st w);
                           depth := depth (st w) + 1 |};
                  sent := sent w |}
| eff_selfclose (fresh : XMLElement) (h1 h2 : heap) (out' : list nat) :
    children fresh = [] → parent fresh = None → rawContent fresh = [] →
    born (hp w) (stack (st w)) fresh →
    linkToParent (hp w) (stack (st w)) fresh = Ok h1 →
    checkAndStreamElement p h1 (sent w) (length (elems (hp w))) = Ok (h2, out') →
    effect p w {| hp := h2; st := st w; sent := out' |}.

(** Every content node has a parent and a non-empty byte range inside the
    raw content of that parent. *)
Definition content_ok (h : heap) : Prop :=
  ∀ a c, contents h !! a = Some c →
    ∃ p pe, cparent c = Some p ∧ elems h !! p = Some pe ∧
            0 ≤ start c ∧ start c < end_ c ∧ end_ c ≤ len (rawContent pe).

(** A child element was created after its parent; a child content node
    points back to the element that lists it. *)
Definition children_ok (h : heap) : Prop :=
  ∀ p e n, elems h !! p = Some e → n ∈ children e →
    match n with
    | ElemRef c => (p < c)%nat ∧ (c < length (elems h))%nat
    | ContentRef a => ∃ c, contents h !! a = Some c ∧ cparent c = Some p
    end.

(** The byte ranges of the content nodes among [cs], in order, follow one
    another from offset [off]; the result is the offset after the last. *)
Fixpoint tiled (h : heap) (cs : list XMLNode) (off : Z) : option Z :=
  match cs with
  | [] => Some off
  | ElemRef _ :: cs' => tiled h cs' off
  | ContentRef a :: cs' =>
      match contents h !! a with
      | Some c => if start c =? off then tiled h cs' (end_ c) else None
      | None => None
      end
  end.

(** The content children of every element tile its raw content. *)
Definition tiling_ok (h : heap) : Prop :=
  ∀ p e, elems h !! p = Some e →
    tiled h (children e) 0 = Some (len (rawContent e)).

(** The open elements are listed innermost first, newest address first. *)
Fixpoint descending (l : list nat) : Prop :=
  match l with
  | [] => True
  | a :: l' => Forall (λ b, (b < a)%nat) l' ∧ descending l'
  end.

(** An open element is listed as a child only by open elements. *)
Definition open_chain (w : machine) : Prop :=
  ∀ q e c, elems (hp w) !! q = Some e → ElemRef c ∈ children e →
           c ∈ stack (st w) → q ∈ stack (st w).

(** More of what holds of the assembler between two events. *)
Definition Inv2 (w : machine) : Prop :=
  content_ok (hp w) ∧ children_ok (hp w) ∧ tiling_ok (hp w) ∧
  descending (stack (st w)) ∧ open_chain w ∧
  depth (st w) = len (stack (st w)).

(** The body of the loop of [collectText] over the children [cs], with
    [descend] for the recursive call. *)
Definition collectChildren (descend : nat → list byte → result (list byte))
           (h : heap) : list XMLNode → list byte → result (list byte) :=
  fix range (cs : list XMLNode) (sb : list byte) : result (list byte) :=
    match cs with
    | [] => Ok sb
    | child :: cs' =>
        sb' ← match child with
              | ContentRef c =>
                  node ← getContent h c;
                  match cparent node with
                  | Some p =>
                      if NodeType_eqb (nodeType node) TextNode
                         && (start node <? end_ node)
                      then
                        pe ← getElem h p;
                        b ← slice (rawContent pe) (start node) (end_ node);
                        Ok (sb ++ b)
                      else Ok sb
                  | None => Ok sb
                  end
              | ElemRef c => descend c sb
              end;
        range cs' sb'
    end.

(** A child that is a text node. *)
Definition isTextChild (h : heap) (n : XMLNode) : Prop :=
  match n with
  | ContentRef a => ∃ c, contents h !! a = Some c ∧ nodeType c = TextNode
  | ElemRef _ => False
  end.

(** The element at [a] exists and is not open. *)
Definition closed_in (w : machine) (a : nat) : Prop :=
  (a < length (elems (hp w)))%nat ∧ a ∉ stack (st w).

(** From [w] to [w'] no closed element has changed or been reopened, and
    no content node has changed. *)
Definition keeps_closed (w w' : machine) : Prop :=
  (∀ a, closed_in w a →
        elems (hp w') !! a = elems (hp w) !! a ∧ closed_in w' a) ∧
  contents (hp w) `prefix_of` contents (hp w').

(** The bytes a text or CDATA event contributes to the open element: the
    text as it is, the CDATA section without its delimiters. *)
Definition textOf (e : Event) : list byte :=
  match e with
  | EventText bytes => bytes
  | EventCData bytes =>
      if 12 <? len bytes then take (Z.to_nat (len bytes - 12)) (drop 9 bytes)
      else []
  | _ => []
  end.

Definition isTextual (e : Event) : Prop :=
  match e with
  | EventText _ | EventCData _ => True
  | _ => False
  end.

(** The first four events of [docItems]: the root is open and the first
    item has been closed and sent. *)
Definition docItemsHead : list Event :=
  [startTag "root"; startTag "item"; EventText (bytesOf "1"); EventEnd].

Definition docItemsTail : list Event :=
  [startTag "other"; EventText (bytesOf "x"); EventEnd;
   startTag "item"; EventText (bytesOf "2"); EventEnd;
   EventEnd; EventEOF].

(** The fields of an element that say what it is. *)
Definition same_identity (e e' : XMLElement) : Prop :=
  Name e' = Name e ∧ prefix_ e' = prefix_ e ∧ localName e' = localName e ∧
  namespaceURI e' = namespaceURI e ∧ namespaces e' = namespaces e ∧
  Attributes e' = Attributes e.

(** Prefix and local name are the two parts of the qualified name, and the
    namespace URI is what the prefix maps to in the element's scope. *)
Definition identity_ok (h : heap) : Prop :=
  ∀ a e, elems h !! a = Some e →
    splitName (Name e) = Ok (prefix_ e, localName e) ∧
    namespaceURI e = resolve (namespaces e) (prefix_ e).

(** The scope of a child element is the scope of its parent, or
    declarations laid over it. *)
Definition scope_ok (h : heap) : Prop :=
  ∀ p e c ec, elems h !! p = Some e → ElemRef c ∈ children e →
    elems h !! c = Some ec →
    ∃ decl, namespaces ec = scopeOf decl (namespaces e).

(** A listed child element points back to the element that lists it, or
    has been detached. *)
Definition child_parent_ok (h : heap) : Prop :=
  ∀ p e c ec, elems h !! p = Some e → ElemRef c ∈ children e →
    elems h !! c = Some ec →
    parent ec = Some p ∨ parent ec = None.

Definition Inv3 (w : machine) : Prop :=
  identity_ok (hp w) ∧ scope_ok (hp w) ∧ child_parent_ok (hp w).

(** ** More of the cursor (navigator.go) *)

(** The cursor [Evaluate] starts from. *)
Definition rootCursor (e : nat) : elementNavigator :=
  {| root := e; currNode := ElemRef e; currElement := Some e;
     attributeIndex := -1 |}.

(** [navigator.currElement.Attributes[navigator.attributeIndex]] *)
Definition currentAttribute (h : heap) (navigator : elementNavigator)
  : result XMLAttribute :=
  match currElement navigator with
  | None => Panic
  | Some e =>
      el ← getElem h e;
      index (Attributes el) (attributeIndex navigator)
  end.

Definition LocalName (h : heap) (navigator : elementNavigator) : result string :=
  if negb (attributeIndex navigator =? -1) then
    a ← currentAttribute h navigator;
    let name := AttrName a in
    let idx := IndexByte name bColon in
    if negb (idx =? -1) then strFrom name (idx + 1) else Ok name
  else
    match currElement navigator with
    | Some e => el ← getElem h e; Ok (localName el)
    | None => Ok EmptyString
    end.

Definition Prefix (h : heap) (navigator : elementNavigator) : result string :=
  if negb (attributeIndex navigator =? -1) then
    a ← currentAttribute h navigator;
    let name := AttrName a in
    let idx := IndexByte name bColon in
    if negb (idx =? -1) then strTo name idx else Ok EmptyString
  else
    match currElement navigator with
    | Some e => el ← getElem h e; Ok (prefix_ el)
    | None => Ok EmptyString
    end.

Definition NamespaceURL (h : heap) (navigator : elementNavigator) : result string :=
  if negb (attributeIndex navigator =? -1) then
    match currElement navigator with
    | None => Panic
    | Some e =>
        el ← getElem h e;
        a ← index (Attributes el) (attributeIndex navigator);
        let attrName := AttrName a in
        let idx := IndexByte attrName bColon in
        if negb (idx =? -1) then
          pre ← strTo attrName idx;
          match namespaces el with
          | Some m => Ok (default EmptyString (m !! pre))
          | None => Ok EmptyString
          end
        else Ok EmptyString
    end
  else
    match currElement navigator with
    | Some e => el ← getElem h e; Ok (namespaceURI el)
    | None => Ok EmptyString
    end.

(** [k] calls of [MoveToNextAttribute], stopping at the first that
    fails. *)
Fixpoint attributeSteps (k : nat) (h : heap) (navigator : elementNavigator)
  : result (bool * elementNavigator) :=
  match k with
  | O => Ok (true, navigator)
  | S k' =>
      match attributeSteps k' h navigator with
      | Ok (true, navigator') => MoveToNextAttribute h navigator'
      | other => other
      end
  end.

Definition onAttribute (navigator : elementNavigator) (i : Z) : elementNavigator :=
  {| root := root navigator; currNode := currNode navigator;
     currElement := currElement navigator; attributeIndex := i |}.

(** The cursor is on a node, not on an attribute, and its cached element
    is that node when the node is an element. *)
Definition onNode (navigator : elementNavigator) : Prop :=
  attributeIndex navigator = -1 ∧
  currElement navigator = asElement (currNode navigator).

(** An element with two attributes, one of them prefixed. *)
Definition itemWithAttrs : XMLElement :=
  {| Name := "item"; children := []; parent := None;
     Attributes := [{| AttrName := "id"; AttrValue := "1" |};
                    {| AttrName := "xml:lang"; AttrValue := "en" |}];
     localName := "item"; prefix_ := EmptyString;
     namespaceURI := EmptyString; namespaces := None;
     siblingIndex := 0; rawContent := [] |}.

Definition heapAttrs : heap :=
  {| elems := [itemWithAttrs]; contents := [] |}.

(** ** Attribute text *)

(** One attribute as it stands in a tag: white space, the name, [=],
    blanks, a quote, the value, the same quote. *)
Record attrText : Type := mkAttrText {
  lead : list byte;
  nm : list byte;
  gap : list byte;
  qt : byte;
  val : list byte
}.

Definition renderAttr (t : attrText) : list byte :=
  lead t ++ nm t ++ [bEq] ++ gap t ++ [qt t] ++ val t ++ [qt t].

Definition renderAttrs (l : list attrText) : list byte :=
  concat (map renderAttr l).

(** The name holds no [=] and does not start with white space, the value
    does not hold its quote. *)
Definition wfAttr (t : attrText) : Prop :=
  Forall (λ c, isSpace4 c = true) (lead t) ∧
  (bEq ∉ nm t) ∧
  match nm t with c :: _ => isSpace4 c = false | [] => True end ∧
  Forall (λ c, isSpace2 c = true) (gap t) ∧
  isQuote (qt t) = true ∧
  (qt t ∉ val t).

Definition attrOf (TrimSpace : list byte → list byte) (t : attrText)
  : XMLAttribute :=
  {| AttrName := string_of_list_byte (TrimSpace (nm t));
     AttrValue := string_of_list_byte (val t) |}.

(** The namespace declarations among parsed attributes, later ones over
    earlier ones. *)
Definition declared (ns : option (gmap string string)) (a : XMLAttribute)
  : option (gmap string string) :=
  if String.eqb (AttrName a) "xmlns" then nsStore ns EmptyString (AttrValue a)
  else if String.prefix "xmlns:" (AttrName a) then
    nsStore ns (string_of_list_byte (drop 6 (list_byte_of_string (AttrName a))))
            (AttrValue a)
  else ns.

Definition declarationsOf (attrs : list XMLAttribute)
  : option (gmap string string) :=
  foldl declared None attrs.

Definition twoAttrs : list attrText :=
  [ {| lead := [bSpace]; nm := bytesOf "id"; gap := []; qt := bQuote;
       val := bytesOf "1" |};
    {| lead := [bSpace; bLF]; nm := bytesOf "xmlns:a"; gap := [bSpace];
       qt := bApos; val := bytesOf "urn:a" |} ].

(** ** Release (element.go) *)

(** The two node pools: what has been put back, oldest first. *)
Record pools : Type := mkPools {
  xmlElementPool : list nat;
  xmlContentNodePool : list nat
}.

(** The fields [returnElementToPool] clears. *)
Definition cleared (e : XMLElement) : XMLElement :=
  {| Name := Name e; children := []; parent := None; Attributes := [];
     localName := localName e; prefix_ := prefix_ e;
     namespaceURI := namespaceURI e; namespaces := None; siblingIndex := 0;
     rawContent := [] |}.

(** The loop over [current.children]: child elements go on the work
    stack (top first), content nodes go back to their pool. *)
Fixpoint returnChildren (cs : list XMLNode) (stack : list nat) (pl : pools)
  : list nat * pools :=
  match cs with
  | [] => (stack, pl)
  | ElemRef c :: cs' => returnChildren cs' (c :: stack) pl
  | ContentRef c :: cs' =>
      returnChildren cs' stack
        {| xmlElementPool := xmlElementPool pl;
           xmlContentNodePool := xmlContentNodePool pl ++ [c] |}
  end.

(** [for len(stack) > 0 { ... }] *)
Fixpoint returnElementToPool_loop (fuel : nat) (h : heap) (stack : list nat)
         (pl : pools) : result (heap * pools) :=
  match fuel with
  | O => OutOfFuel
  | S fuel' =>
      match stack with
      | [] => Ok (h, pl)
      | current :: stack =>
          el ← getElem h current;
          let '(stack, pl) := returnChildren (children el) stack pl in
          let h := setElem h current (cleared el) in
          returnElementToPool_loop fuel' h stack
            {| xmlElementPool := xmlElementPool pl ++ [current];
               xmlContentNodePool := xmlContentNodePool pl |}
      end
  end.

Definition returnElementToPool (fuel : nat) (h : heap) (elem : nat) (pl : pools)
  : result (heap * pools) :=
  returnElementToPool_loop fuel h [elem] pl.

(** [e.Release()] *)
Definition Release (fuel : nat) (h : heap) (e : nat) (pl : pools)
  : result (heap * pools) :=
  returnElementToPool fuel h e pl.

(** The element children among [cs]. *)
Definition elementsOf (cs : list XMLNode) : list nat := omap asElement cs.

(** The content children among [cs]. *)
Definition contentNodesOf (cs : list XMLNode) : list nat :=
  omap (λ n, match n with ContentRef c => Some c | ElemRef _ => None end) cs.

(** ** The assembler and the consumer over the node pools *)

(** What [xmlElementPool.New] makes. *)
Definition newElement : XMLElement :=
  {| Name := EmptyString; children := []; parent := None; Attributes := [];
     localName := EmptyString; prefix_ := EmptyString;
     namespaceURI := EmptyString; namespaces := None; siblingIndex := 0;
     rawContent := [] |}.

(** What [xmlContentNodePool.New] makes: the zero value; every field is
    assigned before the node is used. *)
Definition newContentNode : XMLContentNode :=
  {| start := 0; end_ := 0; nodeType := RootNode; cparent := None;
     csiblingIndex := 0 |}.

Definition noPools : pools :=
  {| xmlElementPool := []; xmlContentNodePool := [] |}.

(** [getElementFromPool]: [sync.Pool.Get] returns a node that was put
    back, here the oldest, or, when there is none, a new one. *)
Definition getElementFromPool (h : heap) (pl : pools) : nat * heap * pools :=
  match xmlElementPool pl with
  | a :: rest =>
      (a, h, {| xmlElementPool := rest;
                xmlContentNodePool := xmlContentNodePool pl |})
  | [] =>
      (length (elems h),
       {| elems := elems h ++ [newElement]; contents := contents h |}, pl)
  end.

(** [getContentNodeFromPool] *)
Definition getContentNodeFromPool (h : heap) (pl : pools) : nat * heap * pools :=
  match xmlContentNodePool pl with
  | a :: rest =>
      (a, h, {| xmlElementPool := xmlElementPool pl;
                xmlContentNodePool := rest |})
  | [] =>
      (length (contents h),
       {| elems := elems h; contents := contents h ++ [newContentNode] |}, pl)
  end.

Definition setContent (h : heap) (a : nat) (c : XMLContentNode) : heap :=
  {| elems := elems h; contents := <[a := c]> (contents h) |}.

Definition withAttributes (e : XMLElement) (attrs : list XMLAttribute)
  : XMLElement :=
  {| Name := Name e; children := children e; parent := parent e;
     Attributes := attrs; localName := localName e;
     prefix_ := prefix_ e; namespaceURI := namespaceURI e;
     namespaces := namespaces e; siblingIndex := siblingIndex e;
     rawContent := rawContent e |}.

(** The five assignments after [getElementFromPool()]. *)
Definition withIdentity (e : XMLElement) (nameStr localN pre uri : string)
           (nsContext : option (gmap string string)) : XMLElement :=
  {| Name := nameStr; children := children e; parent := parent e;
     Attributes := Attributes e; localName := localN;
     prefix_ := pre; namespaceURI := uri;
     namespaces := nsContext; siblingIndex := siblingIndex e;
     rawContent := rawContent e |}.

(** The text, CDATA and comment block of [parse], the node taken from the
    pool. *)
Definition appendContentNode_pooled (h : heap) (pl : pools) (top : nat)
           (bytes : list byte) (kind : NodeType) : result (heap * pools) :=
  let '(node, h, pl) := getContentNodeFromPool h pl in
  pe ← getElem h top;
  let h := setContent h node
             {| start := len (rawContent pe);
                end_ := len (rawContent pe ++ bytes);
                nodeType := kind;
                cparent := Some top;
                csiblingIndex := len (children pe) |} in
  Ok (setElem h top (appendChild (appendRaw pe bytes) (ContentRef node)), pl).

Section PooledAssembler.

Variable TrimSpace : list byte → list byte.

(** [handleStartElement], the element taken from the pool: the fields the
    function does not assign keep what the pooled element holds. *)
Definition handleStartElement_pooled (p : Parser) (w : machine) (pl : pools)
           (name attrs fullTag : list byte)
           (elementNamespaces : option (gmap string string))
  : result (machine * pools) :=
  let nameStr := string_of_list_byte name in
  '(pre, localN) ← splitName nameStr;
  parentNS ←
    match stack (st w) with
    | top :: _ => pe ← getElem (hp w) top; Ok (namespaces pe)
    | [] => Ok None
    end;
  let nsContext := scopeOf elementNamespaces parentNS in
  let uri := resolve nsContext pre in
  let '(elem, h, pl) := getElementFromPool (hp w) pl in
  e ← getElem h elem;
  let h := setElem h elem (withIdentity e nameStr localN pre uri nsContext) in
  h ← (if 0 <? len attrs then
         e ← getElem h elem;
         attributes ← parseAttributes TrimSpace attrs (Attributes e);
         Ok (setElem h elem (withAttributes e attributes))
       else Ok h);
  h ← match stack (st w) with
      | top :: _ =>
          pe ← getElem h top;
          e ← getElem h elem;
          let h := setElem h elem (withLink e top (len (children pe))) in
          pe ← getElem h top;
          Ok (setElem h top (appendChild pe (ElemRef elem)))
      | [] => Ok h
      end;
  selfClosing ← isSelfClosing fullTag;
  if (selfClosing : bool) then
    '(h, out) ← checkAndStreamElement p h (sent w) elem;
    Ok ({| hp := h; st := st w; sent := out |}, pl)
  else
    Ok ({| hp := h;
           st := {| stack := elem :: stack (st w); depth := depth (st w) + 1 |};
           sent := sent w |}, pl).

(** One iteration of the loop of [parse], over the pools. *)
Definition handleEvent_pooled (p : Parser) (w : machine) (pl : pools)
           (e : Event) : result (machine * pools) :=
  match e with
  | EventStart name attrs fullTag =>
      elementNamespaces ← elementNamespacesOf TrimSpace attrs;
      handleStartElement_pooled p w pl name attrs fullTag elementNamespaces
  | EventEnd => w' ← handleEndElement p w; Ok (w', pl)
  | EventText bytes =>
      match stack (st w) with
      | top :: _ =>
          if 0 <? len bytes then
            '(h, pl) ← appendContentNode_pooled (hp w) pl top bytes TextNode;
            Ok (withHeap w h, pl)
          else Ok (w, pl)
      | [] => Ok (w, pl)
      end
  | EventCData bytes =>
      match stack (st w) with
      | top :: _ =>
          if 12 <? len bytes then
            content ← slice bytes 9 (len bytes - 3);
            if 0 <? len content then
              '(h, pl) ← appendContentNode_pooled (hp w) pl top content TextNode;
              Ok (withHeap w h, pl)
            else Ok (w, pl)
          else Ok (w, pl)
      | [] => Ok (w, pl)
      end
  | EventComment bytes =>
      match stack (st w) with
      | top :: _ =>
          if 7 <? len bytes then
            content ← slice bytes 4 (len bytes - 3);
            '(h, pl) ← appendContentNode_pooled (hp w) pl top content CommentNode;
            Ok (withHeap w h, pl)
          else Ok (w, pl)
      | [] => Ok (w, pl)
      end
  | EventEOF => Ok (w, pl)
  | EventOther _ => Ok (w, pl)
  end.

(** What happens next: the parser handles an event, or the consumer
    releases the [n]-th element it has received from the channel. *)
Inductive Action : Type :=
| Feed (e : Event)
| ReleaseReceived (n : nat).

(** A run of the parser and its consumer, up to the end of the parse;
    [fuel] bounds each call of [Release].  A release of an element that
    has not been received is no action. *)
Fixpoint run (fuel : nat) (p : Parser) (acts : list Action) (w : machine)
         (pl : pools) : result (machine * pools) :=
  match acts with
  | [] => Ok (w, pl)
  | Feed EventEOF :: _ => Ok (w, pl)
  | Feed e :: rest =>
      '(w', pl') ← handleEvent_pooled p w pl e;
      run fuel p rest w' pl'
  | ReleaseReceived n :: rest =>
      match sent w !! n with
      | Some a =>
          '(h, pl') ← Release fuel (hp w) a pl;
          run fuel p rest (withHeap w h) pl'
      | None => run fuel p rest w pl
      end
  end.

End PooledAssembler.

(** The events of
    [<root><item>1</item><other>x</other><item>2</item></root>], the
    consumer releasing the first [item] as soon as it is sent. *)
Definition releaseEarly : list Action :=
  [Feed (startTag "root");
   Feed (startTag "item"); Feed (EventText (bytesOf "1")); Feed EventEnd;
   ReleaseReceived 0;
   Feed (startTag "other"); Feed (EventText (bytesOf "x")); Feed EventEnd;
   Feed (startTag "item"); Feed (EventText (bytesOf "2")); Feed EventEnd;
   Feed EventEnd; Feed EventEOF].

(** * Proofs *)

(** ** Slices and scanning loops *)

Ltac bind_simpl := cbn [mbind result_bind mret result_ret].

Lemma len_nonneg {A} (s : list A) : 0 ≤ len s.
Proof. unfold len. lia. Qed.

Lemma len_app {A} (s t : list A) : len (s ++ t) = len s + len t.
Proof. unfold len. rewrite length_app. lia. Qed.

Lemma index_ok {A} (s : list A) (i : Z) :
  0 ≤ i < len s → ∃ x, index s i = Ok x ∧ s !! Z.to_nat i = Some x.
Proof.
  intros Hi. unfold index.
  assert (Hb : (0 <=? i) && (i <? len s) = true)
    by (apply andb_true_intro; split; [apply Z.leb_le | apply Z.ltb_lt]; lia).
  rewrite Hb.
  destruct (s !! Z.to_nat i) as [x|] eqn:E; [eauto|].
  apply lookup_ge_None in E. unfold len in Hi. lia.
Qed.

Lemma index_Ok_inv {A} (s : list A) (i : Z) (x : A) :
  index s i = Ok x → 0 ≤ i < len s ∧ s !! Z.to_nat i = Some x.
Proof.
  unfold index. destruct ((0 <=? i) && (i <? len s)) eqn:Hb; [|discriminate].
  apply andb_prop in Hb as [H1 H2].
  apply Z.leb_le in H1. apply Z.ltb_lt in H2.
  destruct (s !! Z.to_nat i); [|discriminate].
  intros [= ->]. auto.
Qed.

Lemma slice_ok {A} (s : list A) (lo hi : Z) :
  0 ≤ lo → lo ≤ hi → hi ≤ len s →
  slice s lo hi = Ok (take (Z.to_nat (hi - lo)) (drop (Z.to_nat lo) s)).
Proof.
  intros H1 H2 H3. unfold slice.
  replace (0 <=? lo) with true by (symmetry; apply Z.leb_le; lia).
  replace (lo <=? hi) with true by (symmetry; apply Z.leb_le; lia).
  replace (hi <=? len s) with true by (symmetry; apply Z.leb_le; lia).
  reflexivity.
Qed.

(** The scanning loop returns, within the slice or where it started, at a
    byte that fails the condition. *)
Lemma advance_ok (fuel : nat) (cond : byte → bool) (s : list byte) (i : Z) :
  0 ≤ i → Z.max 0 (len s - i) < Z.of_nat fuel →
  ∃ j, advance fuel cond s i = Ok j ∧ i ≤ j ∧ j ≤ Z.max i (len s) ∧
       (j < len s → ∃ c, index s j = Ok c ∧ cond c = false).
Proof.
  revert i. induction fuel as [|fuel IH]; intros i Hi Hf.
  - lia.
  - cbn [advance]. destruct (i <? len s) eqn:Hlt.
    + apply Z.ltb_lt in Hlt.
      destruct (index_ok s i) as (c & Hc & _); [lia|].
      rewrite Hc. bind_simpl.
      destruct (cond c) eqn:Hcond.
      * destruct (IH (i + 1)) as (j & Hj & H1 & H2 & H3); [lia..|].
        exists j. split; [exact Hj|]. split; [lia|]. split; [lia|exact H3].
      * exists i. split; [reflexivity|]. split; [lia|]. split; [lia|].
        intros _. eauto.
    + apply Z.ltb_ge in Hlt. exists i. split; [reflexivity|].
      split; [lia|]. split; [lia|]. lia.
Qed.

Lemma advanceWhile_ok (cond : byte → bool) (s : list byte) (i : Z) :
  0 ≤ i →
  ∃ j, advanceWhile cond s i = Ok j ∧ i ≤ j ∧ j ≤ Z.max i (len s) ∧
       (j < len s → ∃ c, index s j = Ok c ∧ cond c = false).
Proof.
  intros Hi. apply advance_ok; [exact Hi|]. unfold len. lia.
Qed.

Lemma countEq_nonneg (s : list byte) : 0 ≤ countEq s.
Proof. unfold countEq. apply len_nonneg. Qed.

Lemma countEq_cons (c : byte) (s : list byte) :
  countEq (c :: s) = (if Byte.eqb c bEq then 1 else 0) + countEq s.
Proof.
  unfold countEq, len. rewrite filter_cons.
  destruct (Byte.eqb c bEq) eqn:E.
  - rewrite decide_True by reflexivity. cbn [length]. lia.
  - rewrite decide_False by discriminate. lia.
Qed.

Lemma countEq_drop_le (s : list byte) (a b : nat) :
  (a ≤ b)%nat → countEq (drop b s) ≤ countEq (drop a s).
Proof.
  revert a b. induction s as [|c s IH]; intros a b Hab.
  - rewrite !drop_nil. lia.
  - destruct a as [|a], b as [|b]; try lia; cbn [drop].
    + rewrite countEq_cons. specialize (IH 0%nat b ltac:(lia)).
      rewrite drop_0 in IH. destruct (Byte.eqb c bEq); lia.
    + apply IH. lia.
Qed.

Lemma countEq_drop_at (s : list byte) (a : nat) :
  s !! a = Some bEq → countEq (drop a s) = 1 + countEq (drop (S a) s).
Proof.
  revert a. induction s as [|c s IH]; intros a Ha; [discriminate|].
  destruct a as [|a]; cbn [drop].
  - injection Ha as ->. rewrite countEq_cons, drop_0. reflexivity.
  - apply IH. exact Ha.
Qed.

Lemma notByte_false (q c : byte) : notByte q c = false → c = q.
Proof.
  unfold notByte. intros H. apply negb_false_iff in H.
  apply byte_dec_bl. exact H.
Qed.

Section ScannerFacts.

Variable TrimSpace : list byte → list byte.

(** The attribute loop returns, and every attribute it stores has used up
    one [=] of the remaining input. *)
Lemma parseAttributes_loop_ok (fuel : nat) (attrs : list byte) (i : Z)
      (acc : list XMLAttribute) :
  0 ≤ i → Z.max 0 (len attrs - i) < Z.of_nat fuel →
  ∃ r, parseAttributes_loop TrimSpace fuel attrs i acc = Ok r ∧
       len r ≤ len acc + countEq (drop (Z.to_nat i) attrs).
Proof.
  revert i acc. induction fuel as [|fuel IH]; intros i acc Hi Hf; [lia|].
  pose proof (countEq_nonneg (drop (Z.to_nat i) attrs)) as Hnn.
  assert (Hstop : ∃ r, Ok acc = Ok r ∧
            len r ≤ len acc + countEq (drop (Z.to_nat i) attrs))
    by (exists acc; split; [reflexivity|lia]).
  cbn [parseAttributes_loop].
  destruct (i <? len attrs) eqn:E0; cbn [negb]; [|exact Hstop].
  apply Z.ltb_lt in E0.
  destruct (advanceWhile_ok isSpace4 attrs i Hi) as (i1 & -> & H1 & H1' & _).
  bind_simpl.
  destruct (len attrs <=? i1) eqn:E1; [exact Hstop|]. apply Z.leb_gt in E1.
  destruct (advanceWhile_ok (notByte bEq) attrs i1 ltac:(lia))
    as (i2 & -> & H2 & H2' & Hc2).
  bind_simpl.
  destruct (len attrs <=? i2) eqn:E2; [exact Hstop|]. apply Z.leb_gt in E2.
  rewrite (slice_ok attrs i1 i2) by lia. bind_simpl.
  destruct (advanceWhile_ok isSpace2 attrs (i2 + 1) ltac:(lia))
    as (i4 & -> & H4 & H4' & _).
  bind_simpl.
  destruct (len attrs <=? i4) eqn:E4; [exact Hstop|]. apply Z.leb_gt in E4.
  destruct (index_ok attrs i4 ltac:(lia)) as (quote & -> & _). bind_simpl.
  destruct (isQuote quote); cbn [negb]; [|exact Hstop].
  destruct (advanceWhile_ok (notByte quote) attrs (i4 + 1) ltac:(lia))
    as (i6 & -> & H6 & H6' & _).
  bind_simpl.
  rewrite (slice_ok attrs (i4 + 1) i6) by lia. bind_simpl.
  destruct (IH (i6 + 1) (acc ++ [{| AttrName := string_of_list_byte
                                      (TrimSpace (take (Z.to_nat (i2 - i1))
                                         (drop (Z.to_nat i1) attrs)));
                                    AttrValue := string_of_list_byte
                                      (take (Z.to_nat (i6 - (i4 + 1)))
                                         (drop (Z.to_nat (i4 + 1)) attrs)) |}]))
    as (r & Hr & Hlen); [lia..|].
  exists r. split; [exact Hr|].
  rewrite len_app in Hlen. change (len [_]) with 1 in Hlen.
  destruct (Hc2 E2) as (c & Hc & Hcond).
  apply notByte_false in Hcond. subst c.
  apply index_Ok_inv in Hc as [_ Hc].
  pose proof (countEq_drop_at attrs _ Hc) as Hat.
  pose proof (countEq_drop_le attrs (Z.to_nat i) (Z.to_nat i2) ltac:(lia)).
  pose proof (countEq_drop_le attrs (S (Z.to_nat i2)) (Z.to_nat (i6 + 1)) ltac:(lia)).
  lia.
Qed.

Lemma parseAttributes_ok (attrs : list byte) (old : list XMLAttribute) :
  ∃ r, parseAttributes TrimSpace attrs old = Ok r ∧
       len r ≤ Z.max (len old) (countEq attrs).
Proof.
  unfold parseAttributes. destruct (countEq attrs =? 0) eqn:E.
  - exists old. split; [reflexivity|]. lia.
  - destruct (parseAttributes_loop_ok (S (length attrs)) attrs 0 [])
      as (r & Hr & Hlen); [lia|unfold len; lia|].
    exists r. split; [exact Hr|].
    change (Z.to_nat 0) with 0%nat in Hlen. rewrite drop_0 in Hlen.
    change (len []) with 0 in Hlen. lia.
Qed.

End ScannerFacts.

(** ** Byte strings *)

Lemma HasPrefix_app (s t p : list byte) :
  HasPrefix s p = true → HasPrefix (s ++ t) p = true.
Proof.
  revert s. induction p as [|c p IH]; intros s H.
  - destruct (s ++ t); reflexivity.
  - destruct s as [|d s]; [discriminate|].
    cbn [HasPrefix app] in *.
    apply andb_prop in H as [H1 H2]. rewrite H1. cbn [andb]. auto.
Qed.

Lemma HasPrefix_self (p t : list byte) : HasPrefix (p ++ t) p = true.
Proof.
  induction p as [|c p IH]; cbn [HasPrefix app].
  - destruct t; reflexivity.
  - rewrite IH, (byte_dec_lb eq_refl). reflexivity.
Qed.

Lemma Contains_HasPrefix (s p : list byte) :
  HasPrefix s p = true → Contains s p = true.
Proof. intros H. destruct s; cbn [Contains]; rewrite H; reflexivity. Qed.

(** A slice that contains [sub] makes the whole contain it. *)
Lemma Contains_infix (l m r sub : list byte) :
  Contains m sub = true → Contains (l ++ m ++ r) sub = true.
Proof.
  intros H. induction l as [|c l IH]; cbn [app].
  - clear -H. induction m as [|d m IH]; cbn [Contains app] in *.
    + rewrite orb_false_r in H.
      apply Contains_HasPrefix, (HasPrefix_app [] r), H.
    + apply orb_prop in H as [H|H].
      * pose proof (HasPrefix_app (d :: m) r sub H) as Hp.
        cbn [app] in Hp. rewrite Hp. reflexivity.
      * rewrite (IH H). apply orb_true_r.
  - cbn [Contains]. rewrite IH. apply orb_true_r.
Qed.

Lemma take_drop_infix {A} (s : list A) (a n : nat) :
  ∃ l r, s = l ++ take n (drop a s) ++ r.
Proof.
  exists (take a s), (drop n (drop a s)).
  rewrite take_drop, take_drop. reflexivity.
Qed.

Lemma list_byte_of_string_app (s t : string) :
  list_byte_of_string (s ++ t) = list_byte_of_string s ++ list_byte_of_string t.
Proof.
  induction s as [|a s IH]; [reflexivity|].
  change (list_byte_of_string (String a s ++ t))
    with (Ascii.byte_of_ascii a :: list_byte_of_string (s ++ t)).
  rewrite IH. reflexivity.
Qed.

Lemma prefix_split (p s : string) :
  String.prefix p s = true → ∃ t, s = (p ++ t)%string.
Proof.
  revert s. induction p as [|a p IH]; intros s H.
  - exists s. reflexivity.
  - destruct s as [|b s]; [discriminate|]. cbn [String.prefix] in H.
    destruct (Ascii.ascii_dec a b) as [->|]; [|discriminate].
    destruct (IH s H) as [t ->]. exists t. reflexivity.
Qed.

Lemma isDeclName_xmlns (b : list byte) :
  isDeclName (string_of_list_byte b) = true → HasPrefix b xmlns = true.
Proof.
  unfold isDeclName. intros H. apply orb_prop in H as [H|H].
  - apply String.eqb_eq in H.
    apply (f_equal list_byte_of_string) in H.
    rewrite list_byte_of_string_of_list_byte in H. subst b. reflexivity.
  - apply prefix_split in H as [t H].
    apply (f_equal list_byte_of_string) in H.
    rewrite list_byte_of_string_of_list_byte, list_byte_of_string_app in H.
    subst b.
    change (list_byte_of_string "xmlns:") with (xmlns ++ [bColon]).
    rewrite <- app_assoc. apply HasPrefix_self.
Qed.

Lemma strFrom_prefix_ok (name : string) :
  String.prefix "xmlns:" name = true → ∃ r, strFrom name 6 = Ok r.
Proof.
  intros H. apply prefix_split in H as [t ->]. unfold strFrom.
  rewrite slice_ok; [bind_simpl; eauto|lia| |lia].
  rewrite list_byte_of_string_app, len_app.
  pose proof (len_nonneg (list_byte_of_string t)).
  change (len (list_byte_of_string "xmlns:")) with 6. lia.
Qed.

Section NamespaceFacts.

Variable TrimSpace : list byte → list byte.

(** The namespace loop returns, and the mapping changes only when a
    declaring name was read. *)
Lemma extractNamespaces_loop_ok (fuel : nat) (attrs : list byte) (i : Z)
      (ns : option (gmap string string)) :
  0 ≤ i → Z.max 0 (len attrs - i) < Z.of_nat fuel →
  ∃ r, extractNamespaces_loop TrimSpace fuel attrs i ns = Ok r ∧
       (r = ns ∨ declares TrimSpace attrs).
Proof.
  revert i ns. induction fuel as [|fuel IH]; intros i ns Hi Hf; [lia|].
  assert (Hstop : ∃ r, Ok ns = Ok r ∧ (r = ns ∨ declares TrimSpace attrs))
    by (exists ns; split; [reflexivity|left; reflexivity]).
  cbn [extractNamespaces_loop].
  destruct (i <? len attrs) eqn:E0; cbn [negb]; [|exact Hstop].
  apply Z.ltb_lt in E0.
  destruct (advanceWhile_ok isSpace4 attrs i Hi) as (i1 & -> & H1 & H1' & _).
  bind_simpl.
  destruct (len attrs <=? i1) eqn:E1; [exact Hstop|]. apply Z.leb_gt in E1.
  destruct (advanceWhile_ok (notByte bEq) attrs i1 ltac:(lia))
    as (i2 & -> & H2 & H2' & _).
  bind_simpl.
  destruct (len attrs <=? i2) eqn:E2; [exact Hstop|]. apply Z.leb_gt in E2.
  rewrite (slice_ok attrs i1 i2) by lia. bind_simpl.
  set (nameBytes := TrimSpace (take (Z.to_nat (i2 - i1)) (drop (Z.to_nat i1) attrs))).
  assert (Hnd : ∃ b : bool,
             (if len nameBytes <? 5 then Ok true
              else c ← index nameBytes 0;
                   Ok (negb (Byte.eqb c bLowerX) && negb (Byte.eqb c bUpperX)))
             = Ok b).
  { destruct (len nameBytes <? 5) eqn:E5; [eauto|]. apply Z.ltb_ge in E5.
    destruct (index_ok nameBytes 0 ltac:(lia)) as (c & -> & _).
    bind_simpl. eauto. }
  destruct Hnd as [notDecl ->]. bind_simpl.
  destruct (advanceWhile_ok isSpace2 attrs (i2 + 1) ltac:(lia))
    as (i4 & -> & H4 & H4' & _).
  destruct notDecl; bind_simpl.
  - assert (Hq : ∃ i5,
               (if i4 <? len attrs then
                  q ← index attrs i4;
                  if isQuote q then
                    i' ← advanceWhile (notByte q) attrs (i4 + 1); Ok (i' + 1)
                  else Ok i4
                else Ok i4) = Ok i5 ∧ i4 ≤ i5).
    { destruct (i4 <? len attrs) eqn:E4; [|exists i4; split; [reflexivity|lia]].
      apply Z.ltb_lt in E4.
      destruct (index_ok attrs i4 ltac:(lia)) as (q & -> & _). bind_simpl.
      destruct (isQuote q); [|exists i4; split; [reflexivity|lia]].
      destruct (advanceWhile_ok (notByte q) attrs (i4 + 1) ltac:(lia))
        as (i6 & -> & H6 & _).
      bind_simpl. exists (i6 + 1). split; [reflexivity|lia]. }
    destruct Hq as (i5 & -> & H5). bind_simpl.
    apply IH; lia.
  - destruct (len attrs <=? i4) eqn:E4; [exact Hstop|]. apply Z.leb_gt in E4.
    destruct (index_ok attrs i4 ltac:(lia)) as (quote & -> & _). bind_simpl.
    destruct (isQuote quote); cbn [negb]; [|exact Hstop].
    destruct (advanceWhile_ok (notByte quote) attrs (i4 + 1) ltac:(lia))
      as (i6 & -> & H6 & H6' & _).
    bind_simpl.
    rewrite (slice_ok attrs (i4 + 1) i6) by lia. bind_simpl.
    set (value := string_of_list_byte
                    (take (Z.to_nat (i6 - (i4 + 1))) (drop (Z.to_nat (i4 + 1)) attrs))).
    assert (Hev : isDeclName (string_of_list_byte nameBytes) = true → declares TrimSpace attrs).
    { intros Hd. exists i1, i2. repeat split; [lia..|exact Hd]. }
    unfold isDeclName in Hev.
    destruct (String.eqb (string_of_list_byte nameBytes) "xmlns") eqn:Ex.
    + bind_simpl.
      destruct (IH (i6 + 1) (nsStore ns EmptyString value)) as (r & Hr & _);
        [lia..|].
      exists r. split; [exact Hr|]. right. apply Hev. reflexivity.
    + destruct (String.prefix "xmlns:" (string_of_list_byte nameBytes)) eqn:Ep.
      * destruct (strFrom_prefix_ok _ Ep) as [pre ->]. bind_simpl.
        destruct (IH (i6 + 1) (nsStore ns pre value)) as (r & Hr & _); [lia..|].
        exists r. split; [exact Hr|]. right. apply Hev. reflexivity.
      * bind_simpl. apply IH; lia.
Qed.

Lemma extractNamespaces_ok (attrs : list byte) :
  ∃ r, extractNamespaces TrimSpace attrs = Ok r ∧ (r = None ∨ declares TrimSpace attrs).
Proof.
  unfold extractNamespaces. destruct (len attrs =? 0).
  - exists None. auto.
  - apply extractNamespaces_loop_ok; [lia|unfold len; lia].
Qed.

(** [bytes.TrimSpace] returns a sub-slice of its argument. *)
Hypothesis TrimSpace_subslice :
  ∀ s, ∃ l r, s = l ++ TrimSpace s ++ r.

Lemma declares_Contains (attrs : list byte) :
  declares TrimSpace attrs → Contains attrs xmlns = true.
Proof.
  intros (lo & hi & _ & _ & _ & Hd).
  apply isDeclName_xmlns, Contains_HasPrefix in Hd.
  destruct (TrimSpace_subslice (take (Z.to_nat (hi - lo)) (drop (Z.to_nat lo) attrs)))
    as (l & r & Hs).
  pose proof (Contains_infix l _ r xmlns Hd) as Hc. rewrite <- Hs in Hc.
  destruct (take_drop_infix attrs (Z.to_nat lo) (Z.to_nat (hi - lo)))
    as (l' & r' & Ha).
  rewrite Ha. apply Contains_infix. exact Hc.
Qed.

End NamespaceFacts.

(** ** Memory accessors *)

Lemma getElem_Ok (h : heap) (a : nat) (e : XMLElement) :
  getElem h a = Ok e ↔ elems h !! a = Some e.
Proof.
  unfold getElem. destruct (elems h !! a); split; intros H;
    try discriminate; congruence.
Qed.

Lemma getContent_Ok (h : heap) (a : nat) (c : XMLContentNode) :
  getContent h a = Ok c ↔ contents h !! a = Some c.
Proof.
  unfold getContent. destruct (contents h !! a); split; intros H;
    try discriminate; congruence.
Qed.

Lemma index_lookup {A} (s : list A) (i : Z) (x : A) :
  index s i = Ok x ↔ 0 ≤ i ∧ s !! Z.to_nat i = Some x.
Proof.
  split.
  - intros H. apply index_Ok_inv in H. intuition lia.
  - intros [H1 H2]. pose proof (lookup_lt_Some _ _ _ H2) as Hlt.
    destruct (index_ok s i) as (y & Hy & Hy'); [unfold len; lia|].
    congruence.
Qed.

Lemma allocated_elem (h : heap) (a : nat) :
  allocated h (ElemRef a) → ∃ e, getElem h a = Ok e.
Proof.
  cbn [allocated]. intros H. apply lookup_lt_is_Some in H as [e He].
  exists e. apply getElem_Ok, He.
Qed.

Lemma allocated_Parent (h : heap) (n : XMLNode) :
  allocated h n → ∃ par, Parent h n = Ok par.
Proof.
  destruct n as [a|a]; cbn [allocated Parent]; intros H;
    apply lookup_lt_is_Some in H as [x Hx].
  - apply getElem_Ok in Hx. rewrite Hx. bind_simpl. eauto.
  - apply getContent_Ok in Hx. rewrite Hx. bind_simpl. eauto.
Qed.

Lemma allocated_getSiblingIndex (h : heap) (n : XMLNode) :
  allocated h n → ∃ i, getSiblingIndex h n = Ok i.
Proof.
  destruct n as [a|a]; cbn [allocated getSiblingIndex]; intros H;
    apply lookup_lt_is_Some in H as [x Hx].
  - apply getElem_Ok in Hx. rewrite Hx. bind_simpl. eauto.
  - apply getContent_Ok in Hx. rewrite Hx. bind_simpl. eauto.
Qed.

(** ** The cursor *)

(** A move that reports failure has not touched the cursor. *)
Lemma failed_move_frame (m : Move) (h : heap) (nav nav' : elementNavigator) :
  runMove m h nav = Ok (false, nav') → nav' = nav.
Proof.
  destruct m; cbn [runMove];
    unfold MoveToParent, MoveToNextAttribute, MoveToChild, MoveToFirst,
           MoveToNext, MoveToPrevious;
    repeat (match goal with
            | |- context [match ?x with _ => _ end] =>
                lazymatch x with
                | context [match _ with _ => _ end] => fail
                | _ => destruct x eqn:?
                end
            | |- context [mbind _ ?x] => destruct x eqn:?
            end; bind_simpl);
    intros H; try discriminate; congruence.
Qed.

Lemma parents_ok_at (h : heap) (n : XMLNode) (p : nat) (idx : Z) :
  parents_ok h → Parent h n = Ok (Some p) → getSiblingIndex h n = Ok idx →
  ∃ pe, getElem h p = Ok pe ∧ elems h !! p = Some pe ∧
        0 ≤ idx < len (children pe) ∧
        children pe !! Z.to_nat idx = Some n.
Proof.
  intros Hp HP Hi. destruct (Hp n p HP) as (pe & idx' & Hpe & Hi' & Hc).
  assert (idx' = idx) by congruence. subst idx'.
  exists pe. apply index_Ok_inv in Hc as [Hr Hc].
  repeat split; [exact Hpe|apply getElem_Ok, Hpe|lia..|exact Hc].
Qed.

Lemma move_without_target (m : Move) (h : heap) (nav : elementNavigator) :
  parents_ok h → cursor_ok h nav →
  target m h nav = None →
  runMove m h nav = Ok (false, nav).
Proof.
  intros Htree (Hnode & Helem & Hattr) Hnone.
  destruct (allocated_Parent h _ Hnode) as [par Hpar].
  destruct (allocated_getSiblingIndex h _ Hnode) as [idx Hidx].
  destruct m; cbn [runMove target] in *.
  - (* parent *)
    unfold MoveToParent.
    destruct (negb (attributeIndex nav =? -1)); [discriminate|].
    rewrite Hpar in *. bind_simpl.
    destruct par; [discriminate|reflexivity].
  - (* next attribute *)
    unfold MoveToNextAttribute.
    destruct (currElement nav) as [e|] eqn:He; [|reflexivity].
    destruct (allocated_elem h e (Helem e eq_refl)) as [el Hel].
    rewrite Hel. bind_simpl.
    destruct (len (Attributes el) - 1 <=? attributeIndex nav) eqn:Hle;
      [reflexivity|].
    apply Z.leb_gt in Hle. exfalso.
    apply getElem_Ok in Hel. cbn in Hnone. rewrite Hel in Hnone. cbn in Hnone.
    destruct (lookup_lt_is_Some_2 (Attributes el)
                (Z.to_nat (attributeIndex nav + 1))) as [a Ha];
      [unfold len in Hle; lia|].
    rewrite Ha in Hnone. cbn in Hnone.
    destruct (0 <=? attributeIndex nav + 1) eqn:H0; [discriminate|].
    apply Z.leb_gt in H0. lia.
  - (* first child *)
    unfold MoveToChild.
    destruct (negb (attributeIndex nav =? -1)); [reflexivity|].
    destruct (currElement nav) as [e|] eqn:He; [|reflexivity].
    destruct (allocated_elem h e (Helem e eq_refl)) as [el Hel].
    rewrite Hel. bind_simpl.
    apply getElem_Ok in Hel. cbn in Hnone. rewrite Hel in Hnone. cbn in Hnone.
    destruct (children el) as [|c cs]; [reflexivity|discriminate].
  - (* first sibling *)
    unfold MoveToFirst.
    destruct (negb (attributeIndex nav =? -1)); [reflexivity|].
    rewrite Hpar, Hidx in *. bind_simpl.
    destruct par as [p|]; [|reflexivity].
    destruct (idx =? 0); [reflexivity|]. exfalso.
    destruct (parents_ok_at h _ p idx Htree Hpar Hidx) as (pe & _ & Hpe & Hr & Hc).
    rewrite Hpe in Hnone. cbn in Hnone.
    destruct (children pe); [|discriminate].
    change (len []) with 0 in Hr. lia.
  - (* next sibling *)
    unfold MoveToNext.
    destruct (negb (attributeIndex nav =? -1)); [reflexivity|].
    rewrite Hpar, Hidx in *. bind_simpl.
    destruct par as [p|]; [|reflexivity].
    destruct (parents_ok_at h _ p idx Htree Hpar Hidx) as (pe & Hg & Hpe & Hr & Hc).
    rewrite Hg. bind_simpl.
    destruct (len (children pe) <=? idx + 1) eqn:Hle; [reflexivity|].
    apply Z.leb_gt in Hle. exfalso.
    rewrite Hpe in Hnone. cbn in Hnone.
    destruct (lookup_lt_is_Some_2 (children pe) (Z.to_nat (idx + 1))) as [c' Hc'];
      [unfold len in Hle; lia|].
    rewrite Hc' in Hnone. cbn in Hnone.
    destruct (0 <=? idx + 1) eqn:H0; [discriminate|].
    apply Z.leb_gt in H0. lia.
  - (* previous sibling *)
    unfold MoveToPrevious.
    destruct (negb (attributeIndex nav =? -1)); [reflexivity|].
    rewrite Hpar, Hidx in *. bind_simpl.
    destruct par as [p|]; [|reflexivity].
    destruct (idx <=? 0) eqn:Hle; [reflexivity|].
    apply Z.leb_gt in Hle. exfalso.
    destruct (parents_ok_at h _ p idx Htree Hpar Hidx) as (pe & Hg & Hpe & Hr & Hc).
    rewrite Hpe in Hnone. cbn in Hnone.
    destruct (lookup_lt_is_Some_2 (children pe) (Z.to_nat (idx - 1))) as [c' Hc'];
      [unfold len in Hr; lia|].
    rewrite Hc' in Hnone. cbn in Hnone.
    destruct (0 <=? idx - 1) eqn:H0; [discriminate|].
    apply Z.leb_gt in H0. lia.
Qed.

(** C7 (movement without a target).  For each of the six movement
    operations of the cursor (to the parent, to the first, next or previous
    sibling, to the first child, to the next attribute), on a tree that
    satisfies the parent invariant and a cursor that points into it: if the
    move has no target, the operation returns [false] and the cursor
    (current node, current element, attribute index) is exactly what it
    was; and whenever the operation returns [false], the cursor is what it
    was. *)
Theorem move_without_target_fails_in_place
        (m : Move) (h : heap) (nav : elementNavigator) :
  parents_ok h → cursor_ok h nav →
  (target m h nav = None → runMove m h nav = Ok (false, nav)) ∧
  (∀ nav', runMove m h nav = Ok (false, nav') → nav' = nav).
Proof.
  intros Htree Hcur. split.
  - apply move_without_target; assumption.
  - intros nav'. apply failed_move_frame.
Qed.

(** A move that reports success has gone to the target. *)
Lemma successful_move_reaches_target
      (m : Move) (h : heap) (nav nav' : elementNavigator) :
  -1 ≤ attributeIndex nav →
  runMove m h nav = Ok (true, nav') →
  target m h nav = Some (currNode nav', attributeIndex nav').
Proof.
  intros Hattr. destruct m; cbn [runMove target].
  - unfold MoveToParent.
    destruct (negb (attributeIndex nav =? -1)); [intros [= <-]; reflexivity|].
    destruct (Parent h (currNode nav)) as [[p|]| |]; bind_simpl;
      intros [= <-]; reflexivity.
  - unfold MoveToNextAttribute.
    destruct (currElement nav) as [e|]; [|discriminate]. cbn.
    destruct (getElem h e) as [el| |] eqn:Hel; bind_simpl; [|discriminate..].
    apply getElem_Ok in Hel. rewrite Hel. cbn.
    destruct (len (Attributes el) - 1 <=? attributeIndex nav) eqn:Hle;
      [discriminate|].
    apply Z.leb_gt in Hle. intros [= <-]. cbn.
    destruct (Attributes el !! Z.to_nat (attributeIndex nav + 1)) eqn:Ha; cbn.
    + destruct (0 <=? attributeIndex nav + 1) eqn:H0; [reflexivity|].
      apply Z.leb_gt in H0. lia.
    + apply lookup_ge_None in Ha. unfold len in Hle. lia.
  - unfold MoveToChild.
    destruct (attributeIndex nav =? -1) eqn:Hat; cbn [negb]; [|discriminate].
    apply Z.eqb_eq in Hat.
    destruct (currElement nav) as [e|]; [|discriminate]. cbn.
    destruct (getElem h e) as [el| |] eqn:Hel; bind_simpl; [|discriminate..].
    apply getElem_Ok in Hel. rewrite Hel. cbn.
    destruct (children el) as [|c cs]; [discriminate|].
    cbn. intros [= <-]. cbn. rewrite Hat. reflexivity.
  - unfold MoveToFirst.
    destruct (attributeIndex nav =? -1) eqn:Hat; cbn [negb]; [|discriminate].
    apply Z.eqb_eq in Hat.
    destruct (Parent h (currNode nav)) as [[p|]| |]; bind_simpl; [|discriminate..].
    destruct (getSiblingIndex h (currNode nav)) as [idx| |]; bind_simpl;
      [|discriminate..].
    destruct (idx =? 0); [discriminate|].
    destruct (getElem h p) as [pe| |] eqn:Hpe; bind_simpl; [|discriminate..].
    apply getElem_Ok in Hpe. rewrite Hpe. cbn.
    destruct (children pe) as [|c cs]; [discriminate|].
    cbn. intros [= <-]. cbn. rewrite Hat. reflexivity.
  - unfold MoveToNext.
    destruct (attributeIndex nav =? -1) eqn:Hat; cbn [negb]; [|discriminate].
    apply Z.eqb_eq in Hat.
    destruct (Parent h (currNode nav)) as [[p|]| |]; bind_simpl; [|discriminate..].
    destruct (getSiblingIndex h (currNode nav)) as [idx| |]; bind_simpl;
      [|discriminate..].
    destruct (getElem h p) as [pe| |] eqn:Hpe; bind_simpl; [|discriminate..].
    apply getElem_Ok in Hpe. rewrite Hpe. cbn.
    destruct (len (children pe) <=? idx + 1); [discriminate|].
    destruct (index (children pe) (idx + 1)) as [c| |] eqn:Hc; bind_simpl;
      [|discriminate..].
    apply index_lookup in Hc as [H0 Hc]. rewrite Hc. cbn.
    apply Z.leb_le in H0. rewrite H0. intros [= <-]. cbn. rewrite Hat. reflexivity.
  - unfold MoveToPrevious.
    destruct (attributeIndex nav =? -1) eqn:Hat; cbn [negb]; [|discriminate].
    apply Z.eqb_eq in Hat.
    destruct (Parent h (currNode nav)) as [[p|]| |]; bind_simpl; [|discriminate..].
    destruct (getSiblingIndex h (currNode nav)) as [idx| |]; bind_simpl;
      [|discriminate..].
    destruct (idx <=? 0); [discriminate|].
    destruct (getElem h p) as [pe| |] eqn:Hpe; bind_simpl; [|discriminate..].
    apply getElem_Ok in Hpe. rewrite Hpe. cbn.
    destruct (index (children pe) (idx - 1)) as [c| |] eqn:Hc; bind_simpl;
      [|discriminate..].
    apply index_lookup in Hc as [H0 Hc]. rewrite Hc. cbn.
    apply Z.leb_le in H0. rewrite H0. intros [= <-]. cbn. rewrite Hat. reflexivity.
Qed.

(** C9 (MoveToFirst).  On a tree that satisfies the parent invariant and a
    cursor that points into it, [MoveToFirst] returns; it returns [true]
    exactly when the cursor is not on an attribute, the current node has a
    non-nil parent and its sibling index is not zero; when it returns
    [false] the cursor is unchanged; so a cursor already on the first child
    of its parent gets [false] and stays where it is. *)
Theorem MoveToFirst_succeeds_iff (h : heap) (nav : elementNavigator) :
  parents_ok h → cursor_ok h nav →
  ∃ b nav',
    MoveToFirst h nav = Ok (b, nav') ∧
    (b = true ↔
       attributeIndex nav = -1 ∧
       (∃ p, Parent h (currNode nav) = Ok (Some p)) ∧
       (∃ idx, getSiblingIndex h (currNode nav) = Ok idx ∧ idx ≠ 0)) ∧
    (b = false → nav' = nav) ∧
    (getSiblingIndex h (currNode nav) = Ok 0 →
     MoveToFirst h nav = Ok (false, nav)).
Proof.
  intros Htree (Hnode & Helem & Hattr).
  destruct (allocated_Parent h _ Hnode) as [par Hpar].
  destruct (allocated_getSiblingIndex h _ Hnode) as [idx Hidx].
  unfold MoveToFirst.
  destruct (attributeIndex nav =? -1) eqn:Hat; cbn [negb].
  - apply Z.eqb_eq in Hat. rewrite Hpar, Hidx. bind_simpl.
    destruct par as [p|].
    + destruct (idx =? 0) eqn:Hz.
      * apply Z.eqb_eq in Hz. subst idx. exists false, nav.
        split; [reflexivity|]. split; [|split; [reflexivity|reflexivity]].
        split; [discriminate|]. intros (_ & _ & i & [= <-] & Hi). lia.
      * apply Z.eqb_neq in Hz.
        destruct (parents_ok_at h _ p idx Htree Hpar Hidx)
          as (pe & Hg & Hpe & Hr & Hc).
        rewrite Hg. bind_simpl.
        replace (0 <? len (children pe)) with true
          by (symmetry; apply Z.ltb_lt; lia).
        destruct (index_ok (children pe) 0 ltac:(lia)) as (c & -> & _).
        bind_simpl. exists true, (moveTo nav c).
        split; [reflexivity|]. split; [|split; [discriminate|]].
        -- split; [|reflexivity]. intros _. eauto 6.
        -- intros [= ->]. lia.
    + exists false, nav. split; [reflexivity|].
      split; [|split; [reflexivity|reflexivity]].
      split; [discriminate|]. intros (_ & (p & Hp) & _). discriminate.
  - apply Z.eqb_neq in Hat. exists false, nav. split; [reflexivity|].
    split; [|split; [reflexivity|reflexivity]].
    split; [discriminate|]. intros (Hat' & _). contradiction.
Qed.

(** ** Stream *)

Lemma Stream_again (p : Parser) (rt : runtime) :
  once p = true → Stream p rt = (ch p, p, rt).
Proof. unfold Stream. intros ->. reflexivity. Qed.

Lemma StreamTimes_started (n : nat) (p : Parser) (rt : runtime) :
  once p = true → StreamTimes n p rt = (repeat (ch p) n, p, rt).
Proof.
  intros Hp. induction n as [|n IH]; [reflexivity|].
  cbn [StreamTimes repeat]. rewrite (Stream_again p rt Hp), IH. reflexivity.
Qed.

(** C6 (Stream is idempotent).  A parser made by [NewParser] has started no
    parse task and holds no channel.  After any number [n+1] of calls of
    [Stream] on it, every call has returned the handle of the first call,
    one channel has been made, and exactly one parse task has been started,
    writing to that channel. *)
Theorem Stream_idempotent (names : list string) (size : Z) (n : nat) :
  let p := NewParser names size in
  tasks boot = [] ∧ ch p = None ∧ once p = false ∧
  ∃ c p' rt',
    StreamTimes (S n) p boot = (repeat (Some c) (S n), p', rt') ∧
    ch p' = Some c ∧
    channels rt' = 1%nat ∧
    tasks rt' = [c].
Proof.
  cbn zeta. repeat split.
  exists 0%nat. eexists _, _.
  cbn [StreamTimes]. unfold Stream at 1. cbn [NewParser once].
  rewrite StreamTimes_started by reflexivity.
  cbn [ch repeat]. repeat split.
Qed.

(** ** Memory between two moments *)

Lemma evolves_refl (h : heap) : evolves h h.
Proof.
  split; [|auto]. intros a e He. exists e. repeat split; auto.
Qed.

Lemma evolves_trans (h1 h2 h3 : heap) :
  evolves h1 h2 → evolves h2 h3 → evolves h1 h3.
Proof.
  intros [E1 C1] [E2 C2]. split; [|auto].
  intros a e He.
  destruct (E1 a e He) as (e2 & He2 & Hn2 & Hs2 & Hp2 & Hc2).
  destruct (E2 a e2 He2) as (e3 & He3 & Hn3 & Hs3 & Hp3 & Hc3).
  exists e3. repeat split; [exact He3|congruence|congruence| |].
  - destruct Hp3 as [Hp3|Hp3]; [|right; exact Hp3].
    destruct Hp2 as [Hp2|Hp2]; [left|right]; congruence.
  - etrans; eassumption.
Qed.

Lemma evolves_allocated (h h' : heap) (n : XMLNode) :
  evolves h h' → allocated h n → allocated h' n.
Proof.
  intros [E C]. destruct n as [a|a]; cbn [allocated]; intros H;
    apply lookup_lt_is_Some in H as [x Hx].
  - destruct (E a x Hx) as (e' & He' & _). eapply lookup_lt_Some, He'.
  - eapply lookup_lt_Some, C, Hx.
Qed.

Lemma Parent_allocated (h : heap) (n : XMLNode) (x : option nat) :
  Parent h n = Ok x → allocated h n.
Proof.
  destruct n as [a|a]; cbn [Parent allocated].
  - destruct (getElem h a) as [e| |] eqn:He; [|discriminate..].
    intros _. apply getElem_Ok in He. eapply lookup_lt_Some, He.
  - destruct (getContent h a) as [c| |] eqn:Hc; [|discriminate..].
    intros _. apply getContent_Ok in Hc. eapply lookup_lt_Some, Hc.
Qed.

Lemma getSiblingIndex_frame (h h' : heap) (n : XMLNode) (i : Z) :
  evolves h h' → getSiblingIndex h n = Ok i → getSiblingIndex h' n = Ok i.
Proof.
  intros [E C]. destruct n as [a|a]; cbn [getSiblingIndex].
  - destruct (getElem h a) as [e| |] eqn:He; [|discriminate..]. bind_simpl.
    intros [= <-]. apply getElem_Ok in He.
    destruct (E a e He) as (e' & He' & _ & Hs & _).
    apply getElem_Ok in He'. rewrite He'. bind_simpl. congruence.
  - destruct (getContent h a) as [c| |] eqn:Hc; [|discriminate..]. bind_simpl.
    intros [= <-]. apply getContent_Ok in Hc.
    apply C, getContent_Ok in Hc. rewrite Hc. reflexivity.
Qed.

Lemma Parent_back (h h' : heap) (n : XMLNode) (p : nat) :
  evolves h h' → allocated h n →
  Parent h' n = Ok (Some p) → Parent h n = Ok (Some p).
Proof.
  intros [E C]. destruct n as [a|a]; cbn [Parent allocated]; intros Ha;
    apply lookup_lt_is_Some in Ha as [x Hx].
  - destruct (E a x Hx) as (e' & He' & _ & _ & Hp & _).
    apply getElem_Ok in He'. rewrite He'. bind_simpl. intros [= Hpar].
    apply getElem_Ok in Hx. rewrite Hx. bind_simpl.
    destruct Hp; congruence.
  - pose proof (C a x Hx) as Hx'.
    apply getContent_Ok in Hx'. rewrite Hx'. bind_simpl. intros [= Hpar].
    apply getContent_Ok in Hx. rewrite Hx. bind_simpl. congruence.
Qed.

Lemma index_prefix {A} (s t : list A) (i : Z) (x : A) :
  s `prefix_of` t → index s i = Ok x → index t i = Ok x.
Proof.
  intros [r ->] H. apply index_lookup in H as [H0 H].
  apply index_lookup. split; [exact H0|].
  apply lookup_app_l_Some. exact H.
Qed.

(** A node that was there before and has a parent now is still listed by
    that parent at its sibling index. *)
Lemma parents_ok_frame (h h' : heap) (n : XMLNode) (p : nat) :
  parents_ok h → evolves h h' → allocated h n →
  Parent h' n = Ok (Some p) →
  ∃ pe idx, getElem h' p = Ok pe ∧ getSiblingIndex h' n = Ok idx ∧
            index (children pe) idx = Ok n.
Proof.
  intros Hp Hev Ha HP.
  pose proof (Parent_back h h' n p Hev Ha HP) as HP0.
  destruct (Hp n p HP0) as (pe & idx & Hpe & Hi & Hc).
  apply getElem_Ok in Hpe. destruct Hev as [E C].
  destruct (E p pe Hpe) as (pe' & Hpe' & _ & _ & _ & Hpre).
  exists pe', idx. split; [apply getElem_Ok, Hpe'|].
  split; [eapply getSiblingIndex_frame; [split; eassumption|exact Hi]|].
  eapply index_prefix; eassumption.
Qed.

Lemma detached_frame (h h' : heap) (a : nat) :
  evolves h h' → detached h a → detached h' a.
Proof.
  intros [E _]. unfold detached. cbn [Parent].
  destruct (getElem h a) as [e| |] eqn:He; [|discriminate..]. bind_simpl.
  intros [= Hpar]. apply getElem_Ok in He.
  destruct (E a e He) as (e' & He' & _ & _ & Hp & _).
  apply getElem_Ok in He'. rewrite He'. bind_simpl.
  destruct Hp; congruence.
Qed.

Lemma streamed_frame (p : Parser) (h h' : heap) (a : nat) :
  evolves h h' → allocated h (ElemRef a) → streamed p h' a = streamed p h a.
Proof.
  intros [E _] Ha. cbn [allocated] in Ha.
  apply lookup_lt_is_Some in Ha as [e He].
  destruct (E a e He) as (e' & He' & Hn & _).
  unfold streamed. apply getElem_Ok in He, He'. rewrite He, He', Hn.
  reflexivity.
Qed.

(** ** The three ways the assembler changes memory *)

(** Appending one new node [new], as the last child of [top] if there is a
    [top], keeps both tree invariants. *)
Lemma tree_ok_new_node (h h' : heap) (top : option nat) (new : XMLNode) :
  evolves h h' →
  ¬ allocated h new →
  (∀ n, allocated h' n → allocated h n ∨ n = new) →
  (∀ p e', elems h' !! p = Some e' →
     (∃ e, elems h !! p = Some e ∧
           ((Some p ≠ top ∧ children e' = children e) ∨
            (Some p = top ∧ children e' = children e ++ [new]))) ∨
     (ElemRef p = new ∧ children e' = [])) →
  (∀ p, top = Some p →
     ∃ pe, elems h !! p = Some pe ∧ Parent h' new = Ok (Some p) ∧
           getSiblingIndex h' new = Ok (len (children pe))) →
  (top = None → Parent h' new = Ok None) →
  siblings_ok h → parents_ok h →
  siblings_ok h' ∧ parents_ok h'.
Proof.
  intros Hev Hfresh Hall Hch Htop Hroot Hs Hp. split.
  - intros p e' i c He' Hi. apply getElem_Ok in He'.
    destruct (Hch p e' He') as [(e & He & [[_ Hc]|[Hpt Hc]])|[_ Hc]];
      rewrite Hc in Hi.
    + eapply getSiblingIndex_frame; [exact Hev|].
      apply (Hs p e); [apply getElem_Ok, He|exact Hi].
    + apply index_lookup in Hi as [H0 Hi].
      apply lookup_app_Some in Hi as [Hi|[Hge Hi]].
      * eapply getSiblingIndex_frame; [exact Hev|].
        apply (Hs p e); [apply getElem_Ok, He|apply index_lookup; auto].
      * apply list_lookup_singleton_Some in Hi as [Hz <-].
        destruct (Htop p (eq_sym Hpt)) as (pe & Hpe & _ & Hi').
        assert (pe = e) by congruence. subst pe.
        rewrite Hi'. f_equal. unfold len. lia.
    + apply index_Ok_inv in Hi as [Hr _]. change (len []) with 0 in Hr. lia.
  - intros n p HP.
    destruct (Hall n (Parent_allocated _ _ _ HP)) as [Hold| ->].
    + eapply parents_ok_frame; eassumption.
    + destruct top as [t|]; [|rewrite (Hroot eq_refl) in HP; discriminate].
      destruct (Htop t eq_refl) as (pe & Hpe & HP' & Hi').
      assert (p = t) by congruence. subst t.
      destruct Hev as [E C].
      destruct (E p pe Hpe) as (e' & He' & _).
      exists e', (len (children pe)).
      split; [apply getElem_Ok, He'|]. split; [exact Hi'|].
      destruct (Hch p e' He') as [(e & He & [[Hne _]|[_ Hc]])|[Hnew _]].
      * congruence.
      * assert (e = pe) by congruence. subst e. rewrite Hc.
        apply index_lookup. split; [apply len_nonneg|].
        unfold len. rewrite Nat2Z.id, lookup_app_r by lia.
        rewrite Nat.sub_diag. reflexivity.
      * exfalso. apply Hfresh. rewrite <- Hnew. cbn [allocated].
        eapply lookup_lt_Some, Hpe.
Qed.

Lemma appendContentNode_ok (h : heap) (top : nat) (bytes : list byte)
      (kind : NodeType) :
  allocated h (ElemRef top) →
  ∃ h', appendContentNode h top bytes kind = Ok h' ∧
        evolves h h' ∧
        length (elems h') = length (elems h) ∧
        (siblings_ok h → parents_ok h → siblings_ok h' ∧ parents_ok h').
Proof.
  intros Ha. destruct (allocated_elem h top Ha) as [pe Hpe].
  unfold appendContentNode. rewrite Hpe. bind_simpl.
  eexists. split; [reflexivity|].
  apply getElem_Ok in Hpe. cbn [allocated] in Ha.
  set (new := length (contents h)).
  set (node := {| start := len (rawContent pe);
                  end_ := len (rawContent pe ++ bytes);
                  nodeType := kind; cparent := Some top;
                  csiblingIndex := len (children pe) |}).
  set (pe' := appendChild (appendRaw pe bytes) (ContentRef new)).
  set (h' := {| elems := <[top := pe']> (elems h);
                contents := contents h ++ [node] |}).
  assert (Hev : evolves h h').
  { split; cbn [h' elems contents].
    - intros x e He. destruct (decide (x = top)) as [->|Hne].
      + rewrite list_lookup_insert_eq by exact Ha.
        assert (e = pe) by congruence. subst e.
        exists pe'. repeat split; auto. apply prefix_app_r. reflexivity.
      + rewrite list_lookup_insert_ne by congruence.
        exists e. repeat split; auto.
    - intros x c Hc. apply lookup_app_l_Some. exact Hc. }
  split; [exact Hev|]. split; [apply length_insert|].
  apply (tree_ok_new_node h h' (Some top) (ContentRef new)); [exact Hev|..].
  - cbn [allocated]. unfold new. lia.
  - intros [x|x]; cbn [allocated h' elems contents].
    + rewrite length_insert. auto.
    + rewrite length_app. cbn [length]. intros Hx.
      destruct (decide (x = new)) as [->|Hne]; [auto|left; unfold new in *; lia].
  - intros p e' He'. left. cbn [h' elems] in He'.
    apply list_lookup_insert_Some in He' as [(<- & <- & _)|(Hne & He')].
    + exists pe. split; [exact Hpe|]. right. split; reflexivity.
    + exists e'. split; [exact He'|]. left. split; [congruence|reflexivity].
  - intros p [= <-]. exists pe. split; [exact Hpe|].
    cbn [Parent getSiblingIndex]. unfold getContent. cbn [h' contents].
    rewrite lookup_app_r by (unfold new; lia).
    unfold new. rewrite Nat.sub_diag. cbn. split; reflexivity.
  - discriminate.
Qed.

Lemma linkToParent_ok (h : heap) (stk : list nat) (fresh : XMLElement) :
  Forall (λ a, allocated h (ElemRef a)) stk →
  children fresh = [] → parent fresh = None →
  ∃ h', linkToParent h stk fresh = Ok h' ∧
        evolves h h' ∧
        length (elems h') = S (length (elems h)) ∧
        (∃ e, elems h' !! length (elems h) = Some e ∧ Name e = Name fresh) ∧
        (siblings_ok h → parents_ok h → siblings_ok h' ∧ parents_ok h').
Proof.
  intros Hstk Hnil Hnone. unfold linkToParent.
  set (new := length (elems h)).
  destruct stk as [|top stk].
  - eexists. split; [reflexivity|].
    set (h' := {| elems := elems h ++ [fresh]; contents := contents h |}).
    assert (Hev : evolves h h').
    { split; cbn [h' elems contents]; [|auto].
      intros x e He. exists e. split; [apply lookup_app_l_Some, He|].
      repeat split; auto. }
    split; [exact Hev|].
    split; [cbn [h' elems]; rewrite length_app; cbn [length]; lia|].
    split.
    { exists fresh. split; [|reflexivity]. cbn [h' elems].
      rewrite lookup_app_r by (unfold new; lia).
      unfold new. rewrite Nat.sub_diag. reflexivity. }
    apply (tree_ok_new_node h h' None (ElemRef new)); [exact Hev|..].
    + cbn [allocated]. unfold new. lia.
    + intros [x|x]; cbn [allocated h' elems contents]; [|auto].
      rewrite length_app. cbn [length]. intros Hx.
      destruct (decide (x = new)) as [->|Hne]; [auto|left; unfold new in *; lia].
    + intros p e' He'. cbn [h' elems] in He'.
      apply lookup_app_Some in He' as [He'|[Hge He']].
      * left. exists e'. split; [exact He'|]. left. split; [discriminate|reflexivity].
      * right. apply list_lookup_singleton_Some in He' as [Hz <-].
        split; [f_equal; unfold new; lia|exact Hnil].
    + discriminate.
    + intros _. cbn [Parent]. unfold getElem. cbn [h' elems].
      rewrite lookup_app_r by (unfold new; lia).
      unfold new. rewrite Nat.sub_diag. cbn. rewrite Hnone. reflexivity.
  - apply Forall_cons in Hstk as [Ha _].
    destruct (allocated_elem h top Ha) as [pe Hpe].
    rewrite Hpe. bind_simpl. eexists. split; [reflexivity|].
    apply getElem_Ok in Hpe. cbn [allocated] in Ha.
    set (pe' := appendChild pe (ElemRef new)).
    set (linked := withLink fresh top (len (children pe))).
    set (h' := {| elems := <[top := pe']> (elems h) ++ [linked];
                  contents := contents h |}).
    assert (Hev : evolves h h').
    { split; cbn [h' elems contents]; [|auto].
      intros x e He. destruct (decide (x = top)) as [->|Hne].
      - assert (e = pe) by congruence. subst e. exists pe'.
        split; [apply lookup_app_l_Some, list_lookup_insert_eq, Ha|].
        repeat split; auto. apply prefix_app_r. reflexivity.
      - exists e. split.
        + apply lookup_app_l_Some. rewrite list_lookup_insert_ne by congruence.
          exact He.
        + repeat split; auto. }
    assert (Hnew : elems h' !! new = Some linked).
    { cbn [h' elems]. rewrite lookup_app_r by (rewrite length_insert; unfold new; lia).
      rewrite length_insert. unfold new. rewrite Nat.sub_diag. reflexivity. }
    split; [exact Hev|].
    split; [cbn [h' elems]; rewrite length_app, length_insert; cbn [length]; lia|].
    split; [exists linked; split; [exact Hnew|reflexivity]|].
    apply (tree_ok_new_node h h' (Some top) (ElemRef new)); [exact Hev|..].
    + cbn [allocated]. unfold new. lia.
    + intros [x|x]; cbn [allocated h' elems contents]; [|auto].
      rewrite length_app, length_insert. cbn [length]. intros Hx.
      destruct (decide (x = new)) as [->|Hne]; [auto|left; unfold new in *; lia].
    + intros p e' He'. cbn [h' elems] in He'.
      apply lookup_app_Some in He' as [He'|[Hge He']].
      * left.
        apply list_lookup_insert_Some in He' as [(<- & <- & _)|(Hne & He')].
        -- exists pe. split; [exact Hpe|]. right. split; reflexivity.
        -- exists e'. split; [exact He'|]. left. split; [congruence|reflexivity].
      * right. rewrite length_insert in Hge, He'.
        apply list_lookup_singleton_Some in He' as [Hz <-].
        split; [f_equal; unfold new; lia|exact Hnil].
    + intros p [= <-]. exists pe. split; [exact Hpe|].
      cbn [Parent getSiblingIndex]. unfold getElem. rewrite Hnew.
      bind_simpl. split; reflexivity.
    + discriminate.
Qed.

Lemma checkAndStreamElement_ok (p : Parser) (h : heap) (out : list nat)
      (elem : nat) :
  allocated h (ElemRef elem) →
  ∃ h', checkAndStreamElement p h out elem
        = Ok (h', out ++ List.filter (streamed p h') [elem]) ∧
        evolves h h' ∧
        length (elems h') = length (elems h) ∧
        (streamed p h' elem = true → detached h' elem) ∧
        (siblings_ok h → parents_ok h → siblings_ok h' ∧ parents_ok h').
Proof.
  intros Ha. destruct (allocated_elem h elem Ha) as [el Hel].
  unfold checkAndStreamElement. rewrite Hel. bind_simpl.
  apply getElem_Ok in Hel. cbn [allocated] in Ha.
  destruct (shouldStream p (Name el)) eqn:Hshould.
  - set (h' := setElem h elem (withParent el None)).
    assert (Hget : elems h' !! elem = Some (withParent el None))
      by (apply list_lookup_insert_eq, Ha).
    assert (Hstr : streamed p h' elem = true).
    { unfold streamed. apply getElem_Ok in Hget. rewrite Hget. exact Hshould. }
    exists h'. cbn [List.filter]. rewrite Hstr.
    split; [reflexivity|].
    assert (Hev : evolves h h').
    { split; cbn [h' setElem elems contents]; [|auto].
      intros x e He. destruct (decide (x = elem)) as [->|Hne].
      - assert (e = el) by congruence. subst e.
        exists (withParent el None). split; [exact Hget|].
        repeat split; auto.
      - exists e. rewrite list_lookup_insert_ne by congruence.
        repeat split; auto. }
    split; [exact Hev|]. split; [apply length_insert|].
    split.
    { intros _. unfold detached. cbn [Parent].
      apply getElem_Ok in Hget. rewrite Hget. reflexivity. }
    intros Hs Hp. split.
    + intros q e' i c He' Hi. apply getElem_Ok in He'.
      eapply getSiblingIndex_frame; [exact Hev|].
      cbn [h' setElem elems] in He'.
      apply list_lookup_insert_Some in He' as [(<- & <- & _)|(Hne & He')].
      * apply (Hs elem el); [apply getElem_Ok, Hel|exact Hi].
      * apply (Hs q e'); [apply getElem_Ok, He'|exact Hi].
    + intros n q HP. eapply parents_ok_frame; [exact Hp|exact Hev| |exact HP].
      apply Parent_allocated in HP.
      destruct n as [x|x]; cbn [allocated h' setElem elems contents] in *;
        [rewrite length_insert in HP|]; exact HP.
  - exists h.
    assert (Hstr : streamed p h elem = false).
    { unfold streamed. apply getElem_Ok in Hel. rewrite Hel. exact Hshould. }
    cbn [List.filter]. rewrite Hstr, app_nil_r.
    split; [reflexivity|]. split; [apply evolves_refl|].
    split; [reflexivity|]. split; [congruence|auto].
Qed.

(** ** One event *)

Lemma IndexByte_from_range (s : list byte) (c : byte) (i : Z) :
  IndexByte_from s c i = -1 ∨
  (i ≤ IndexByte_from s c i ∧ IndexByte_from s c i < i + len s) ∨ i < 0.
Proof.
  revert i. induction s as [|d s IH]; intros i; cbn [IndexByte_from].
  - left. reflexivity.
  - destruct (Byte.eqb d c).
    + right. left. unfold len. cbn [length]. lia.
    + destruct (IH (i + 1)) as [H|[H|H]]; [left; exact H| |].
      * right. left. unfold len in *. cbn [length]. lia.
      * destruct (Z_lt_dec i 0); [right; right; lia|].
        right. left. assert (i = -1) by lia. lia.
Qed.

Lemma splitName_ok (nameStr : string) : ∃ r, splitName nameStr = Ok r.
Proof.
  unfold splitName, IndexByte, strTo, strFrom.
  set (b := list_byte_of_string nameStr).
  destruct (IndexByte_from_range b bColon 0) as [H|[H|H]]; [| |lia].
  - rewrite H. cbn. eauto.
  - destruct (IndexByte_from b bColon 0 =? -1) eqn:E; cbn [negb]; [eauto|].
    rewrite slice_ok by lia. bind_simpl.
    rewrite slice_ok by lia. bind_simpl. eauto.
Qed.

Lemma isSelfClosing_spec (fullTag : list byte) :
  isSelfClosing fullTag = Ok (isSelfClosingTag fullTag).
Proof.
  unfold isSelfClosing, isSelfClosingTag.
  destruct (rev fullTag) as [|b [|a r]] eqn:Hrev;
    apply (f_equal (@rev byte)) in Hrev; rewrite rev_involutive in Hrev;
    subst fullTag; cbn [rev app]; try reflexivity.
  rewrite <- app_assoc. cbn [app].
  assert (Hlen : len (rev r ++ [a; b]) = len (rev r) + 2)
    by (rewrite len_app; reflexivity).
  pose proof (len_nonneg (rev r)) as Hnn.
  replace (2 <=? len (rev r ++ [a; b])) with true
    by (symmetry; apply Z.leb_le; lia).
  assert (Ha : index (rev r ++ [a; b]) (len (rev r ++ [a; b]) - 2) = Ok a).
  { apply index_lookup. split; [lia|].
    rewrite lookup_app_r by (unfold len in *; lia).
    replace (Z.to_nat (len (rev r ++ [a; b]) - 2) - length (rev r))%nat
      with 0%nat by (unfold len in *; lia).
    reflexivity. }
  assert (Hb : index (rev r ++ [a; b]) (len (rev r ++ [a; b]) - 1) = Ok b).
  { apply index_lookup. split; [lia|].
    rewrite lookup_app_r by (unfold len in *; lia).
    replace (Z.to_nat (len (rev r ++ [a; b]) - 1) - length (rev r))%nat
      with 1%nat by (unfold len in *; lia).
    reflexivity. }
  rewrite Ha. bind_simpl. destruct (Byte.eqb a bSlash); [|reflexivity].
  rewrite Hb. reflexivity.
Qed.

Lemma Forall_allocated_evolves (h h' : heap) (l : list nat) :
  evolves h h' →
  Forall (λ a, allocated h (ElemRef a)) l →
  Forall (λ a, allocated h' (ElemRef a)) l.
Proof.
  intros Hev Hl. eapply Forall_impl; [exact Hl|].
  intros a Ha. eapply evolves_allocated; eassumption.
Qed.

Lemma Forall_detached_evolves (h h' : heap) (l : list nat) :
  evolves h h' → Forall (detached h) l → Forall (detached h') l.
Proof.
  intros Hev Hl. eapply Forall_impl; [exact Hl|].
  intros a Ha. eapply detached_frame; eassumption.
Qed.

Lemma Forall_detached_filter (p : Parser) (h : heap) (a : nat) :
  (streamed p h a = true → detached h a) →
  Forall (detached h) (List.filter (streamed p h) [a]).
Proof.
  intros H. cbn [List.filter]. destruct (streamed p h a); [|constructor].
  constructor; [auto|constructor].
Qed.

Section Steps.

Variable TrimSpace : list byte → list byte.

Lemma elementNamespacesOf_ok (attrs : list byte) :
  ∃ r, elementNamespacesOf TrimSpace attrs = Ok r.
Proof.
  unfold elementNamespacesOf.
  destruct ((0 <? len attrs) && Contains attrs xmlns); [|eauto].
  destruct (extractNamespaces_ok TrimSpace attrs) as (r & Hr & _). eauto.
Qed.

(** A start event: the new element takes the next address; a
    self-closing tag closes it at once, any other tag opens it. *)
Lemma handleStartElement_ok (p : Parser) (w : machine)
      (name attrs fullTag : list byte)
      (elementNamespaces : option (gmap string string)) :
  Inv w →
  ∃ w' cl,
    handleStartElement TrimSpace p w name attrs fullTag elementNamespaces = Ok w' ∧
    Inv w' ∧ evolves (hp w) (hp w') ∧
    Forall (λ a, allocated (hp w') (ElemRef a)) cl ∧
    sent w' = sent w ++ List.filter (streamed p (hp w')) cl ∧
    length (elems (hp w')) = S (length (elems (hp w))) ∧
    (if isSelfClosingTag fullTag
     then cl = [length (elems (hp w))] ∧ stack (st w') = stack (st w)
     else cl = [] ∧ stack (st w') = length (elems (hp w)) :: stack (st w)).
Proof.
  intros (Hstk & Hs & Hp & Hd). unfold handleStartElement.
  destruct (splitName_ok (string_of_list_byte name)) as [[pre localN] ->].
  bind_simpl.
  assert (Hns : ∃ pns,
             match stack (st w) with
             | top :: _ => pe ← getElem (hp w) top; Ok (namespaces pe)
             | [] => Ok None
             end = Ok pns).
  { destruct (stack (st w)) as [|top stk]; [eauto|].
    apply Forall_cons in Hstk as [Ha _].
    destruct (allocated_elem _ _ Ha) as [pe ->]. bind_simpl. eauto. }
  destruct Hns as [pns ->]. bind_simpl.
  assert (Hat : ∃ attributes,
             (if 0 <? len attrs then parseAttributes TrimSpace attrs []
              else Ok []) = Ok attributes).
  { destruct (0 <? len attrs); [|eauto].
    destruct (parseAttributes_ok TrimSpace attrs []) as (r & -> & _). eauto. }
  destruct Hat as [attributes ->]. bind_simpl.
  match goal with
  | |- context [linkToParent _ _ ?f] => set (fresh := f)
  end.
  destruct (linkToParent_ok (hp w) (stack (st w)) fresh Hstk eq_refl eq_refl)
    as (h1 & -> & Hev1 & Hlen1 & _ & Htree1).
  bind_simpl. rewrite isSelfClosing_spec. bind_simpl.
  set (new := length (elems (hp w))) in *.
  destruct (Htree1 Hs Hp) as [Hs1 Hp1].
  assert (Hnew1 : allocated h1 (ElemRef new))
    by (cbn [allocated]; rewrite Hlen1; unfold new; lia).
  destruct (isSelfClosingTag fullTag).
  - destruct (checkAndStreamElement_ok p h1 (sent w) new Hnew1)
      as (h2 & -> & Hev2 & Hlen2 & Hdet & Htree2).
    bind_simpl. destruct (Htree2 Hs1 Hp1) as [Hs2 Hp2].
    pose proof (evolves_trans _ _ _ Hev1 Hev2) as Hev.
    eexists _, [new]. split; [reflexivity|]. cbn [hp st sent].
    split; [|split; [exact Hev|split; [|split; [reflexivity|split; [|split; reflexivity]]]]].
    + split; [exact (Forall_allocated_evolves _ _ _ Hev Hstk)|].
      split; [exact Hs2|]. split; [exact Hp2|].
      cbn [hp sent]. apply Forall_app. split.
      * exact (Forall_detached_evolves _ _ _ Hev Hd).
      * apply Forall_detached_filter, Hdet.
    + constructor; [|constructor]. exact (evolves_allocated _ _ _ Hev2 Hnew1).
    + rewrite Hlen2, Hlen1. reflexivity.
  - eexists _, []. split; [reflexivity|]. cbn [hp st sent stack].
    split; [|split; [exact Hev1|split; [constructor|split; [|split; [exact Hlen1|split; reflexivity]]]]].
    + split; [|split; [exact Hs1|split; [exact Hp1|]]].
      * cbn [hp st stack]. constructor; [exact Hnew1|].
        exact (Forall_allocated_evolves _ _ _ Hev1 Hstk).
      * cbn [hp sent]. exact (Forall_detached_evolves _ _ _ Hev1 Hd).
    + symmetry. apply app_nil_r.
Qed.

Lemma content_step (w : machine) (top : nat) (stk : list nat)
      (bytes : list byte) (kind : NodeType) :
  Inv w → stack (st w) = top :: stk →
  ∃ h', appendContentNode (hp w) top bytes kind = Ok h' ∧
        Inv (withHeap w h') ∧ evolves (hp w) h' ∧
        length (elems h') = length (elems (hp w)).
Proof.
  intros (Hstk & Hs & Hp & Hd) Htop.
  assert (Ha : allocated (hp w) (ElemRef top))
    by (rewrite Htop in Hstk; apply Forall_cons in Hstk as [Ha _]; exact Ha).
  destruct (appendContentNode_ok (hp w) top bytes kind Ha)
    as (h' & Hh' & Hev & Hlen & Htree).
  destruct (Htree Hs Hp) as [Hs' Hp'].
  exists h'. split; [exact Hh'|]. split; [|split; [exact Hev|exact Hlen]].
  split; [exact (Forall_allocated_evolves _ _ _ Hev Hstk)|].
  split; [exact Hs'|]. split; [exact Hp'|].
  exact (Forall_detached_evolves _ _ _ Hev Hd).
Qed.

(** One iteration of the loop: it returns, keeps the invariant, and sends
    exactly those of the elements the event closes that pass the test. *)
Lemma handleEvent_ok (p : Parser) (w : machine) (e : Event) :
  Inv w → e ≠ EventEOF →
  ∃ w' cl,
    handleEvent TrimSpace p w e = Ok w' ∧ Inv w' ∧ evolves (hp w) (hp w') ∧
    Forall (λ a, allocated (hp w') (ElemRef a)) cl ∧
    sent w' = sent w ++ List.filter (streamed p (hp w')) cl ∧
    ∀ rest, closedFrom (e :: rest) (length (elems (hp w))) (stack (st w))
            = cl ++ closedFrom rest (length (elems (hp w'))) (stack (st w')).
Proof.
  intros HInv Hne.
  assert (Hnop : (∀ rest, closedFrom (e :: rest) (length (elems (hp w))) (stack (st w))
                          = closedFrom rest (length (elems (hp w))) (stack (st w))) →
                 ∃ w' cl,
                   Ok w = Ok w' ∧ Inv w' ∧ evolves (hp w) (hp w') ∧
                   Forall (λ a, allocated (hp w') (ElemRef a)) cl ∧
                   sent w' = sent w ++ List.filter (streamed p (hp w')) cl ∧
                   ∀ rest, closedFrom (e :: rest) (length (elems (hp w))) (stack (st w))
                           = cl ++ closedFrom rest (length (elems (hp w'))) (stack (st w'))).
  { intros Hc. exists w, []. split; [reflexivity|]. split; [exact HInv|].
    split; [apply evolves_refl|]. split; [constructor|].
    split; [symmetry; apply app_nil_r|exact Hc]. }
  assert (Hcontent : ∀ top stk bytes kind,
             stack (st w) = top :: stk →
             (∀ rest, closedFrom (e :: rest) (length (elems (hp w))) (stack (st w))
                      = closedFrom rest (length (elems (hp w))) (stack (st w))) →
             ∃ w' cl,
               (h ← appendContentNode (hp w) top bytes kind; Ok (withHeap w h))
               = Ok w' ∧ Inv w' ∧ evolves (hp w) (hp w') ∧
               Forall (λ a, allocated (hp w') (ElemRef a)) cl ∧
               sent w' = sent w ++ List.filter (streamed p (hp w')) cl ∧
               ∀ rest, closedFrom (e :: rest) (length (elems (hp w))) (stack (st w))
                       = cl ++ closedFrom rest (length (elems (hp w'))) (stack (st w'))).
  { intros top stk bytes kind Htop Hc.
    destruct (content_step w top stk bytes kind HInv Htop)
      as (h' & -> & HInv' & Hev & Hlen).
    bind_simpl. exists (withHeap w h'), [].
    split; [reflexivity|]. split; [exact HInv'|]. split; [exact Hev|].
    split; [constructor|]. split; [symmetry; apply app_nil_r|].
    intros rest. cbn [withHeap hp st app]. rewrite Hlen. apply Hc. }
  destruct e as [name attrs fullTag| |bytes|bytes|bytes| |bytes];
    cbn [handleEvent]; [| | | | |congruence|].
  - destruct (elementNamespacesOf_ok attrs) as [ens ->]. bind_simpl.
    destruct (handleStartElement_ok p w name attrs fullTag ens HInv)
      as (w' & cl & Hw' & HInv' & Hev & Hcl & Hsent & Hlen & Hsc).
    exists w', cl. split; [exact Hw'|]. split; [exact HInv'|].
    split; [exact Hev|]. split; [exact Hcl|]. split; [exact Hsent|].
    intros rest. cbn [closedFrom]. rewrite Hlen.
    destruct (isSelfClosingTag fullTag); destruct Hsc as [-> ->]; reflexivity.
  - unfold handleEndElement.
    destruct (stack (st w)) as [|elem stk] eqn:Hstack.
    + apply Hnop. reflexivity.
    + destruct HInv as (Hstk & Hs & Hp & Hd).
      rewrite Hstack in Hstk. apply Forall_cons in Hstk as [Ha Hstk].
      destruct (checkAndStreamElement_ok p (hp w) (sent w) elem Ha)
        as (h' & -> & Hev & Hlen & Hdet & Htree).
      bind_simpl. destruct (Htree Hs Hp) as [Hs' Hp'].
      eexists _, [elem]. split; [reflexivity|]. cbn [hp st sent stack].
      split; [|split; [exact Hev|split; [|split; [reflexivity|]]]].
      * split; [exact (Forall_allocated_evolves _ _ _ Hev Hstk)|].
        split; [exact Hs'|]. split; [exact Hp'|].
        cbn [hp sent]. apply Forall_app. split.
        -- exact (Forall_detached_evolves _ _ _ Hev Hd).
        -- apply Forall_detached_filter, Hdet.
      * constructor; [|constructor]. exact (evolves_allocated _ _ _ Hev Ha).
      * intros rest. cbn [closedFrom app]. rewrite Hlen. reflexivity.
  - destruct (stack (st w)) as [|top stk] eqn:Hstack.
    + apply Hnop. reflexivity.
    + destruct (0 <? len bytes).
      * eapply Hcontent; reflexivity.
      * apply Hnop. reflexivity.
  - destruct (stack (st w)) as [|top stk] eqn:Hstack.
    + apply Hnop. reflexivity.
    + destruct (12 <? len bytes) eqn:Hlen.
      * apply Z.ltb_lt in Hlen. rewrite slice_ok by lia. bind_simpl.
        destruct (0 <? len _).
        -- eapply Hcontent; reflexivity.
        -- apply Hnop. reflexivity.
      * apply Hnop. reflexivity.
  - destruct (stack (st w)) as [|top stk] eqn:Hstack.
    + apply Hnop. reflexivity.
    + destruct (7 <? len bytes) eqn:Hlen.
      * apply Z.ltb_lt in Hlen. rewrite slice_ok by lia. bind_simpl.
        eapply Hcontent; reflexivity.
      * apply Hnop. reflexivity.
  - apply Hnop. reflexivity.
Qed.

(** The loop of [parse] from any state that satisfies the invariant. *)
Lemma parse_loop_ok (p : Parser) (events : list Event) (w : machine) :
  Inv w →
  ∃ w',
    parse_loop TrimSpace p events w = Ok w' ∧ Inv w' ∧
    evolves (hp w) (hp w') ∧
    sent w' = sent w ++
              List.filter (streamed p (hp w'))
                (closedFrom events (length (elems (hp w))) (stack (st w))).
Proof.
  revert w. induction events as [|e events IH]; intros w HInv.
  - exists w. split; [reflexivity|]. split; [exact HInv|].
    split; [apply evolves_refl|]. symmetry. apply app_nil_r.
  - assert (Hstep : e ≠ EventEOF →
              ∃ w', (w1 ← handleEvent TrimSpace p w e;
                     parse_loop TrimSpace p events w1) = Ok w' ∧ Inv w' ∧
                    evolves (hp w) (hp w') ∧
                    sent w' = sent w ++
                      List.filter (streamed p (hp w'))
                        (closedFrom (e :: events) (length (elems (hp w)))
                           (stack (st w)))).
    { intros Hne.
      destruct (handleEvent_ok p w e HInv Hne)
        as (w1 & cl & -> & HInv1 & Hev1 & Hcl & Hsent1 & Hclosed).
      bind_simpl.
      destruct (IH w1 HInv1) as (w' & Hw' & HInv' & Hev' & Hsent').
      exists w'. split; [exact Hw'|]. split; [exact HInv'|].
      split; [exact (evolves_trans _ _ _ Hev1 Hev')|].
      rewrite Hsent', Hsent1, Hclosed, List.filter_app, app_assoc.
      f_equal. f_equal. apply List.filter_ext_in.
      intros a Ha. symmetry. apply streamed_frame; [exact Hev'|].
      rewrite Forall_forall in Hcl. apply Hcl, list_elem_of_In, Ha. }
    destruct e; try (apply Hstep; discriminate).
    exists w. split; [reflexivity|]. split; [exact HInv|].
    split; [apply evolves_refl|]. symmetry. apply app_nil_r.
Qed.

Lemma Inv_initial : Inv initial.
Proof.
  split; [constructor|]. split; [|split; [|constructor]].
  - intros p e i c He. discriminate.
  - intros [a|a] p H; discriminate.
Qed.

Lemma parse_ok (p : Parser) (events : list Event) :
  ∃ w,
    parse TrimSpace p events = Ok w ∧ Inv w ∧
    sent w = List.filter (streamed p (hp w)) (closed events).
Proof.
  destruct (parse_loop_ok p events initial Inv_initial)
    as (w & Hw & HInv & _ & Hsent).
  exists w. split; [exact Hw|]. split; [exact HInv|exact Hsent].
Qed.

End Steps.

(** ** The target set *)

Lemma streamNames_lookup (names : list string) (m : gmap string bool)
      (name : string) :
  foldl (λ m name, <[name := true]> m) m names !! name
  = if bool_decide (name ∈ names) then Some true else m !! name.
Proof.
  revert m. induction names as [|n names IH]; intros m; cbn [foldl].
  - rewrite bool_decide_eq_false_2 by (apply not_elem_of_nil). reflexivity.
  - rewrite IH. destruct (bool_decide (name ∈ names)) eqn:E.
    + apply bool_decide_eq_true in E.
      rewrite bool_decide_eq_true_2 by (apply elem_of_cons; auto). reflexivity.
    + apply bool_decide_eq_false in E.
      destruct (decide (name = n)) as [->|Hne].
      * rewrite bool_decide_eq_true_2 by (apply elem_of_cons; auto).
        apply lookup_insert_eq.
      * rewrite bool_decide_eq_false_2
          by (intros [?|?]%elem_of_cons; contradiction).
        apply lookup_insert_ne. congruence.
Qed.

(** The test of [checkAndStreamElement] is membership in the configured
    names. *)
Lemma shouldStream_NewParser (names : list string) (buf : Z) (name : string) :
  shouldStream (NewParser names buf) name = bool_decide (name ∈ names).
Proof.
  unfold shouldStream, NewParser. cbn [streamNames].
  destruct names as [|n names].
  - cbn. rewrite bool_decide_eq_false_2 by (apply not_elem_of_nil). reflexivity.
  - replace (0 <? len (n :: names)) with true
      by (symmetry; apply Z.ltb_lt; unfold len; cbn [length]; lia).
    set (m := foldl _ _ _).
    assert (Hn : m !! n = Some true).
    { unfold m. rewrite streamNames_lookup.
      rewrite bool_decide_eq_true_2 by (apply elem_of_cons; auto). reflexivity. }
    assert (Hsize : (0 <? Z.of_nat (size m)) = true).
    { apply Z.ltb_lt. destruct (size m) eqn:Hz; [|lia].
      apply map_size_empty_iff in Hz. rewrite Hz, lookup_empty in Hn.
      discriminate. }
    rewrite Hsize. cbn [andb]. unfold m. rewrite streamNames_lookup.
    destruct (bool_decide (name ∈ n :: names)); reflexivity.
Qed.

Lemma streamed_NewParser (names : list string) (buf : Z) (h : heap) (a : nat) :
  streamed (NewParser names buf) h a = named names h a.
Proof.
  unfold streamed, named. destruct (getElem h a); [|reflexivity..].
  apply shouldStream_NewParser.
Qed.

(** ** The assembler as a whole *)

(** C2 (emission).  For every event sequence and every configured list of
    names, the parse returns and the sequence of elements sent on the
    output channel is, in order, exactly the closed elements whose
    qualified name is one of the configured names; with no configured name
    nothing is sent; and for the names [item] and the document
    [<root><item>1</item><other>x</other><item>2</item></root>] two
    elements are sent, the one with text 1 before the one with text 2. *)
Theorem sent_is_closed_targets_in_order
        (TrimSpace : list byte → list byte)
        (names : list string) (buf : Z) (events : list Event) :
  (∃ w, parse TrimSpace (NewParser names buf) events = Ok w ∧
        sent w = List.filter (named names (hp w)) (closed events) ∧
        (names = [] → sent w = [])) ∧
  (∀ fuel, ∃ w, parse TrimSpace (NewParser ["item"%string] buf) docItems = Ok w ∧
                map (InnerText fuel (hp w)) (sent w)
                = [Ok "1"%string; Ok "2"%string]).
Proof.
  split.
  - destruct (parse_ok TrimSpace (NewParser names buf) events)
      as (w & Hw & _ & Hsent).
    exists w. split; [exact Hw|].
    assert (Hf : sent w = List.filter (named names (hp w)) (closed events)).
    { rewrite Hsent. apply List.filter_ext. intros a.
      apply streamed_NewParser. }
    split; [exact Hf|]. intros ->. rewrite Hf.
    clear. induction (closed events) as [|a l IH]; [reflexivity|].
    cbn [List.filter]. unfold named at 1.
    destruct (getElem (hp w) a); [|exact IH..].
    rewrite bool_decide_eq_false_2 by (apply not_elem_of_nil). exact IH.
  - intros fuel.
    destruct (parse_ok TrimSpace (NewParser ["item"%string] buf) docItems)
      as (w & Hw & _ & _).
    exists w. split; [exact Hw|].
    revert Hw. unfold parse, NewParser. cbn [len length Z.of_nat].
    destruct (buf <=? 0); vm_compute; intros [= <-]; reflexivity.
Qed.

(** C3 (emitted elements are detached).  For every event sequence, hence
    at every moment of a parse, every element that has been sent on the
    output channel has a nil parent pointer. *)
Theorem sent_elements_are_detached
        (TrimSpace : list byte → list byte) (p : Parser) (events : list Event) :
  ∃ w, parse TrimSpace p events = Ok w ∧ Forall (detached (hp w)) (sent w).
Proof.
  destruct (parse_ok TrimSpace p events) as (w & Hw & (_ & _ & _ & Hd) & _).
  exists w. split; [exact Hw|exact Hd].
Qed.

(** C8 (malformed input is absorbed).  An end tag with nothing open leaves
    the whole state as it is; the attribute scanner returns on every byte
    string, without a panic, and stores no more attributes than the input
    has [=] bytes; the namespace scanner returns on every byte string; and
    the parse of every event sequence returns. *)
Theorem malformed_input_never_panics (TrimSpace : list byte → list byte) :
  (∀ p h d out,
     handleEndElement p {| hp := h; st := {| stack := []; depth := d |};
                           sent := out |}
     = Ok {| hp := h; st := {| stack := []; depth := d |}; sent := out |}) ∧
  (∀ attrs, ∃ attributes,
     parseAttributes TrimSpace attrs [] = Ok attributes ∧
     len attributes ≤ countEq attrs) ∧
  (∀ attrs, ∃ namespaces, extractNamespaces TrimSpace attrs = Ok namespaces) ∧
  (∀ p events, ∃ w, parse TrimSpace p events = Ok w).
Proof.
  split; [reflexivity|]. split; [|split].
  - intros attrs.
    destruct (parseAttributes_ok TrimSpace attrs []) as (r & Hr & Hlen).
    exists r. split; [exact Hr|].
    pose proof (countEq_nonneg attrs). change (len []) with 0 in Hlen. lia.
  - intros attrs.
    destruct (extractNamespaces_ok TrimSpace attrs) as (r & Hr & _). eauto.
  - intros p events.
    destruct (parse_ok TrimSpace p events) as (w & Hw & _). eauto.
Qed.

(** C5 (the xmlns short-circuit).  With [bytes.TrimSpace] returning a
    sub-slice of its argument: on every attribute byte string, extracting
    namespaces only when the bytes contain [xmlns] gives the same result
    as always extracting; attribute bytes without [xmlns] yield no
    namespace mapping. *)
Theorem guarded_extraction_equals_extraction
        (TrimSpace : list byte → list byte)
        (TrimSpace_subslice : ∀ s, ∃ l r, s = l ++ TrimSpace s ++ r)
        (attrs : list byte) :
  elementNamespacesOf TrimSpace attrs = extractNamespaces TrimSpace attrs ∧
  (Contains attrs xmlns = false → extractNamespaces TrimSpace attrs = Ok None).
Proof.
  assert (Hnone : Contains attrs xmlns = false →
                  extractNamespaces TrimSpace attrs = Ok None).
  { intros Hc.
    destruct (extractNamespaces_ok TrimSpace attrs) as (r & Hr & [->|Hd]);
      [exact Hr|].
    apply (declares_Contains TrimSpace TrimSpace_subslice) in Hd. congruence. }
  split; [|exact Hnone].
  unfold elementNamespacesOf.
  destruct (0 <? len attrs) eqn:Hlen; cbn [andb].
  - destruct (Contains attrs xmlns) eqn:Hc; [reflexivity|].
    symmetry. apply Hnone. reflexivity.
  - apply Z.ltb_ge in Hlen. pose proof (len_nonneg attrs).
    unfold extractNamespaces.
    replace (len attrs =? 0) with true by (symmetry; apply Z.eqb_eq; lia).
    reflexivity.
Qed.

(** C1 (inner text and comments).  On the element emitted for
    [<item><!--c-->text</item>], whose children are the comment node [c]
    and the text node [text], [InnerText] returns [ctext]: the fast path
    returns the raw content buffer, which holds the bytes of comments
    too. *)
Theorem InnerText_returns_comment_bytes
        (TrimSpace : list byte → list byte) (fuel : nat) :
  ∃ w, parse TrimSpace (NewParser ["item"%string] 0) docComment = Ok w ∧
       sent w = [1%nat] ∧
       (children <$> elems (hp w) !! 1%nat) = Some [ContentRef 0; ContentRef 1] ∧
       (nodeType <$> contents (hp w)) = [CommentNode; TextNode] ∧
       ContentInnerText (hp w) 0 = Ok "c"%string ∧
       ContentInnerText (hp w) 1 = Ok "text"%string ∧
       InnerText fuel (hp w) 1 = Ok "ctext"%string.
Proof.
  eexists. split; [vm_compute; reflexivity|].
  repeat split; reflexivity.
Qed.

(** The slow path of [InnerText] leaves comments out: with an element
    child next to the same comment and text, the result is [text]. *)
Lemma InnerText_slow_path_skips_comments
      (TrimSpace : list byte → list byte) (fuel : nat) :
  ∃ w, parse TrimSpace (NewParser ["item"%string] 0) docCommentAndChild = Ok w ∧
       sent w = [1%nat] ∧
       InnerText (S (S fuel)) (hp w) 1 = Ok "text"%string.
Proof.
  eexists. split; [vm_compute; reflexivity|].
  split; reflexivity.
Qed.

(** ** Instances *)

Lemma trimLeft_suffix (s : list byte) : ∃ l, s = l ++ trimLeft s.
Proof.
  induction s as [|c s [l IH]]; [exists []; reflexivity|].
  cbn [trimLeft]. destruct (asciiSpace c).
  - exists (c :: l). cbn [app]. f_equal. exact IH.
  - exists []. reflexivity.
Qed.

Lemma asciiTrimSpace_subslice (s : list byte) :
  ∃ l r, s = l ++ asciiTrimSpace s ++ r.
Proof.
  unfold asciiTrimSpace.
  destruct (trimLeft_suffix s) as [l Hl].
  destruct (trimLeft_suffix (rev (trimLeft s))) as [r Hr].
  exists l, (rev r). rewrite <- rev_app_distr, <- Hr, rev_involutive.
  exact Hl.
Qed.

Lemma guarded_extraction_witness :
  elementNamespacesOf asciiTrimSpace (bytesOf "id='7' lang='en'")
  = extractNamespaces asciiTrimSpace (bytesOf "id='7' lang='en'") ∧
  (Contains (bytesOf "id='7' lang='en'") xmlns = false →
   extractNamespaces asciiTrimSpace (bytesOf "id='7' lang='en'") = Ok None).
Proof.
  apply (guarded_extraction_equals_extraction asciiTrimSpace
           asciiTrimSpace_subslice).
Defined.

Lemma heapTwo_parents_ok : parents_ok heapTwo.
Proof.
  intros n p H. destruct n as [[|[|a]]|a]; cbn in H; try discriminate.
  injection H as <-.
  exists (plainElement "root" [ElemRef 1] None 0), 0.
  repeat split; reflexivity.
Qed.

Lemma navOnItem_cursor_ok : cursor_ok heapTwo navOnItem.
Proof.
  split; [cbn; lia|]. split; [|cbn; lia].
  intros e [= <-]. cbn. lia.
Qed.

Lemma move_without_target_witness :
  parents_ok heapTwo ∧ cursor_ok heapTwo navOnItem ∧
  (target ToNext heapTwo navOnItem = None →
   runMove ToNext heapTwo navOnItem = Ok (false, navOnItem)) ∧
  (∀ nav', runMove ToNext heapTwo navOnItem = Ok (false, nav') →
           nav' = navOnItem).
Proof.
  split; [exact heapTwo_parents_ok|].
  split; [exact navOnItem_cursor_ok|].
  apply (move_without_target_fails_in_place ToNext heapTwo navOnItem
           heapTwo_parents_ok navOnItem_cursor_ok).
Defined.

Lemma MoveToFirst_witness :
  parents_ok heapTwo ∧ cursor_ok heapTwo navOnItem ∧
  ∃ b nav',
    MoveToFirst heapTwo navOnItem = Ok (b, nav') ∧
    (b = true ↔
       attributeIndex navOnItem = -1 ∧
       (∃ p, Parent heapTwo (currNode navOnItem) = Ok (Some p)) ∧
       (∃ idx, getSiblingIndex heapTwo (currNode navOnItem) = Ok idx ∧ idx ≠ 0)) ∧
    (b = false → nav' = navOnItem) ∧
    (getSiblingIndex heapTwo (currNode navOnItem) = Ok 0 →
     MoveToFirst heapTwo navOnItem = Ok (false, navOnItem)).
Proof.
  split; [exact heapTwo_parents_ok|].
  split; [exact navOnItem_cursor_ok|].
  apply (MoveToFirst_succeeds_iff heapTwo navOnItem
           heapTwo_parents_ok navOnItem_cursor_ok).
Defined.

(** ** One event, by its effect *)

Lemma slice_len {A} (s : list A) (lo hi : Z) (r : list A) :
  slice s lo hi = Ok r → len r = hi - lo.
Proof.
  unfold slice.
  destruct ((0 <=? lo) && (lo <=? hi) && (hi <=? len s)) eqn:E; [|discriminate].
  apply andb_prop in E as [E E3]. apply andb_prop in E as [E1 E2].
  apply Z.leb_le in E1, E2, E3. intros [= <-].
  unfold len in *. rewrite length_take, length_drop. lia.
Qed.

Section Effects.

Variable TrimSpace : list byte → list byte.

Lemma handleStartElement_effect (p : Parser) (w w' : machine)
      (name attrs fullTag : list byte)
      (elementNamespaces : option (gmap string string)) :
  handleStartElement TrimSpace p w name attrs fullTag elementNamespaces = Ok w' →
  effect p w w'.
Proof.
  unfold handleStartElement.
  destruct (splitName (string_of_list_byte name)) as [[pre localN]| |] eqn:Hsplit;
    bind_simpl; [|discriminate..].
  assert (Hpns : ∀ r,
            match stack (st w) with
            | top :: _ => pe ← getElem (hp w) top; Ok (namespaces pe)
            | [] => Ok None
            end = Ok r → r = parentScope (hp w) (stack (st w))).
  { intros r. unfold parentScope, getElem.
    destruct (stack (st w)) as [|top stk]; [congruence|].
    destruct (elems (hp w) !! top); bind_simpl; [congruence|discriminate]. }
  destruct (match stack (st w) with
            | top :: _ => pe ← getElem (hp w) top; Ok (namespaces pe)
            | [] => Ok None
            end) as [pns| |]; bind_simpl; [|discriminate..].
  specialize (Hpns pns eq_refl). subst pns.
  destruct (if 0 <? len attrs then parseAttributes TrimSpace attrs [] else Ok [])
    as [attributes| |]; bind_simpl; [|discriminate..].
  match goal with
  | |- context [linkToParent _ _ ?f] => set (fresh := f)
  end.
  assert (Hborn : born (hp w) (stack (st w)) fresh).
  { split; [exact Hsplit|]. split; [exists elementNamespaces|]; reflexivity. }
  destruct (linkToParent (hp w) (stack (st w)) fresh) as [h1| |] eqn:Hlink;
    bind_simpl; [|discriminate..].
  rewrite isSelfClosing_spec. bind_simpl.
  destruct (isSelfClosingTag fullTag).
  - destruct (checkAndStreamElement p h1 (sent w) (length (elems (hp w))))
      as [[h2 out']| |] eqn:Hcheck; bind_simpl; [|discriminate..].
    intros [= <-]. eapply (eff_selfclose p w fresh); eauto.
  - intros [= <-]. eapply (eff_open p w fresh); eauto.
Qed.

Lemma handleEvent_effect (p : Parser) (w w' : machine) (e : Event) :
  handleEvent TrimSpace p w e = Ok w' → effect p w w'.
Proof.
  assert (Hnone : Ok w = Ok w' → effect p w w')
    by (intros [= <-]; constructor).
  destruct e as [name attrs fullTag| |bytes|bytes|bytes| |bytes];
    cbn [handleEvent]; try exact Hnone.
  - destruct (elementNamespacesOf TrimSpace attrs) as [ens| |]; bind_simpl;
      [|discriminate..].
    apply handleStartElement_effect.
  - unfold handleEndElement.
    destruct (stack (st w)) as [|elem stk] eqn:Hstack; [exact Hnone|].
    destruct (checkAndStreamElement p (hp w) (sent w) elem)
      as [[h' out']| |] eqn:Hcheck; bind_simpl; [|discriminate..].
    intros [= <-]. eapply eff_close; eauto.
  - destruct (stack (st w)) as [|top stk] eqn:Hstack; [exact Hnone|].
    destruct (0 <? len bytes) eqn:Hlen; [|exact Hnone].
    apply Z.ltb_lt in Hlen.
    destruct (appendContentNode (hp w) top bytes TextNode) as [h'| |] eqn:Ha;
      bind_simpl; [|discriminate..].
    intros [= <-]. eapply eff_content; eauto.
  - destruct (stack (st w)) as [|top stk] eqn:Hstack; [exact Hnone|].
    destruct (12 <? len bytes); [|exact Hnone].
    destruct (slice bytes 9 (len bytes - 3)) as [content| |]; bind_simpl;
      [|discriminate..].
    destruct (0 <? len content) eqn:Hlen; [|exact Hnone].
    apply Z.ltb_lt in Hlen.
    destruct (appendContentNode (hp w) top content TextNode) as [h'| |] eqn:Ha;
      bind_simpl; [|discriminate..].
    intros [= <-]. eapply eff_content; eauto.
  - destruct (stack (st w)) as [|top stk] eqn:Hstack; [exact Hnone|].
    destruct (7 <? len bytes) eqn:H7; [|exact Hnone].
    apply Z.ltb_lt in H7.
    destruct (slice bytes 4 (len bytes - 3)) as [content| |] eqn:Hs; bind_simpl;
      [|discriminate..].
    apply slice_len in Hs.
    destruct (appendContentNode (hp w) top content CommentNode) as [h'| |] eqn:Ha;
      bind_simpl; [|discriminate..].
    intros [= <-]. eapply eff_content; eauto. lia.
Qed.

End Effects.

(** ** The cells of the memory after each primitive *)

Lemma appendContentNode_cells (h : heap) (top : nat) (bytes : list byte)
      (kind : NodeType) (h' : heap) :
  appendContentNode h top bytes kind = Ok h' →
  ∃ pe,
    elems h !! top = Some pe ∧
    contents h' = contents h ++
      [{| start := len (rawContent pe); end_ := len (rawContent pe ++ bytes);
          nodeType := kind; cparent := Some top;
          csiblingIndex := len (children pe) |}] ∧
    length (elems h') = length (elems h) ∧
    ∀ q e', elems h' !! q = Some e' →
      ∃ e, elems h !! q = Some e ∧
           ((q ≠ top ∧ e' = e) ∨
            (q = top ∧
             e' = appendChild (appendRaw e bytes) (ContentRef (length (contents h))))).
Proof.
  unfold appendContentNode.
  destruct (getElem h top) as [pe| |] eqn:Hpe; bind_simpl; [|discriminate..].
  apply getElem_Ok in Hpe. intros [= <-]. exists pe.
  split; [exact Hpe|]. split; [reflexivity|]. split; [apply length_insert|].
  intros q e' He'. cbn [elems] in He'.
  apply list_lookup_insert_Some in He' as [(<- & <- & _)|(Hne & He')].
  - exists pe. split; [exact Hpe|]. right. split; reflexivity.
  - exists e'. split; [exact He'|]. left. split; [congruence|reflexivity].
Qed.

Lemma linkToParent_cells (h : heap) (stk : list nat) (fresh : XMLElement)
      (h' : heap) :
  linkToParent h stk fresh = Ok h' →
  contents h' = contents h ∧
  length (elems h') = S (length (elems h)) ∧
  ∀ q e', elems h' !! q = Some e' →
    (q = length (elems h) ∧
     ((stk = [] ∧ e' = fresh) ∨
      (∃ top pe, head stk = Some top ∧ elems h !! top = Some pe ∧
                 e' = withLink fresh top (len (children pe))))) ∨
    (∃ e, elems h !! q = Some e ∧
          ((head stk ≠ Some q ∧ e' = e) ∨
           (head stk = Some q ∧
            e' = appendChild e (ElemRef (length (elems h)))))).
Proof.
  unfold linkToParent. destruct stk as [|top stk].
  - intros [= <-]. split; [reflexivity|]. cbn [elems].
    split; [rewrite length_app; cbn [length]; lia|].
    intros q e' He'. apply lookup_app_Some in He' as [He'|[Hge He']].
    + right. exists e'. split; [exact He'|]. left. split; [discriminate|reflexivity].
    + left. apply list_lookup_singleton_Some in He' as [Hz <-].
      split; [lia|]. left. split; reflexivity.
  - destruct (getElem h top) as [pe| |] eqn:Hpe; bind_simpl; [|discriminate..].
    apply getElem_Ok in Hpe. intros [= <-]. split; [reflexivity|]. cbn [elems].
    split; [rewrite length_app, length_insert; cbn [length]; lia|].
    intros q e' He'. apply lookup_app_Some in He' as [He'|[Hge He']].
    + right.
      apply list_lookup_insert_Some in He' as [(<- & <- & _)|(Hne & He')].
      * exists pe. split; [exact Hpe|]. right. split; reflexivity.
      * exists e'. split; [exact He'|]. left. cbn [head].
        split; [congruence|reflexivity].
    + left. rewrite length_insert in Hge, He'.
      apply list_lookup_singleton_Some in He' as [Hz <-].
      split; [lia|]. right. exists top, pe. cbn [head]. auto.
Qed.

Lemma checkAndStreamElement_cells (p : Parser) (h : heap) (out : list nat)
      (elem : nat) (h' : heap) (out' : list nat) :
  checkAndStreamElement p h out elem = Ok (h', out') →
  contents h' = contents h ∧
  length (elems h') = length (elems h) ∧
  ∀ q e', elems h' !! q = Some e' →
    ∃ e, elems h !! q = Some e ∧
         ((q ≠ elem ∧ e' = e) ∨ (q = elem ∧ (e' = e ∨ e' = withParent e None))).
Proof.
  unfold checkAndStreamElement.
  destruct (getElem h elem) as [el| |] eqn:Hel; bind_simpl; [|discriminate..].
  apply getElem_Ok in Hel.
  destruct (shouldStream p (Name el)); intros [= <- <-].
  - split; [reflexivity|]. split; [apply length_insert|].
    intros q e' He'. cbn [setElem elems] in He'.
    apply list_lookup_insert_Some in He' as [(<- & <- & _)|(Hne & He')].
    + exists el. split; [exact Hel|]. right. split; [reflexivity|]. right. reflexivity.
    + exists e'. split; [exact He'|]. left. split; [congruence|reflexivity].
  - split; [reflexivity|]. split; [reflexivity|].
    intros q e' He'. exists e'. split; [exact He'|].
    destruct (decide (q = elem)) as [->|Hne]; [right|left]; auto.
Qed.

(** ** Tiling *)

Lemma tiled_app (h : heap) (cs cs' : list XMLNode) (off : Z) :
  tiled h (cs ++ cs') off = tiled h cs off ≫= tiled h cs'.
Proof.
  revert off. induction cs as [|[a|a] cs IH]; intros off; cbn [tiled app].
  - reflexivity.
  - apply IH.
  - destruct (contents h !! a) as [c|]; [|reflexivity].
    destruct (start c =? off); [apply IH|reflexivity].
Qed.

Lemma tiled_ext (h h' : heap) (cs : list XMLNode) (off : Z) :
  (∀ a, ContentRef a ∈ cs → contents h' !! a = contents h !! a) →
  tiled h' cs off = tiled h cs off.
Proof.
  revert off. induction cs as [|[a|a] cs IH]; intros off Hcs; cbn [tiled].
  - reflexivity.
  - apply IH. intros b Hb. apply Hcs. right. exact Hb.
  - rewrite (Hcs a) by left.
    destruct (contents h !! a) as [c|]; [|reflexivity].
    destruct (start c =? off); [|reflexivity].
    apply IH. intros b Hb. apply Hcs. right. exact Hb.
Qed.

Lemma tiled_same_contents (h h' : heap) (cs : list XMLNode) (off : Z) :
  contents h' = contents h → tiled h' cs off = tiled h cs off.
Proof. intros Hc. apply tiled_ext. intros a _. rewrite Hc. reflexivity. Qed.

Lemma lookup_forward {A} (l l' : list A) (i : nat) (x : A) :
  (length l ≤ length l')%nat → l !! i = Some x → ∃ y, l' !! i = Some y.
Proof.
  intros Hlen Hx. apply lookup_lt_Some in Hx.
  apply lookup_lt_is_Some. lia.
Qed.

Lemma heap_ok_content (h : heap) (top : nat) (bytes : list byte)
      (kind : NodeType) (h' : heap) :
  content_ok h → children_ok h → tiling_ok h →
  0 < len bytes →
  appendContentNode h top bytes kind = Ok h' →
  content_ok h' ∧ children_ok h' ∧ tiling_ok h'.
Proof.
  intros Hc Hch Ht Hpos Happ.
  destruct (appendContentNode_cells _ _ _ _ _ Happ)
    as (pe & Hpe & Hcont & Hlen & Hcells).
  assert (Hold : ∀ a c, contents h !! a = Some c → contents h' !! a = Some c)
    by (intros a c Ha; rewrite Hcont; apply lookup_app_l_Some, Ha).
  split; [|split].
  - intros a c Ha. rewrite Hcont in Ha.
    apply lookup_app_Some in Ha as [Ha|[Hge Ha]].
    + destruct (Hc a c Ha) as (p & pe0 & Hpar & Hp & H0 & H1 & H2).
      destruct (lookup_forward (elems h) (elems h') _ _ ltac:(lia) Hp) as [e' He'].
      exists p, e'. split; [exact Hpar|]. split; [exact He'|].
      destruct (Hcells p e' He') as (e & He & [[_ ->]|[_ ->]]);
        assert (e = pe0) by congruence; subst e; [auto|].
      cbn [appendChild appendRaw rawContent]. rewrite len_app. lia.
    + apply list_lookup_singleton_Some in Ha as [_ <-]. cbn.
      destruct (lookup_forward (elems h) (elems h') _ _ ltac:(lia) Hpe) as [e' He'].
      exists top, e'. split; [reflexivity|]. split; [exact He'|].
      destruct (Hcells top e' He') as (e & He & [[Hne _]|[_ ->]]); [congruence|].
      assert (e = pe) by congruence. subst e.
      cbn [appendChild appendRaw rawContent]. rewrite !len_app.
      pose proof (len_nonneg (rawContent pe)). lia.
  - intros p e' n He' Hn.
    destruct (Hcells p e' He') as (e & He & [[_ ->]|[-> ->]]).
    + specialize (Hch p e n He Hn). destruct n as [c|a].
      * rewrite Hlen. exact Hch.
      * destruct Hch as (c & Hc' & Hpar). exists c. auto.
    + cbn [appendChild appendRaw children] in Hn.
      apply elem_of_app in Hn as [Hn|Hn].
      * specialize (Hch top e n He Hn). destruct n as [c|a].
        -- rewrite Hlen. exact Hch.
        -- destruct Hch as (c & Hc' & Hpar). exists c. auto.
      * apply list_elem_of_singleton in Hn as ->.
        eexists. split.
        -- rewrite Hcont, lookup_app_r by lia. rewrite Nat.sub_diag. reflexivity.
        -- reflexivity.
  - intros p e' He'.
    assert (Hext : ∀ e, elems h !! p = Some e →
              tiled h' (children e) 0 = Some (len (rawContent e))).
    { intros e He. rewrite <- (Ht p e He). apply tiled_ext.
      intros a Ha. destruct (Hch p e _ He Ha) as (c & Hc' & _).
      rewrite Hc'. apply Hold, Hc'. }
    destruct (Hcells p e' He') as (e & He & [[_ ->]|[-> ->]]); [auto|].
    cbn [appendChild appendRaw children rawContent].
    rewrite tiled_app, (Hext e He). cbn [mbind option_bind tiled].
    rewrite Hcont, lookup_app_r by lia. rewrite Nat.sub_diag. cbn.
    assert (e = pe) by congruence. subst e.
    rewrite Z.eqb_refl. reflexivity.
Qed.

Lemma heap_ok_link (h : heap) (stk : list nat) (fresh : XMLElement) (h' : heap) :
  content_ok h → children_ok h → tiling_ok h →
  Forall (λ a, allocated h (ElemRef a)) stk →
  children fresh = [] → rawContent fresh = [] →
  linkToParent h stk fresh = Ok h' →
  content_ok h' ∧ children_ok h' ∧ tiling_ok h'.
Proof.
  intros Hc Hch Ht Hstk Hnil Hraw Hlink.
  destruct (linkToParent_cells _ _ _ _ Hlink) as (Hcont & Hlen & Hcells).
  assert (Hraw' : ∀ q e e', elems h !! q = Some e → elems h' !! q = Some e' →
                            rawContent e' = rawContent e).
  { intros q e e' He He'.
    destruct (Hcells q e' He') as [[Hq _]|(e0 & He0 & [[_ ->]|[_ ->]])].
    - apply lookup_lt_Some in He. lia.
    - congruence.
    - assert (e0 = e) by congruence. subst e0. reflexivity. }
  split; [|split].
  - intros a c Ha. rewrite Hcont in Ha.
    destruct (Hc a c Ha) as (p & pe0 & Hpar & Hp & H0 & H1 & H2).
    destruct (lookup_forward (elems h) (elems h') _ _ ltac:(lia) Hp) as [e' He'].
    exists p, e'. split; [exact Hpar|]. split; [exact He'|].
    rewrite (Hraw' p pe0 e' Hp He'). auto.
  - intros q e' n He' Hn.
    assert (Hold : ∀ e, elems h !! q = Some e → n ∈ children e →
              match n with
              | ElemRef c => (q < c)%nat ∧ (c < length (elems h'))%nat
              | ContentRef a => ∃ c, contents h' !! a = Some c ∧ cparent c = Some q
              end).
    { intros e He Hin. specialize (Hch q e n He Hin). destruct n as [c|a].
      - lia.
      - rewrite Hcont. exact Hch. }
    destruct (Hcells q e' He') as [[Hq Hnew]|(e & He & [[_ ->]|[Hhead ->]])].
    + exfalso. destruct Hnew as [[_ ->]|(top & pe & _ & _ & ->)];
        cbn [withLink children] in Hn; rewrite Hnil in Hn;
        apply elem_of_nil in Hn; exact Hn.
    + apply (Hold e He Hn).
    + cbn [appendChild children] in Hn. apply elem_of_app in Hn as [Hn|Hn].
      * apply (Hold e He Hn).
      * apply list_elem_of_singleton in Hn as ->.
        apply lookup_lt_Some in He. lia.
  - intros q e' He'.
    destruct (Hcells q e' He') as [[Hq Hnew]|(e & He & [[_ ->]|[Hhead ->]])].
    + destruct Hnew as [[_ ->]|(top & pe & _ & _ & ->)];
        cbn [withLink children rawContent]; rewrite Hnil, Hraw; reflexivity.
    + rewrite (tiled_same_contents h h') by exact Hcont. apply (Ht q e He).
    + cbn [appendChild children rawContent]. rewrite tiled_app.
      rewrite (tiled_same_contents h h') by exact Hcont.
      rewrite (Ht q e He). reflexivity.
Qed.

Lemma heap_ok_check (p : Parser) (h : heap) (out : list nat) (elem : nat)
      (h' : heap) (out' : list nat) :
  content_ok h → children_ok h → tiling_ok h →
  checkAndStreamElement p h out elem = Ok (h', out') →
  content_ok h' ∧ children_ok h' ∧ tiling_ok h'.
Proof.
  intros Hc Hch Ht Hcheck.
  destruct (checkAndStreamElement_cells _ _ _ _ _ _ Hcheck)
    as (Hcont & Hlen & Hcells).
  assert (Hsame : ∀ q e', elems h' !! q = Some e' →
            ∃ e, elems h !! q = Some e ∧ children e' = children e ∧
                 rawContent e' = rawContent e).
  { intros q e' He'.
    destruct (Hcells q e' He') as (e & He & [[_ ->]|[_ [->| ->]]]);
      exists e; auto. }
  split; [|split].
  - intros a c Ha. rewrite Hcont in Ha.
    destruct (Hc a c Ha) as (q & pe0 & Hpar & Hp & H0 & H1 & H2).
    destruct (lookup_forward (elems h) (elems h') _ _ ltac:(lia) Hp) as [e' He'].
    exists q, e'. split; [exact Hpar|]. split; [exact He'|].
    destruct (Hsame q e' He') as (e & He & _ & ->).
    assert (e = pe0) by congruence. subst e. auto.
  - intros q e' n He' Hn.
    destruct (Hsame q e' He') as (e & He & Hch' & _). rewrite Hch' in Hn.
    specialize (Hch q e n He Hn). destruct n as [c|a].
    + rewrite Hlen. exact Hch.
    + rewrite Hcont. exact Hch.
  - intros q e' He'.
    destruct (Hsame q e' He') as (e & He & -> & ->).
    rewrite (tiled_same_contents h h') by exact Hcont. apply (Ht q e He).
Qed.

(** ** The second invariant *)

Lemma head_elem_of {A} (l : list A) (x : A) : head l = Some x → x ∈ l.
Proof. destruct l; [discriminate|]. intros [= ->]. left. Qed.

Lemma Inv2_initial : Inv2 initial.
Proof.
  split; [intros a c H; discriminate|].
  split; [intros p e n H; discriminate|].
  split; [intros p e H; discriminate|].
  split; [exact I|]. split; [|reflexivity].
  intros q e c H. discriminate.
Qed.

Lemma effect_Inv2 (p : Parser) (w w' : machine) :
  Inv w → Inv2 w → effect p w w' → Inv2 w'.
Proof.
  intros (Hstk & _) (Hc & Hch & Ht & Hdesc & Hchain & Hdepth) Heff.
  assert (Hbelow : Forall (λ b, (b < length (elems (hp w)))%nat) (stack (st w))).
  { eapply Forall_impl; [exact Hstk|]. intros a Ha. exact Ha. }
  destruct Heff as [|top stk bytes kind h' Hstack Hpos Happ
                    |elem stk h' out' Hstack Hcheck
                    |fresh h' Hnil Hnone Hraw Hborn Hlink
                    |fresh h1 h2 out' Hnil Hnone Hraw Hborn Hlink Hcheck].
  - repeat split; assumption.
  - destruct (heap_ok_content _ _ _ _ _ Hc Hch Ht Hpos Happ) as (Hc' & Hch' & Ht').
    split; [exact Hc'|]. split; [exact Hch'|]. split; [exact Ht'|].
    split; [exact Hdesc|]. split; [|exact Hdepth].
    destruct (appendContentNode_cells _ _ _ _ _ Happ) as (pe & _ & _ & _ & Hcells).
    intros q e' c He' Hin Hc0. cbn [withHeap hp st] in *.
    destruct (Hcells q e' He') as (e & He & [[_ ->]|[_ ->]]).
    + exact (Hchain q e c He Hin Hc0).
    + cbn [appendChild appendRaw children] in Hin.
      apply elem_of_app in Hin as [Hin|Hin].
      * exact (Hchain q e c He Hin Hc0).
      * apply list_elem_of_singleton in Hin. discriminate.
  - destruct (heap_ok_check _ _ _ _ _ _ Hc Hch Ht Hcheck) as (Hc' & Hch' & Ht').
    rewrite Hstack in Hdesc, Hdepth. destruct Hdesc as [Hlt Hdesc].
    split; [exact Hc'|]. split; [exact Hch'|]. split; [exact Ht'|].
    split; [exact Hdesc|]. split.
    + destruct (checkAndStreamElement_cells _ _ _ _ _ _ Hcheck) as (_ & _ & Hcells).
      intros q e' c He' Hin Hc0. cbn [hp st stack] in *.
      destruct (Hcells q e' He') as (e & He & Hsame).
      assert (Hin0 : ElemRef c ∈ children e).
      { destruct Hsame as [[_ ->]|[_ [->| ->]]]; exact Hin. }
      assert (Hq : q ∈ stack (st w))
        by (apply (Hchain q e c He Hin0); rewrite Hstack; right; exact Hc0).
      rewrite Hstack in Hq. apply elem_of_cons in Hq as [->|Hq]; [|exact Hq].
      exfalso. destruct (Hch elem e _ He Hin0) as [Hlt' _].
      rewrite Forall_forall in Hlt. specialize (Hlt c Hc0). lia.
    + cbn [st depth stack]. unfold len in *. cbn [length] in Hdepth. lia.
  - destruct (heap_ok_link _ _ _ _ Hc Hch Ht Hstk Hnil Hraw Hlink)
      as (Hc' & Hch' & Ht').
    split; [exact Hc'|]. split; [exact Hch'|]. split; [exact Ht'|].
    split; [split; [exact Hbelow|exact Hdesc]|]. split.
    + destruct (linkToParent_cells _ _ _ _ Hlink) as (_ & _ & Hcells).
      intros q e' c He' Hin Hc0. cbn [hp st stack] in *.
      destruct (Hcells q e' He') as [[_ Hnew]|(e & He & [[_ ->]|[Hhead _]])].
      * exfalso. destruct Hnew as [[_ ->]|(top & pe & _ & _ & ->)];
          cbn [withLink children] in Hin; rewrite Hnil in Hin;
          apply elem_of_nil in Hin; exact Hin.
      * right. apply (Hchain q e c He Hin).
        apply elem_of_cons in Hc0 as [->|Hc0]; [|exact Hc0].
        exfalso. destruct (Hch q e _ He Hin) as [_ Hlt]. lia.
      * right. apply head_elem_of, Hhead.
    + cbn [st depth stack]. unfold len in *. cbn [length]. lia.
  - destruct (heap_ok_link _ _ _ _ Hc Hch Ht Hstk Hnil Hraw Hlink)
      as (Hc1 & Hch1 & Ht1).
    destruct (heap_ok_check _ _ _ _ _ _ Hc1 Hch1 Ht1 Hcheck) as (Hc' & Hch' & Ht').
    split; [exact Hc'|]. split; [exact Hch'|]. split; [exact Ht'|].
    split; [exact Hdesc|]. split; [|exact Hdepth].
    destruct (linkToParent_cells _ _ _ _ Hlink) as (_ & _ & Hcells1).
    destruct (checkAndStreamElement_cells _ _ _ _ _ _ Hcheck) as (_ & _ & Hcells2).
    intros q e'' c He'' Hin Hc0. cbn [hp st] in *.
    destruct (Hcells2 q e'' He'') as (e' & He' & Hsame).
    assert (Hin' : ElemRef c ∈ children e').
    { destruct Hsame as [[_ ->]|[_ [->| ->]]]; exact Hin. }
    destruct (Hcells1 q e' He') as [[_ Hnew]|(e & He & [[_ ->]|[Hhead _]])].
    + exfalso. destruct Hnew as [[_ ->]|(top & pe & _ & _ & ->)];
        cbn [withLink children] in Hin'; rewrite Hnil in Hin';
        apply elem_of_nil in Hin'; exact Hin'.
    + exact (Hchain q e c He Hin' Hc0).
    + apply head_elem_of, Hhead.
Qed.

Section Runs.

Variable TrimSpace : list byte → list byte.

(** Whatever one event keeps, the loop keeps. *)
Lemma parse_loop_keeps (P : machine → Prop) (p : Parser) :
  (∀ w w', Inv w → P w → effect p w w' → P w') →
  ∀ events w w',
    Inv w → P w → parse_loop TrimSpace p events w = Ok w' → P w'.
Proof.
  intros Hstep events. induction events as [|e events IH]; intros w w' HInv HP.
  - intros [= <-]. exact HP.
  - assert (Hgo : e ≠ EventEOF →
              (w1 ← handleEvent TrimSpace p w e; parse_loop TrimSpace p events w1)
              = Ok w' → P w').
    { intros Hne.
      destruct (handleEvent_ok TrimSpace p w e HInv Hne)
        as (w1 & cl & Hw1 & HInv1 & _).
      rewrite Hw1. bind_simpl. apply IH; [exact HInv1|].
      apply (Hstep w w1 HInv HP). eapply handleEvent_effect, Hw1. }
    destruct e; try (apply Hgo; discriminate).
    intros [= <-]. exact HP.
Qed.

Lemma parse_loop_Inv (p : Parser) (events : list Event) (w w' : machine) :
  Inv w → parse_loop TrimSpace p events w = Ok w' → Inv w'.
Proof.
  intros HInv Hrun.
  destruct (parse_loop_ok TrimSpace p events w HInv) as (w1 & Hw1 & HInv1 & _).
  congruence.
Qed.

Lemma parse_loop_Inv2 (p : Parser) (events : list Event) (w w' : machine) :
  Inv w → Inv2 w → parse_loop TrimSpace p events w = Ok w' → Inv2 w'.
Proof.
  apply (parse_loop_keeps Inv2). intros w0 w1. apply effect_Inv2.
Qed.

Lemma parse_Inv2 (p : Parser) (events : list Event) (w : machine) :
  parse TrimSpace p events = Ok w → Inv w ∧ Inv2 w.
Proof.
  intros Hrun. split.
  - exact (parse_loop_Inv p events initial w Inv_initial Hrun).
  - exact (parse_loop_Inv2 p events initial w Inv_initial Inv2_initial Hrun).
Qed.

End Runs.

(** ** Text extraction on assembled trees *)

Lemma collectText_unfold (fuel : nat) (h : heap) (e : nat) (sb : list byte) :
  collectText (S fuel) h e sb
  = (el ← getElem h e;
     collectChildren (collectText fuel h) h (children el) sb).
Proof. reflexivity. Qed.

Lemma collectChildren_cons (descend : nat → list byte → result (list byte))
      (h : heap) (child : XMLNode) (cs : list XMLNode) (sb : list byte) :
  collectChildren descend h (child :: cs) sb
  = (sb' ← collectChildren descend h [child] sb;
     collectChildren descend h cs sb').
Proof.
  cbn [collectChildren].
  destruct child as [c|c].
  - destruct (descend c sb); reflexivity.
  - destruct (getContent h c) as [node| |]; bind_simpl; [|reflexivity..].
    destruct (cparent node); [|reflexivity].
    destruct (NodeType_eqb (nodeType node) TextNode && (start node <? end_ node));
      [|reflexivity].
    destruct (getElem h n) as [pe| |]; bind_simpl; [|reflexivity..].
    destruct (slice (rawContent pe) (start node) (end_ node)); reflexivity.
Qed.

Lemma ContentInnerText_ok (h : heap) (a : nat) (c : XMLContentNode) :
  content_ok h → contents h !! a = Some c →
  ∃ p pe, cparent c = Some p ∧ elems h !! p = Some pe ∧
    ContentInnerText h a
    = Ok (string_of_list_byte
            (take (Z.to_nat (end_ c - start c))
               (drop (Z.to_nat (start c)) (rawContent pe)))).
Proof.
  intros Hc Ha. destruct (Hc a c Ha) as (p & pe & Hpar & Hp & H0 & H1 & H2).
  exists p, pe. split; [exact Hpar|]. split; [exact Hp|].
  unfold ContentInnerText. apply getContent_Ok in Ha. rewrite Ha. bind_simpl.
  rewrite Hpar. replace (end_ c <=? start c) with false
    by (symmetry; apply Z.leb_gt; lia).
  apply getElem_Ok in Hp. rewrite Hp. bind_simpl.
  rewrite slice_ok by lia. reflexivity.
Qed.

(** What the loop does with one content child of [e]. *)
Lemma collectChildren_content (descend : nat → list byte → result (list byte))
      (h : heap) (e : nat) (el : XMLElement) (a : nat) (sb : list byte) :
  content_ok h → children_ok h →
  elems h !! e = Some el → ContentRef a ∈ children el →
  ∃ c, contents h !! a = Some c ∧ cparent c = Some e ∧
       0 ≤ start c ∧ start c < end_ c ∧ end_ c ≤ len (rawContent el) ∧
       collectChildren descend h [ContentRef a] sb
       = Ok (if NodeType_eqb (nodeType c) TextNode
             then sb ++ take (Z.to_nat (end_ c - start c))
                          (drop (Z.to_nat (start c)) (rawContent el))
             else sb).
Proof.
  intros Hc Hch Hel Hin.
  destruct (Hch e el _ Hel Hin) as (c & Hnode & Hpar).
  destruct (Hc a c Hnode) as (p & pe & Hpar' & Hp & H0 & H1 & H2).
  assert (p = e) by congruence. subst p.
  assert (pe = el) by congruence. subst pe.
  exists c. split; [exact Hnode|]. split; [exact Hpar|].
  split; [exact H0|]. split; [exact H1|]. split; [exact H2|].
  cbn [collectChildren]. apply getContent_Ok in Hnode. rewrite Hnode.
  bind_simpl. rewrite Hpar.
  replace (start c <? end_ c) with true by (symmetry; apply Z.ltb_lt; lia).
  rewrite andb_true_r. destruct (NodeType_eqb (nodeType c) TextNode);
    [|reflexivity].
  apply getElem_Ok in Hel. rewrite Hel. bind_simpl.
  rewrite slice_ok by lia. reflexivity.
Qed.

(** The slow path returns on every element of a tree whose children were
    created after their parents, given one unit of fuel per element. *)
Lemma collectText_ok (h : heap) :
  content_ok h → children_ok h →
  ∀ (fuel e : nat) (sb : list byte),
    (e < length (elems h))%nat → (length (elems h) - e ≤ fuel)%nat →
    ∃ r, collectText fuel h e sb = Ok r.
Proof.
  intros Hc Hch fuel. induction fuel as [|fuel IH]; intros e sb He Hf; [lia|].
  rewrite collectText_unfold.
  destruct (lookup_lt_is_Some_2 (elems h) e He) as [el Hel].
  pose proof Hel as Hget. apply getElem_Ok in Hget. rewrite Hget. bind_simpl.
  assert (Hsub : ∀ n, n ∈ children el → n ∈ children el) by auto.
  revert sb Hsub. generalize (children el) at 1 3 as cs.
  induction cs as [|child cs IHcs]; intros sb Hsub; [cbn; eauto|].
  assert (Hin : child ∈ children el) by (apply Hsub; left).
  assert (Hrest : ∀ n, n ∈ cs → n ∈ children el)
    by (intros n Hn; apply Hsub; right; exact Hn).
  rewrite collectChildren_cons. destruct child as [c|a].
  - destruct (Hch e el _ Hel Hin) as [Hlt Hc'].
    cbn [collectChildren]. destruct (IH c sb Hc' ltac:(lia)) as [r ->].
    bind_simpl. apply IHcs, Hrest.
  - destruct (collectChildren_content (collectText fuel h) h e el a sb
                Hc Hch Hel Hin) as (c & _ & _ & _ & _ & _ & ->).
    bind_simpl. apply IHcs, Hrest.
Qed.

Lemma InnerText_ok (h : heap) (e : nat) :
  content_ok h → children_ok h → (e < length (elems h))%nat →
  ∃ s, InnerText (length (elems h)) h e = Ok s.
Proof.
  intros Hc Hch He. unfold InnerText.
  destruct (lookup_lt_is_Some_2 (elems h) e He) as [el Hel].
  apply getElem_Ok in Hel. rewrite Hel. bind_simpl.
  destruct (len (children el) =? 0); [eauto|].
  destruct (negb (existsb isElemRef (children el))); [eauto|].
  destruct (collectText_ok h Hc Hch (length (elems h)) e [] He ltac:(lia))
    as [r ->].
  bind_simpl. eauto.
Qed.

Lemma take_drop_split {A} (l : list A) (a n m : nat) :
  take n (drop a l) ++ take m (drop (a + n) l) = take (n + m) (drop a l).
Proof. rewrite <- drop_drop. apply take_take_drop. Qed.

(** The ranges of text children that tile [raw] from [off] concatenate to
    that part of [raw]. *)
Lemma collectChildren_text_only
      (descend : nat → list byte → result (list byte))
      (h : heap) (e : nat) (el : XMLElement) :
  content_ok h → children_ok h → elems h !! e = Some el →
  ∀ (cs : list XMLNode) (off off' : Z) (sb : list byte),
    (∀ n, n ∈ cs → n ∈ children el) →
    Forall (isTextChild h) cs →
    0 ≤ off → tiled h cs off = Some off' →
    off ≤ off' ∧
    collectChildren descend h cs sb
    = Ok (sb ++ take (Z.to_nat (off' - off))
                  (drop (Z.to_nat off) (rawContent el))).
Proof.
  intros Hc Hch Hel cs.
  induction cs as [|child cs IH]; intros off off' sb Hsub Htext Hoff Htiled.
  - cbn in Htiled. injection Htiled as <-.
    split; [lia|]. cbn [collectChildren]. rewrite Z.sub_diag.
    cbn [Z.to_nat take]. rewrite app_nil_r. reflexivity.
  - apply Forall_cons in Htext as [Hchild Htext].
    destruct child as [c|a]; [contradiction|].
    destruct Hchild as (c0 & Hc0 & Hkind).
    assert (Hin : ContentRef a ∈ children el) by (apply Hsub; left).
    destruct (collectChildren_content descend h e el a sb Hc Hch Hel Hin)
      as (c & Hnode & _ & H0 & H1 & H2 & Hone).
    assert (c0 = c) by congruence. subst c0.
    rewrite collectChildren_cons, Hone. bind_simpl.
    rewrite Hkind. cbn [NodeType_eqb].
    cbn [tiled] in Htiled. rewrite Hnode in Htiled.
    destruct (start c =? off) eqn:Hs; [|discriminate].
    apply Z.eqb_eq in Hs. subst off.
    destruct (IH (end_ c) off' (sb ++ take (Z.to_nat (end_ c - start c))
                                        (drop (Z.to_nat (start c)) (rawContent el))))
      as [Hle ->]; [intros n Hn; apply Hsub; right; exact Hn|exact Htext|lia
                   |exact Htiled|].
    split; [lia|]. f_equal. rewrite <- app_assoc. f_equal.
    replace (Z.to_nat (end_ c))
      with (Z.to_nat (start c) + Z.to_nat (end_ c - start c))%nat by lia.
    rewrite take_drop_split. f_equal. lia.
Qed.

(** ** Closed elements *)

Lemma lookup_same {A} (l l' : list A) (a : nat) :
  (a < length l)%nat → (length l ≤ length l')%nat →
  (∀ y, l' !! a = Some y → l !! a = Some y) →
  l' !! a = l !! a.
Proof.
  intros Ha Hlen Hback.
  destruct (lookup_lt_is_Some_2 l' a ltac:(lia)) as [y Hy].
  rewrite Hy. symmetry. apply Hback, Hy.
Qed.

Lemma checkAndStreamElement_out (p : Parser) (h : heap) (out : list nat)
      (elem : nat) (h' : heap) (out' : list nat) :
  checkAndStreamElement p h out elem = Ok (h', out') →
  out' = out ∨ out' = out ++ [elem].
Proof.
  unfold checkAndStreamElement.
  destruct (getElem h elem) as [el| |]; bind_simpl; [|discriminate..].
  destruct (shouldStream p (Name el)); intros [= <- <-]; auto.
Qed.

Lemma keeps_closed_refl (w : machine) : keeps_closed w w.
Proof. split; [auto|reflexivity]. Qed.

Lemma keeps_closed_trans (w1 w2 w3 : machine) :
  keeps_closed w1 w2 → keeps_closed w2 w3 → keeps_closed w1 w3.
Proof.
  intros [H1 P1] [H2 P2]. split; [|etrans; eassumption].
  intros a Ha. destruct (H1 a Ha) as [E1 C1]. destruct (H2 a C1) as [E2 C2].
  split; [congruence|exact C2].
Qed.

Lemma effect_keeps_closed (p : Parser) (w w' : machine) :
  Inv w → effect p w w' → keeps_closed w w'.
Proof.
  intros (Hstk & _) Heff.
  assert (Hbelow : ∀ b, b ∈ stack (st w) → (b < length (elems (hp w)))%nat).
  { rewrite Forall_forall in Hstk. exact Hstk. }
  destruct Heff as [|top stk bytes kind h' Hstack Hpos Happ
                    |elem stk h' out' Hstack Hcheck
                    |fresh h' Hnil Hnone Hraw Hborn Hlink
                    |fresh h1 h2 out' Hnil Hnone Hraw Hborn Hlink Hcheck].
  - apply keeps_closed_refl.
  - destruct (appendContentNode_cells _ _ _ _ _ Happ)
      as (pe & _ & Hcont & Hlen & Hcells).
    split; [|cbn [withHeap hp]; rewrite Hcont; apply prefix_app_r; reflexivity].
    intros a [Ha Hout]. unfold closed_in. cbn [withHeap hp st]. split.
    + apply lookup_same; [exact Ha|lia|]. intros y Hy.
      destruct (Hcells a y Hy) as (e & He & [[_ ->]|[-> _]]); [exact He|].
      exfalso. apply Hout. rewrite Hstack. left.
    + split; [lia|exact Hout].
  - destruct (checkAndStreamElement_cells _ _ _ _ _ _ Hcheck)
      as (Hcont & Hlen & Hcells).
    split; [|cbn [hp]; rewrite Hcont; reflexivity].
    intros a [Ha Hout]. unfold closed_in. cbn [hp st stack]. split.
    + apply lookup_same; [exact Ha|lia|]. intros y Hy.
      destruct (Hcells a y Hy) as (e & He & [[_ ->]|[-> _]]); [exact He|].
      exfalso. apply Hout. rewrite Hstack. left.
    + split; [lia|]. intros Hin. apply Hout. rewrite Hstack. right. exact Hin.
  - destruct (linkToParent_cells _ _ _ _ Hlink) as (Hcont & Hlen & Hcells).
    split; [|cbn [hp]; rewrite Hcont; reflexivity].
    intros a [Ha Hout]. unfold closed_in. cbn [hp st stack]. split.
    + apply lookup_same; [exact Ha|lia|]. intros y Hy.
      destruct (Hcells a y Hy) as [[Hq _]|(e & He & [[_ ->]|[Hhead _]])];
        [lia|exact He|].
      exfalso. apply Hout, head_elem_of, Hhead.
    + split; [lia|]. intros [->|Hin]%elem_of_cons; [lia|auto].
  - destruct (linkToParent_cells _ _ _ _ Hlink) as (Hcont1 & Hlen1 & Hcells1).
    destruct (checkAndStreamElement_cells _ _ _ _ _ _ Hcheck)
      as (Hcont2 & Hlen2 & Hcells2).
    split; [|cbn [hp]; rewrite Hcont2, Hcont1; reflexivity].
    intros a [Ha Hout]. unfold closed_in. cbn [hp st]. split.
    + apply lookup_same; [exact Ha|lia|]. intros y Hy.
      destruct (Hcells2 a y Hy) as (e1 & He1 & [[_ ->]|[-> _]]); [|lia].
      destruct (Hcells1 a e1 He1) as [[Hq _]|(e & He & [[_ ->]|[Hhead _]])];
        [lia|exact He|].
      exfalso. apply Hout, head_elem_of, Hhead.
    + split; [lia|exact Hout].
Qed.

(** A closed element and its whole subtree read the same afterwards. *)
Lemma collectText_closed (w w' : machine) :
  Inv2 w → keeps_closed w w' →
  ∀ (fuel a : nat) (sb : list byte),
    closed_in w a →
    collectText fuel (hp w') a sb = collectText fuel (hp w) a sb.
Proof.
  intros (Hc & Hch & _ & _ & Hchain & _) [Hkeep Hpre] fuel.
  induction fuel as [|fuel IH]; intros a sb Ha; [reflexivity|].
  rewrite !collectText_unfold.
  destruct (Hkeep a Ha) as [Hcell _].
  unfold getElem at 1 2. rewrite Hcell.
  destruct (elems (hp w) !! a) as [el|] eqn:Hel; bind_simpl; [|reflexivity].
  assert (Hsub : ∀ n, n ∈ children el → n ∈ children el) by auto.
  revert sb Hsub. generalize (children el) at 1 3 4 as cs.
  induction cs as [|child cs IHcs]; intros sb Hsub; [reflexivity|].
  assert (Hin : child ∈ children el) by (apply Hsub; left).
  assert (Hrest : ∀ n, n ∈ cs → n ∈ children el)
    by (intros n Hn; apply Hsub; right; exact Hn).
  rewrite (collectChildren_cons _ (hp w')), (collectChildren_cons _ (hp w)).
  assert (Hone : collectChildren (collectText fuel (hp w')) (hp w') [child] sb
                 = collectChildren (collectText fuel (hp w)) (hp w) [child] sb).
  { destruct child as [c|c]; cbn [collectChildren].
    - destruct (Hch a el _ Hel Hin) as [_ Hc'].
      rewrite IH; [reflexivity|]. split; [exact Hc'|].
      intros Hopen. destruct Ha as [_ Hout]. apply Hout.
      exact (Hchain a el c Hel Hin Hopen).
    - destruct (Hch a el _ Hel Hin) as (node & Hnode & Hpar).
      assert (Hnode' : contents (hp w') !! c = Some node).
      { destruct Hpre as [k ->]. apply lookup_app_l_Some, Hnode. }
      unfold getContent. rewrite Hnode, Hnode'. bind_simpl. rewrite Hpar.
      unfold getElem. rewrite Hcell, ?Hel. reflexivity. }
  rewrite Hone.
  destruct (collectChildren (collectText fuel (hp w)) (hp w) [child] sb);
    bind_simpl; [apply IHcs, Hrest|reflexivity..].
Qed.

Lemma InnerText_closed (w w' : machine) (fuel a : nat) :
  Inv2 w → keeps_closed w w' → closed_in w a →
  InnerText fuel (hp w') a = InnerText fuel (hp w) a.
Proof.
  intros HInv2 Hkeep Ha. unfold InnerText.
  destruct (proj1 Hkeep a Ha) as [Hcell _].
  unfold getElem. rewrite Hcell.
  destruct (elems (hp w) !! a) as [el|]; bind_simpl; [|reflexivity].
  destruct (len (children el) =? 0); [reflexivity|].
  destruct (negb (existsb isElemRef (children el))); [reflexivity|].
  rewrite (collectText_closed w w' HInv2 Hkeep fuel a [] Ha). reflexivity.
Qed.

Section MoreRuns.

Variable TrimSpace : list byte → list byte.

Lemma parse_loop_app (p : Parser) (events1 events2 : list Event) (w : machine) :
  EventEOF ∉ events1 →
  parse_loop TrimSpace p (events1 ++ events2) w
  = (w1 ← parse_loop TrimSpace p events1 w; parse_loop TrimSpace p events2 w1).
Proof.
  revert w. induction events1 as [|e events1 IH]; intros w Hno; [reflexivity|].
  assert (Hrest : EventEOF ∉ events1)
    by (intros Hin; apply Hno; right; exact Hin).
  assert (Hgo : (w1 ← handleEvent TrimSpace p w e;
                 parse_loop TrimSpace p (events1 ++ events2) w1)
                = (w1 ← (w0 ← handleEvent TrimSpace p w e;
                         parse_loop TrimSpace p events1 w0);
                   parse_loop TrimSpace p events2 w1)).
  { destruct (handleEvent TrimSpace p w e); bind_simpl; [|reflexivity..].
    apply IH, Hrest. }
  destruct e; try exact Hgo. exfalso. apply Hno. left.
Qed.

Lemma parse_loop_keeps_closed (p : Parser) (events : list Event)
      (w w' : machine) :
  Inv w → parse_loop TrimSpace p events w = Ok w' → keeps_closed w w'.
Proof.
  intros HInv Hrun.
  apply (parse_loop_keeps TrimSpace (keeps_closed w) p) with (4 := Hrun).
  - intros w1 w2 HInv1 Hk Heff.
    eapply keeps_closed_trans; [exact Hk|].
    apply (effect_keeps_closed p); assumption.
  - exact HInv.
  - apply keeps_closed_refl.
Qed.

(** No sent element is open. *)
Lemma parse_loop_sent_closed (p : Parser) (events : list Event)
      (w w' : machine) :
  Inv w → Inv2 w → Forall (λ a, a ∉ stack (st w)) (sent w) →
  parse_loop TrimSpace p events w = Ok w' →
  Forall (λ a, a ∉ stack (st w')) (sent w').
Proof.
  intros HInv HInv2 Hs Hrun.
  assert (HP : Inv2 w' ∧ Forall (λ a, a ∉ stack (st w')) (sent w')); [|apply HP].
  apply (parse_loop_keeps TrimSpace
           (λ w, Inv2 w ∧ Forall (λ a, a ∉ stack (st w)) (sent w)) p)
    with (4 := Hrun); [|exact HInv|split; assumption].
  clear. intros w w' HInv [HInv2 Hs] Heff.
  split; [exact (effect_Inv2 p w w' HInv HInv2 Heff)|].
  destruct HInv as (Hstk & _ & _ & Hdet).
  destruct HInv2 as (_ & _ & _ & Hdesc & _).
  assert (Hbelow : ∀ b, b ∈ stack (st w) → (b < length (elems (hp w)))%nat).
  { rewrite Forall_forall in Hstk. exact Hstk. }
  assert (Hsent : ∀ b, b ∈ sent w → (b < length (elems (hp w)))%nat).
  { rewrite Forall_forall in Hdet. intros b Hb.
    exact (Parent_allocated _ _ _ (Hdet b Hb)). }
  destruct Heff as [|top stk bytes kind h' Hstack Hpos Happ
                    |elem stk h' out' Hstack Hcheck
                    |fresh h' Hnil Hnone Hraw Hborn Hlink
                    |fresh h1 h2 out' Hnil Hnone Hraw Hborn Hlink Hcheck];
    cbn [withHeap hp st sent stack].
  - exact Hs.
  - exact Hs.
  - rewrite Hstack in Hs, Hdesc. destruct Hdesc as [Hlt _].
    assert (Hold : Forall (λ a, a ∉ stk) (sent w)).
    { eapply Forall_impl; [exact Hs|]. intros a Ha Hin. apply Ha. right. exact Hin. }
    destruct (checkAndStreamElement_out _ _ _ _ _ _ Hcheck) as [->| ->];
      [exact Hold|].
    apply Forall_app. split; [exact Hold|].
    constructor; [|constructor]. intros Hin.
    rewrite Forall_forall in Hlt. specialize (Hlt elem Hin). lia.
  - rewrite Forall_forall in Hs |- *. intros a Ha [->|Hin]%elem_of_cons.
    + specialize (Hsent _ Ha). lia.
    + exact (Hs a Ha Hin).
  - destruct (checkAndStreamElement_out _ _ _ _ _ _ Hcheck) as [->| ->];
      [exact Hs|].
    apply Forall_app. split; [exact Hs|].
    constructor; [|constructor]. intros Hin. specialize (Hbelow _ Hin). lia.
Qed.

End MoreRuns.

(** ** An element with text only *)

Section FlatText.

Variable TrimSpace : list byte → list byte.

Lemma start_opens (p : Parser) (w : machine) (name attrs fullTag : list byte) :
  Inv w → isSelfClosingTag fullTag = false →
  ∃ w' e,
    handleEvent TrimSpace p w (EventStart name attrs fullTag) = Ok w' ∧
    Inv w' ∧ sent w' = sent w ∧
    stack (st w') = length (elems (hp w)) :: stack (st w) ∧
    length (elems (hp w')) = S (length (elems (hp w))) ∧
    elems (hp w') !! length (elems (hp w)) = Some e ∧
    children e = [] ∧ rawContent e = [] ∧
    Name e = string_of_list_byte name.
Proof.
  intros HInv Hsc. cbn [handleEvent].
  destruct (elementNamespacesOf_ok TrimSpace attrs) as [ens ->]. bind_simpl.
  destruct (handleStartElement_ok TrimSpace p w name attrs fullTag ens HInv)
    as (w' & cl & Hw' & HInv' & _ & _ & Hsent & Hlen & Hshape).
  rewrite Hsc in Hshape. destruct Hshape as [-> Hstack].
  exists w'. revert Hw'. unfold handleStartElement.
  destruct (splitName (string_of_list_byte name)) as [[pre localN]| |];
    bind_simpl; [|discriminate..].
  destruct (match stack (st w) with
            | top :: _ => pe ← getElem (hp w) top; Ok (namespaces pe)
            | [] => Ok None
            end) as [pns| |]; bind_simpl; [|discriminate..].
  destruct (if 0 <? len attrs then parseAttributes TrimSpace attrs [] else Ok [])
    as [attributes| |]; bind_simpl; [|discriminate..].
  match goal with
  | |- context [linkToParent _ _ ?f] => set (fresh := f)
  end.
  destruct (linkToParent (hp w) (stack (st w)) fresh) as [h1| |] eqn:Hlink;
    bind_simpl; [|discriminate..].
  rewrite isSelfClosing_spec, Hsc. bind_simpl. intros Hw'.
  injection Hw' as <-. cbn [hp st sent stack] in *.
  destruct (linkToParent_cells _ _ _ _ Hlink) as (_ & _ & Hcells).
  destruct (lookup_lt_is_Some_2 (elems h1) (length (elems (hp w))) ltac:(lia))
    as [e He].
  exists e. split; [reflexivity|]. split; [exact HInv'|].
  split; [reflexivity|]. split; [reflexivity|]. split; [exact Hlen|].
  split; [exact He|].
  destruct (Hcells _ e He) as [[_ Hnew]|(e0 & He0 & _)].
  - destruct Hnew as [[_ ->]|(top & pe & _ & _ & ->)]; repeat split; reflexivity.
  - apply lookup_lt_Some in He0. lia.
Qed.

Lemma textual_event (p : Parser) (w : machine) (n : nat) (stk : list nat)
      (e : XMLElement) (ev : Event) :
  Inv w → stack (st w) = n :: stk → elems (hp w) !! n = Some e →
  isTextual ev →
  ∃ w' e',
    handleEvent TrimSpace p w ev = Ok w' ∧ Inv w' ∧
    stack (st w') = n :: stk ∧ sent w' = sent w ∧
    length (elems (hp w')) = length (elems (hp w)) ∧
    elems (hp w') !! n = Some e' ∧
    rawContent e' = rawContent e ++ textOf ev ∧
    ((children e' = children e ∧ textOf ev = []) ∨
     (∃ a, children e' = children e ++ [ContentRef a])).
Proof.
  intros HInv Hstack He Htext.
  assert (Hnone : ∀ b : list byte, b = [] →
            ∃ w' e', Ok w = Ok w' ∧ Inv w' ∧ stack (st w') = n :: stk ∧
              sent w' = sent w ∧
              length (elems (hp w')) = length (elems (hp w)) ∧
              elems (hp w') !! n = Some e' ∧
              rawContent e' = rawContent e ++ b ∧
              ((children e' = children e ∧ b = []) ∨
               (∃ a, children e' = children e ++ [ContentRef a]))).
  { intros b ->. exists w, e. rewrite app_nil_r.
    repeat (split; [solve [auto]|]). left. split; reflexivity. }
  assert (Hadd : ∀ b : list byte,
            ∃ w' e',
              (h ← appendContentNode (hp w) n b TextNode; Ok (withHeap w h))
              = Ok w' ∧ Inv w' ∧ stack (st w') = n :: stk ∧
              sent w' = sent w ∧
              length (elems (hp w')) = length (elems (hp w)) ∧
              elems (hp w') !! n = Some e' ∧
              rawContent e' = rawContent e ++ b ∧
              ((children e' = children e ∧ b = []) ∨
               (∃ a, children e' = children e ++ [ContentRef a]))).
  { intros b.
    destruct (content_step w n stk b TextNode HInv Hstack)
      as (h' & Happ & HInv' & _ & Hlen).
    rewrite Happ. bind_simpl.
    destruct (appendContentNode_cells _ _ _ _ _ Happ) as (pe & _ & _ & _ & Hcells).
    destruct (lookup_forward (elems (hp w)) (elems h') n e ltac:(lia) He)
      as [e' He'].
    exists (withHeap w h'), e'. split; [reflexivity|]. split; [exact HInv'|].
    cbn [withHeap hp st sent]. split; [exact Hstack|]. split; [reflexivity|].
    split; [exact Hlen|]. split; [exact He'|].
    destruct (Hcells n e' He') as (e0 & He0 & [[Hne _]|[_ ->]]); [congruence|].
    assert (e0 = e) by congruence. subst e0.
    split; [reflexivity|]. right. eexists. reflexivity. }
  destruct ev as [| |bytes|bytes| | |]; try contradiction;
    cbn [handleEvent textOf]; rewrite Hstack.
  - destruct (0 <? len bytes) eqn:Hlen; [apply Hadd|].
    apply Hnone. apply Z.ltb_ge in Hlen. unfold len in Hlen.
    destruct bytes; [reflexivity|cbn [length] in Hlen; lia].
  - destruct (12 <? len bytes) eqn:H12; [|apply Hnone; reflexivity].
    apply Z.ltb_lt in H12. rewrite slice_ok by lia. bind_simpl.
    replace (Z.to_nat (len bytes - 3 - 9)) with (Z.to_nat (len bytes - 12)) by lia.
    change (Z.to_nat 9) with 9%nat.
    destruct (0 <? len (take (Z.to_nat (len bytes - 12)) (drop 9 bytes))) eqn:Hlen;
      [apply Hadd|].
    apply Hnone. apply Z.ltb_ge in Hlen. unfold len in Hlen.
    destruct (take _ _); [reflexivity|cbn [length] in Hlen; lia].
Qed.

Lemma textual_run (p : Parser) (texts : list Event) :
  ∀ (w : machine) (n : nat) (stk : list nat) (e : XMLElement),
    Inv w → stack (st w) = n :: stk → elems (hp w) !! n = Some e →
    Forall isTextual texts →
    ∃ w' e',
      parse_loop TrimSpace p texts w = Ok w' ∧ Inv w' ∧
      stack (st w') = n :: stk ∧ sent w' = sent w ∧
      length (elems (hp w')) = length (elems (hp w)) ∧
      elems (hp w') !! n = Some e' ∧
      rawContent e' = rawContent e ++ concat (map textOf texts) ∧
      (existsb isElemRef (children e) = false →
       existsb isElemRef (children e') = false) ∧
      ((children e = [] → rawContent e = []) →
       (children e' = [] → rawContent e' = [])).
Proof.
  induction texts as [|ev texts IH]; intros w n stk e HInv Hstack He Htexts.
  - exists w, e. cbn [map concat parse_loop]. rewrite app_nil_r.
    split; [reflexivity|]. split; [exact HInv|]. split; [exact Hstack|].
    split; [reflexivity|]. split; [reflexivity|]. split; [exact He|].
    split; [reflexivity|]. split; auto.
  - apply Forall_cons in Htexts as [Hev Htexts].
    destruct (textual_event p w n stk e ev HInv Hstack He Hev)
      as (w1 & e1 & Hw1 & HInv1 & Hstack1 & Hsent1 & Hlen1 & He1 & Hraw1 & Hch1).
    destruct (IH w1 n stk e1 HInv1 Hstack1 He1 Htexts)
      as (w' & e' & Hw' & HInv' & Hstack' & Hsent' & Hlen' & He' & Hraw' & Hel' & Hnil').
    exists w', e'. split.
    { cbn [parse_loop]. destruct ev; try contradiction; rewrite Hw1; exact Hw'. }
    split; [exact HInv'|]. split; [exact Hstack'|]. split; [congruence|].
    split; [congruence|]. split; [exact He'|]. split.
    { rewrite Hraw', Hraw1. cbn [map concat]. rewrite app_assoc. reflexivity. }
    split.
    + intros Hno. apply Hel'.
      destruct Hch1 as [[-> _]|[a ->]]; [exact Hno|].
      rewrite existsb_app, Hno. reflexivity.
    + intros Hnil. apply Hnil'.
      destruct Hch1 as [[Hsame Hempty]|[a Hadd]].
      * rewrite Hsame, Hraw1, Hempty, app_nil_r. exact Hnil.
      * rewrite Hadd. intros Habs. destruct (children e); discriminate.
Qed.

End FlatText.

(** ** Properties of assembled trees *)

Lemma NoDup_List_filter {A} (f : A → bool) (l : list A) :
  NoDup l → NoDup (List.filter f l).
Proof.
  induction 1 as [|x l Hx Hl IH]; cbn [List.filter]; [constructor|].
  destruct (f x); [|exact IH].
  constructor; [|exact IH]. intros Hin. apply Hx.
  apply list_elem_of_In in Hin. apply List.filter_In in Hin as [Hin _].
  apply list_elem_of_In, Hin.
Qed.

Lemma closedFrom_NoDup (events : list Event) :
  ∀ (n : nat) (opened : list nat),
    Forall (λ b, (b < n)%nat) opened → NoDup opened →
    NoDup (closedFrom events n opened) ∧
    ∀ a, a ∈ closedFrom events n opened → a ∈ opened ∨ (n ≤ a)%nat.
Proof.
  induction events as [|e events IH]; intros n opened Hlt Hnd.
  - split; [constructor|]. intros a Ha. apply elem_of_nil in Ha. contradiction.
  - destruct e as [name attrs fullTag| |bytes|bytes|bytes| |bytes];
      cbn [closedFrom]; try (apply IH; assumption).
    + assert (Hlt' : Forall (λ b, (b < S n)%nat) opened)
        by (eapply Forall_impl; [exact Hlt|]; intros b Hb; cbn in Hb; lia).
      assert (Hn : n ∉ opened).
      { intros Hin. rewrite Forall_forall in Hlt. specialize (Hlt n Hin). lia. }
      destruct (isSelfClosingTag fullTag).
      * destruct (IH (S n) opened Hlt' Hnd) as [Hnd' Hmem]. split.
        -- apply NoDup_cons. split; [|exact Hnd'].
           intros Hin. destruct (Hmem n Hin) as [Ho|Ho]; [contradiction|lia].
        -- intros a [->|Ha]%elem_of_cons; [right; lia|].
           destruct (Hmem a Ha) as [Ho|Ho]; [left; exact Ho|right; lia].
      * destruct (IH (S n) (n :: opened)) as [Hnd' Hmem].
        -- constructor; [lia|exact Hlt'].
        -- apply NoDup_cons. split; assumption.
        -- split; [exact Hnd'|]. intros a Ha.
           destruct (Hmem a Ha) as [[->|Ho]%elem_of_cons|Ho];
             [right; lia|left; exact Ho|right; lia].
    + destruct opened as [|b opened]; [apply IH; assumption|].
      apply Forall_cons in Hlt as [Hb Hlt].
      apply NoDup_cons in Hnd as [Hnb Hnd].
      destruct (IH n opened Hlt Hnd) as [Hnd' Hmem]. split.
      * apply NoDup_cons. split; [|exact Hnd'].
        intros Hin. destruct (Hmem b Hin) as [Ho|Ho]; [contradiction|lia].
      * intros a [->|Ha]%elem_of_cons; [left; left|].
        destruct (Hmem a Ha) as [Ho|Ho]; [left; right; exact Ho|right; exact Ho].
    + split; [constructor|]. intros a Ha. apply elem_of_nil in Ha. contradiction.
Qed.

(** X1 (text extraction returns).  After every event sequence, [InnerText]
    returns on every element of the memory when given one unit of fuel per
    element, and on every content node: no index or slice leaves its
    bounds and the recursion ends. *)
Theorem InnerText_returns_on_assembled_trees
        (TrimSpace : list byte → list byte) (p : Parser) (events : list Event) :
  ∃ w, parse TrimSpace p events = Ok w ∧
       (∀ e, (e < length (elems (hp w)))%nat →
             ∃ s, InnerText (length (elems (hp w))) (hp w) e = Ok s) ∧
       (∀ a, (a < length (contents (hp w)))%nat →
             ∃ s, ContentInnerText (hp w) a = Ok s).
Proof.
  destruct (parse_ok TrimSpace p events) as (w & Hw & _).
  destruct (parse_Inv2 TrimSpace p events w Hw) as [_ (Hc & Hch & _)].
  exists w. split; [exact Hw|]. split.
  - intros e He. apply InnerText_ok; assumption.
  - intros a Ha. apply lookup_lt_is_Some_2 in Ha as [c Hc0].
    destruct (ContentInnerText_ok (hp w) a c Hc Hc0) as (q & pe & _ & _ & ->).
    eauto.
Qed.

(** X2 (the fast path without comments).  After every event sequence, for
    every element whose children are all text nodes, the slow path
    [collectText] returns the raw content buffer: what the fast path of
    [InnerText] returns is what the slow path would have collected. *)
Theorem fast_path_agrees_without_comments
        (TrimSpace : list byte → list byte) (p : Parser) (events : list Event) :
  ∃ w, parse TrimSpace p events = Ok w ∧
       ∀ e el fuel,
         elems (hp w) !! e = Some el →
         Forall (isTextChild (hp w)) (children el) →
         collectText (S fuel) (hp w) e [] = Ok (rawContent el).
Proof.
  destruct (parse_ok TrimSpace p events) as (w & Hw & _).
  destruct (parse_Inv2 TrimSpace p events w Hw) as [_ (Hc & Hch & Ht & _)].
  exists w. split; [exact Hw|]. intros e el fuel Hel Htext.
  rewrite collectText_unfold. pose proof Hel as Hget.
  apply getElem_Ok in Hget. rewrite Hget. bind_simpl.
  destruct (collectChildren_text_only (collectText fuel (hp w)) (hp w) e el
              Hc Hch Hel (children el) 0 (len (rawContent el)) [])
    as [_ ->]; [auto|exact Htext|lia|exact (Ht e el Hel)|].
  cbn [app]. rewrite Z.sub_0_r. change (Z.to_nat 0) with 0%nat.
  rewrite drop_0. unfold len. rewrite Nat2Z.id, firstn_all. reflexivity.
Qed.

(** X3 (emitted subtrees are frozen).  Whatever events follow, an element
    that has been sent keeps its memory cell, and its inner text reads the
    same; and what has been sent stays sent, in the same order. *)
Theorem emitted_subtree_is_frozen
        (TrimSpace : list byte → list byte) (p : Parser)
        (events1 events2 : list Event) :
  EventEOF ∉ events1 →
  ∃ w1 w2,
    parse TrimSpace p events1 = Ok w1 ∧
    parse TrimSpace p (events1 ++ events2) = Ok w2 ∧
    sent w1 `prefix_of` sent w2 ∧
    ∀ a, a ∈ sent w1 →
         elems (hp w2) !! a = elems (hp w1) !! a ∧
         ∀ fuel, InnerText fuel (hp w2) a = InnerText fuel (hp w1) a.
Proof.
  intros Hno.
  destruct (parse_ok TrimSpace p events1) as (w1 & Hw1 & HInv1 & _).
  destruct (parse_Inv2 TrimSpace p events1 w1 Hw1) as [_ HInv2].
  destruct (parse_loop_ok TrimSpace p events2 w1 HInv1)
    as (w2 & Hw2 & _ & _ & Hsent).
  exists w1, w2. split; [exact Hw1|].
  split.
  { unfold parse in *. rewrite parse_loop_app by exact Hno.
    rewrite Hw1. exact Hw2. }
  split; [rewrite Hsent; apply prefix_app_r; reflexivity|].
  pose proof (parse_loop_keeps_closed TrimSpace p events2 w1 w2 HInv1 Hw2)
    as Hkeep.
  assert (Hclosed : Forall (λ a, a ∉ stack (st w1)) (sent w1)).
  { apply (parse_loop_sent_closed TrimSpace p events1 initial w1
             Inv_initial Inv2_initial); [constructor|exact Hw1]. }
  intros a Ha.
  assert (Hin : closed_in w1 a).
  { destruct HInv1 as (_ & _ & _ & Hdet). rewrite Forall_forall in Hdet, Hclosed.
    split; [exact (Parent_allocated _ _ _ (Hdet a Ha))|exact (Hclosed a Ha)]. }
  split; [exact (proj1 (proj1 Hkeep a Hin))|].
  intros fuel. apply InnerText_closed; assumption.
Qed.

(** X4 (an element with text only).  Anywhere in a document, for a start
    tag that is not self-closing, followed by text and CDATA events only
    and then by the end tag, the inner text of the element is the
    concatenation of the texts as they came and of the CDATA sections
    without their delimiters. *)
Theorem text_only_element_inner_text
        (TrimSpace : list byte → list byte) (p : Parser)
        (before : list Event) (name attrs fullTag : list byte)
        (texts : list Event) (fuel : nat) :
  EventEOF ∉ before → isSelfClosingTag fullTag = false →
  Forall isTextual texts →
  ∃ w0 w,
    parse TrimSpace p before = Ok w0 ∧
    parse TrimSpace p
      (before ++ EventStart name attrs fullTag :: texts ++ [EventEnd]) = Ok w ∧
    InnerText fuel (hp w) (length (elems (hp w0)))
    = Ok (string_of_list_byte (concat (map textOf texts))).
Proof.
  intros Hno Hsc Htexts.
  destruct (parse_ok TrimSpace p before) as (w0 & Hw0 & HInv0 & _).
  set (n := length (elems (hp w0))).
  destruct (start_opens TrimSpace p w0 name attrs fullTag HInv0 Hsc)
    as (w1 & e1 & Hw1 & HInv1 & _ & Hstack1 & _ & He1 & Hch1 & Hraw1 & _).
  destruct (textual_run TrimSpace p texts w1 n (stack (st w0)) e1
              HInv1 Hstack1 He1 Htexts)
    as (w2 & e2 & Hw2 & HInv2' & Hstack2 & _ & _ & He2 & Hraw2 & Hel2 & Hnil2).
  assert (Ha : allocated (hp w2) (ElemRef n))
    by (cbn [allocated]; eapply lookup_lt_Some, He2).
  destruct (checkAndStreamElement_ok p (hp w2) (sent w2) n Ha)
    as (h3 & Hcheck & _ & Hlen3 & _).
  destruct (checkAndStreamElement_cells _ _ _ _ _ _ Hcheck) as (_ & _ & Hcells).
  exists w0. eexists. split; [exact Hw0|]. split.
  { unfold parse in *. rewrite parse_loop_app by exact Hno.
    rewrite Hw0. bind_simpl. cbn [parse_loop]. rewrite Hw1. bind_simpl.
    rewrite parse_loop_app.
    - rewrite Hw2. bind_simpl. cbn [parse_loop handleEvent].
      unfold handleEndElement. rewrite Hstack2, Hcheck. bind_simpl. reflexivity.
    - intros Hin. rewrite Forall_forall in Htexts.
      exact (Htexts _ Hin). }
  cbn [hp].
  destruct (lookup_lt_is_Some_2 (elems h3) n) as [e3 He3];
    [rewrite Hlen3; exact Ha|].
  assert (Hsame : children e3 = children e2 ∧ rawContent e3 = rawContent e2).
  { destruct (Hcells n e3 He3) as (e & He & [[_ ->]|[_ [->| ->]]]);
      assert (e = e2) by congruence; subst e; split; reflexivity. }
  destruct Hsame as [Hch3 Hraw3].
  unfold InnerText. apply getElem_Ok in He3.
  change (length (elems (hp w0))) with n. rewrite He3. bind_simpl.
  rewrite Hch3, Hraw3.
  rewrite Hraw1 in Hraw2. cbn [app] in Hraw2.
  destruct (len (children e2) =? 0) eqn:Hz.
  - apply Z.eqb_eq in Hz. unfold len in Hz.
    assert (Hnil : children e2 = []) by (destruct (children e2); [reflexivity|cbn [length] in Hz; lia]).
    rewrite <- Hraw2, (Hnil2 (λ _, Hraw1) Hnil). reflexivity.
  - rewrite Hel2 by (rewrite Hch1; reflexivity). cbn [negb].
    rewrite Hraw2. reflexivity.
Qed.

(** X5 (depth).  After every event sequence the depth counter is the
    number of open elements; in particular an end tag with nothing open
    does not take it below zero. *)
Theorem depth_counts_open_elements
        (TrimSpace : list byte → list byte) (p : Parser) (events : list Event) :
  ∃ w, parse TrimSpace p events = Ok w ∧
       depth (st w) = len (stack (st w)) ∧ 0 ≤ depth (st w).
Proof.
  destruct (parse_ok TrimSpace p events) as (w & Hw & _).
  destruct (parse_Inv2 TrimSpace p events w Hw) as [_ (_ & _ & _ & _ & _ & Hd)].
  exists w. split; [exact Hw|]. split; [exact Hd|].
  rewrite Hd. apply len_nonneg.
Qed.

(** X6 (no element is sent twice).  After every event sequence, the
    elements sent on the output channel are pairwise distinct, and none of
    them is still open. *)
Theorem no_element_is_sent_twice
        (TrimSpace : list byte → list byte) (p : Parser) (events : list Event) :
  ∃ w, parse TrimSpace p events = Ok w ∧
       NoDup (sent w) ∧ Forall (closed_in w) (sent w).
Proof.
  destruct (parse_ok TrimSpace p events) as (w & Hw & HInv & Hsent).
  exists w. split; [exact Hw|]. split.
  - rewrite Hsent. apply NoDup_List_filter.
    apply (closedFrom_NoDup events 0 []); constructor.
  - pose proof (parse_loop_sent_closed TrimSpace p events initial w
                  Inv_initial Inv2_initial (Forall_nil_2 _) Hw) as Hclosed.
    destruct HInv as (_ & _ & _ & Hdet).
    rewrite Forall_forall in Hdet, Hclosed |- *. intros a Ha.
    split; [exact (Parent_allocated _ _ _ (Hdet a Ha))|exact (Hclosed a Ha)].
Qed.

Lemma docItemsHead_no_EOF : EventEOF ∉ docItemsHead.
Proof.
  intros H. unfold docItemsHead in H.
  repeat (apply elem_of_cons in H as [H|H]; [discriminate H|]).
  apply elem_of_nil in H. exact H.
Qed.

Lemma emitted_subtree_witness :
  (EventEOF ∉ docItemsHead) ∧
  ∃ w1 w2,
    parse asciiTrimSpace (NewParser ["item"%string] 0) docItemsHead = Ok w1 ∧
    parse asciiTrimSpace (NewParser ["item"%string] 0)
      (docItemsHead ++ docItemsTail) = Ok w2 ∧
    sent w1 `prefix_of` sent w2 ∧
    ∀ a, a ∈ sent w1 →
         elems (hp w2) !! a = elems (hp w1) !! a ∧
         ∀ fuel, InnerText fuel (hp w2) a = InnerText fuel (hp w1) a.
Proof.
  split; [exact docItemsHead_no_EOF|].
  apply (emitted_subtree_is_frozen asciiTrimSpace (NewParser ["item"%string] 0)
           docItemsHead docItemsTail docItemsHead_no_EOF).
Defined.

Lemma text_only_element_witness :
  (EventEOF ∉ [startTag "root"]) ∧
  isSelfClosingTag (bytesOf "<item>") = false ∧
  Forall isTextual [EventText (bytesOf "a < "); EventCData (bytesOf "<![CDATA[<b>]]>")] ∧
  ∃ w0 w,
    parse asciiTrimSpace (NewParser ["item"%string] 0) [startTag "root"] = Ok w0 ∧
    parse asciiTrimSpace (NewParser ["item"%string] 0)
      ([startTag "root"] ++
       EventStart (bytesOf "item") [] (bytesOf "<item>")
       :: [EventText (bytesOf "a < "); EventCData (bytesOf "<![CDATA[<b>]]>")]
       ++ [EventEnd]) = Ok w ∧
    InnerText 1 (hp w) (length (elems (hp w0)))
    = Ok (string_of_list_byte
            (concat (map textOf [EventText (bytesOf "a < ");
                                 EventCData (bytesOf "<![CDATA[<b>]]>")]))).
Proof.
  assert (H1 : EventEOF ∉ [startTag "root"]).
  { intros H. apply elem_of_cons in H as [H|H]; [discriminate H|].
    apply elem_of_nil in H. exact H. }
  assert (H2 : isSelfClosingTag (bytesOf "<item>") = false) by reflexivity.
  assert (H3 : Forall isTextual [EventText (bytesOf "a < ");
                                 EventCData (bytesOf "<![CDATA[<b>]]>")])
    by (repeat constructor).
  split; [exact H1|]. split; [exact H2|]. split; [exact H3|].
  apply (text_only_element_inner_text asciiTrimSpace (NewParser ["item"%string] 0)
           [startTag "root"] (bytesOf "item") [] (bytesOf "<item>") _ 1 H1 H2 H3).
Defined.

(** ** The cells of the memory after one event *)

Lemma same_identity_refl (e : XMLElement) : same_identity e e.
Proof. repeat split. Qed.

Lemma same_identity_trans (e1 e2 e3 : XMLElement) :
  same_identity e1 e2 → same_identity e2 e3 → same_identity e1 e3.
Proof.
  intros (A1 & A2 & A3 & A4 & A5 & A6) (B1 & B2 & B3 & B4 & B5 & B6).
  repeat split; congruence.
Qed.

Lemma effect_cells (p : Parser) (w w' : machine) :
  effect p w w' →
  ∀ q e', elems (hp w') !! q = Some e' →
    (∃ e, elems (hp w) !! q = Some e ∧ same_identity e e' ∧
          rawContent e `prefix_of` rawContent e' ∧
          (parent e' = parent e ∨ parent e' = None) ∧
          (children e' = children e ∨
           (∃ a, children e' = children e ++ [ContentRef a]) ∨
           (head (stack (st w)) = Some q ∧
            children e' = children e ++ [ElemRef (length (elems (hp w)))]))) ∨
    (q = length (elems (hp w)) ∧ children e' = [] ∧ rawContent e' = [] ∧
     (∃ fresh, born (hp w) (stack (st w)) fresh ∧ same_identity fresh e') ∧
     (parent e' = None ∨
      (∃ top, head (stack (st w)) = Some top ∧ parent e' = Some top))).
Proof.
  intros Heff.
  assert (Hlinked : ∀ fresh h1, 
            children fresh = [] → parent fresh = None → rawContent fresh = [] →
            born (hp w) (stack (st w)) fresh →
            linkToParent (hp w) (stack (st w)) fresh = Ok h1 →
            ∀ q e', elems h1 !! q = Some e' →
              (∃ e, elems (hp w) !! q = Some e ∧ same_identity e e' ∧
                    rawContent e `prefix_of` rawContent e' ∧
                    (parent e' = parent e ∨ parent e' = None) ∧
                    (children e' = children e ∨
                     (∃ a, children e' = children e ++ [ContentRef a]) ∨
                     (head (stack (st w)) = Some q ∧
                      children e' = children e ++ [ElemRef (length (elems (hp w)))]))) ∨
              (q = length (elems (hp w)) ∧ children e' = [] ∧ rawContent e' = [] ∧
               (∃ fresh, born (hp w) (stack (st w)) fresh ∧ same_identity fresh e') ∧
               (parent e' = None ∨
                (∃ top, head (stack (st w)) = Some top ∧ parent e' = Some top)))).
  { intros fresh h1 Hnil Hnone Hraw Hborn Hlink q e' He'.
    destruct (linkToParent_cells _ _ _ _ Hlink) as (_ & _ & Hcells).
    destruct (Hcells q e' He') as [[Hq Hnew]|(e & He & [[_ ->]|[Hhead ->]])].
    - right. split; [exact Hq|].
      destruct Hnew as [[_ ->]|(top & pe & Hhead & _ & ->)].
      + split; [exact Hnil|]. split; [exact Hraw|].
        split; [exists fresh; split; [exact Hborn|apply same_identity_refl]|].
        left. exact Hnone.
      + split; [exact Hnil|]. split; [exact Hraw|].
        split; [exists fresh; split; [exact Hborn|repeat split]|].
        right. exists top. split; [exact Hhead|reflexivity].
    - left. exists e. split; [exact He|]. split; [apply same_identity_refl|].
      split; [reflexivity|]. split; [left; reflexivity|]. left. reflexivity.
    - left. exists e. split; [exact He|]. split; [repeat split|].
      split; [reflexivity|]. split; [left; reflexivity|]. right. right.
      split; [exact Hhead|reflexivity]. }
  assert (Hchecked : ∀ h1 out elem h2 out',
            checkAndStreamElement p h1 out elem = Ok (h2, out') →
            ∀ q e', elems h2 !! q = Some e' →
              ∃ e, elems h1 !! q = Some e ∧ same_identity e e' ∧
                   rawContent e' = rawContent e ∧ children e' = children e ∧
                   (parent e' = parent e ∨ parent e' = None)).
  { intros h1 out elem h2 out' Hcheck q e' He'.
    destruct (checkAndStreamElement_cells _ _ _ _ _ _ Hcheck) as (_ & _ & Hcells).
    destruct (Hcells q e' He') as (e & He & [[_ ->]|[_ [->| ->]]]);
      exists e; (split; [exact He|]); repeat split; auto. }
  destruct Heff as [|top stk bytes kind h' Hstack Hpos Happ
                    |elem stk h' out' Hstack Hcheck
                    |fresh h' Hnil Hnone Hraw Hborn Hlink
                    |fresh h1 h2 out' Hnil Hnone Hraw Hborn Hlink Hcheck];
    intros q e' He'; cbn [withHeap hp st] in *.
  - left. exists e'. split; [exact He'|]. split; [apply same_identity_refl|].
    split; [reflexivity|]. split; [left; reflexivity|]. left. reflexivity.
  - destruct (appendContentNode_cells _ _ _ _ _ Happ) as (pe & _ & _ & _ & Hcells).
    left. destruct (Hcells q e' He') as (e & He & [[_ ->]|[_ ->]]);
      exists e; (split; [exact He|]).
    + split; [apply same_identity_refl|]. split; [reflexivity|].
      split; [left; reflexivity|]. left. reflexivity.
    + split; [repeat split|]. split; [apply prefix_app_r; reflexivity|].
      split; [left; reflexivity|]. right. left. eexists. reflexivity.
  - left. destruct (Hchecked _ _ _ _ _ Hcheck q e' He')
      as (e & He & Hid & Hraw & Hch & Hpar).
    exists e. split; [exact He|]. split; [exact Hid|].
    split; [rewrite Hraw; reflexivity|]. split; [exact Hpar|]. left. exact Hch.
  - exact (Hlinked fresh h' Hnil Hnone Hraw Hborn Hlink q e' He').
  - destruct (Hchecked _ _ _ _ _ Hcheck q e' He')
      as (e1 & He1 & Hid & Hraw' & Hch & Hpar).
    destruct (Hlinked fresh h1 Hnil Hnone Hraw Hborn Hlink q e1 He1)
      as [(e & He & Hid0 & Hraw0 & Hpar0 & Hch0)
         |(Hq & Hnil1 & Hraw1 & (f & Hf & Hidf) & Hpar1)].
    + left. exists e. split; [exact He|].
      split; [exact (same_identity_trans _ _ _ Hid0 Hid)|].
      split; [rewrite Hraw'; exact Hraw0|].
      split; [destruct Hpar as [-> | ->]; [exact Hpar0|right; reflexivity]|].
      rewrite Hch. exact Hch0.
    + right. split; [exact Hq|]. split; [rewrite Hch; exact Hnil1|].
      split; [rewrite Hraw'; exact Hraw1|].
      split; [exists f; split; [exact Hf|exact (same_identity_trans _ _ _ Hidf Hid)]|].
      destruct Hpar as [-> | ->]; [exact Hpar1|left; reflexivity].
Qed.

Lemma effect_length (p : Parser) (w w' : machine) :
  effect p w w' →
  (length (elems (hp w)) ≤ length (elems (hp w')))%nat.
Proof.
  intros Heff.
  destruct Heff as [|top stk bytes kind h' Hstack Hpos Happ
                    |elem stk h' out' Hstack Hcheck
                    |fresh h' Hnil Hnone Hraw Hborn Hlink
                    |fresh h1 h2 out' Hnil Hnone Hraw Hborn Hlink Hcheck];
    cbn [withHeap hp].
  - lia.
  - destruct (appendContentNode_cells _ _ _ _ _ Happ) as (pe & _ & _ & Hlen & _). lia.
  - destruct (checkAndStreamElement_cells _ _ _ _ _ _ Hcheck) as (_ & Hlen & _). lia.
  - destruct (linkToParent_cells _ _ _ _ Hlink) as (_ & Hlen & _). lia.
  - destruct (linkToParent_cells _ _ _ _ Hlink) as (_ & Hlen1 & _).
    destruct (checkAndStreamElement_cells _ _ _ _ _ _ Hcheck) as (_ & Hlen2 & _). lia.
Qed.

Lemma Inv3_initial : Inv3 initial.
Proof.
  split; [intros a e H; discriminate|].
  split; intros q e c ec H; discriminate.
Qed.

Lemma effect_Inv3 (p : Parser) (w w' : machine) :
  Inv w → Inv2 w → Inv3 w → effect p w w' → Inv3 w'.
Proof.
  intros (Hstk & _) (_ & Hch & _) (Hid & Hsc & Hcp) Heff.
  pose proof (effect_cells p w w' Heff) as Hcells.
  assert (Hbelow : ∀ q e c, elems (hp w) !! q = Some e → ElemRef c ∈ children e →
                            (c < length (elems (hp w)))%nat).
  { intros q e c He Hin. exact (proj2 (Hch q e _ He Hin)). }
  (* the element children of a cell: the old ones, or the new element under
     the innermost open element *)
  assert (Hkids : ∀ q e' c, elems (hp w') !! q = Some e' → ElemRef c ∈ children e' →
            ∃ e, elems (hp w) !! q = Some e ∧ same_identity e e' ∧
                 (ElemRef c ∈ children e ∨
                  (c = length (elems (hp w)) ∧ head (stack (st w)) = Some q))).
  { intros q e' c He' Hin.
    destruct (Hcells q e' He')
      as [(e & He & Hsame & _ & _ & Hkind)|(_ & Hnil & _)].
    - exists e. split; [exact He|]. split; [exact Hsame|].
      destruct Hkind as [Hk|[[a Hk]|[Hhead Hk]]]; rewrite Hk in Hin.
      + left. exact Hin.
      + apply elem_of_app in Hin as [Hin|Hin]; [left; exact Hin|].
        apply list_elem_of_singleton in Hin. discriminate.
      + apply elem_of_app in Hin as [Hin|Hin]; [left; exact Hin|].
        apply list_elem_of_singleton in Hin. injection Hin as ->.
        right. split; [reflexivity|exact Hhead].
    - rewrite Hnil in Hin. apply elem_of_nil in Hin. contradiction. }
  split; [|split].
  - intros a e' He'.
    destruct (Hcells a e' He')
      as [(e & He & (H1 & H2 & H3 & H4 & H5 & _) & _)
         |(_ & _ & _ & (f & (B1 & _ & B3) & (H1 & H2 & H3 & H4 & H5 & _)) & _)].
    + destruct (Hid a e He) as [I1 I2]. rewrite H1, H2, H3, H4, H5. auto.
    + rewrite H1, H2, H3, H4, H5. auto.
  - intros q e' c ec' He' Hin Hec'.
    destruct (Hkids q e' c He' Hin) as (e & He & (_ & _ & _ & _ & Hns & _) & Hkind).
    rewrite Hns.
    destruct Hkind as [Hold|[-> Hhead]].
    + destruct (Hcells c ec' Hec')
        as [(ec & Hec & (_ & _ & _ & _ & Hnsc & _) & _)|(Hq & _)].
      * rewrite Hnsc. exact (Hsc q e c ec He Hold Hec).
      * specialize (Hbelow q e c He Hold). lia.
    + destruct (Hcells _ ec' Hec')
        as [(ec & Hec & _)
           |(_ & _ & _ & (f & (_ & [decl Hdecl] & _) & (_ & _ & _ & _ & Hnsc & _)) & _)].
      * apply lookup_lt_Some in Hec. lia.
      * exists decl. rewrite Hnsc, Hdecl. unfold parentScope.
        destruct (stack (st w)) as [|top stk]; [discriminate|].
        injection Hhead as ->. rewrite He. reflexivity.
  - intros q e' c ec' He' Hin Hec'.
    destruct (Hkids q e' c He' Hin) as (e & He & _ & Hkind).
    destruct Hkind as [Hold|[-> Hhead]].
    + destruct (Hcells c ec' Hec') as [(ec & Hec & _ & _ & Hpar & _)|(Hq & _)].
      * destruct Hpar as [Hpar|Hpar]; [|right; exact Hpar].
        rewrite Hpar. exact (Hcp q e c ec He Hold Hec).
      * specialize (Hbelow q e c He Hold). lia.
    + destruct (Hcells _ ec' Hec')
        as [(ec & Hec & _)|(_ & _ & _ & _ & [Hpar|(top & Htop & Hpar)])].
      * apply lookup_lt_Some in Hec. lia.
      * right. exact Hpar.
      * left. congruence.
Qed.

Section IdentityRuns.

Variable TrimSpace : list byte → list byte.

Lemma parse_Inv3 (p : Parser) (events : list Event) (w : machine) :
  parse TrimSpace p events = Ok w → Inv3 w.
Proof.
  intros Hrun.
  assert (HP : Inv2 w ∧ Inv3 w); [|apply HP].
  apply (parse_loop_keeps TrimSpace (λ w, Inv2 w ∧ Inv3 w) p)
    with (4 := Hrun); [|exact Inv_initial|split; [exact Inv2_initial|exact Inv3_initial]].
  intros w0 w1 HInv [H2 H3] Heff.
  split; [exact (effect_Inv2 p w0 w1 HInv H2 Heff)|].
  exact (effect_Inv3 p w0 w1 HInv H2 H3 Heff).
Qed.

End IdentityRuns.

(** ** Qualified names *)

Lemma string_of_list_byte_app (a b : list byte) :
  string_of_list_byte (a ++ b)
  = (string_of_list_byte a ++ string_of_list_byte b)%string.
Proof.
  induction a as [|c a IH]; [reflexivity|].
  change (string_of_list_byte ((c :: a) ++ b))
    with (String (Ascii.ascii_of_byte c) (string_of_list_byte (a ++ b))).
  rewrite IH. reflexivity.
Qed.

Lemma IndexByte_from_spec (b : list byte) (c : byte) (i : Z) :
  (IndexByte_from b c i = -1 ∧ 0 ≤ i → Forall (λ d, d ≠ c) b) ∧
  (0 ≤ i →
   IndexByte_from b c i = -1 ∨
   ∃ l r, b = l ++ c :: r ∧ Forall (λ d, d ≠ c) l ∧
          IndexByte_from b c i = i + len l).
Proof.
  revert i. induction b as [|d b IH]; intros i; cbn [IndexByte_from].
  - split; [constructor|]. intros _. left. reflexivity.
  - destruct (Byte.eqb d c) eqn:E.
    + apply byte_dec_bl in E. subst d. split; [lia|].
      intros Hi. right. exists [], b. split; [reflexivity|].
      split; [constructor|]. change (len []) with 0. lia.
    + apply Byte.eqb_false in E. destruct (IH (i + 1)) as [IH1 IH2]. split.
      * intros [Hm Hi]. constructor; [exact E|]. apply IH1. lia.
      * intros Hi. destruct (IH2 ltac:(lia)) as [Hm|(l & r & -> & Hl & Hk)];
          [left; exact Hm|].
        right. exists (d :: l), r. split; [reflexivity|].
        split; [constructor; assumption|].
        rewrite Hk. unfold len. cbn [length]. lia.
Qed.

Lemma IndexByte_absent (l : list byte) (c : byte) (i : Z) :
  Forall (λ d, d ≠ c) l → IndexByte_from l c i = -1.
Proof.
  revert i. induction l as [|d l IH]; intros i Hl; [reflexivity|].
  apply Forall_cons in Hl as [Hd Hl]. cbn [IndexByte_from].
  destruct (Byte.eqb d c) eqn:E; [apply byte_dec_bl in E; contradiction|].
  apply IH, Hl.
Qed.

(** The two results of [splitName] are the parts of the name around its
    first colon. *)
Lemma splitName_parts (s pre loc : string) :
  splitName s = Ok (pre, loc) →
  (IndexByte s bColon = -1 ∧ pre = EmptyString ∧ loc = s) ∨
  (s = (pre ++ ":" ++ loc)%string ∧ IndexByte pre bColon = -1).
Proof.
  unfold splitName, IndexByte, strTo, strFrom.
  set (b := list_byte_of_string s).
  destruct (proj2 (IndexByte_from_spec b bColon 0) ltac:(lia))
    as [Hm|(l & r & Hb & Hl & Hk)].
  - rewrite Hm. cbn. intros [= <- <-]. left. auto.
  - rewrite Hk. pose proof (len_nonneg l) as Hnn.
    replace (0 + len l =? -1) with false by (symmetry; apply Z.eqb_neq; lia).
    cbn [negb].
    assert (Hlen : len b = len l + 1 + len r).
    { rewrite Hb, len_app. unfold len. cbn [length]. lia. }
    pose proof (len_nonneg r) as Hnr.
    rewrite slice_ok by lia. bind_simpl. rewrite slice_ok by lia. bind_simpl.
    intros [= <- <-]. right.
    rewrite Hb. rewrite !Z.sub_0_r, Z.add_0_l. change (Z.to_nat 0) with 0%nat.
    rewrite drop_0. unfold len. rewrite Nat2Z.id.
    rewrite take_app_length.
    replace (Z.to_nat (Z.of_nat (length (l ++ bColon :: r)) - (Z.of_nat (length l) + 1)))
      with (length r) by (rewrite length_app; cbn [length]; lia).
    replace (Z.to_nat (Z.of_nat (length l) + 1)) with (length l + 1)%nat by lia.
    rewrite <- drop_drop, drop_app_length. cbn [drop].
    rewrite firstn_all. split.
    + rewrite <- (string_of_list_byte_of_string s). fold b. rewrite Hb.
      rewrite string_of_list_byte_app. reflexivity.
    + rewrite list_byte_of_string_of_list_byte. apply IndexByte_absent, Hl.
Qed.

Lemma scopeOf_inherits (decl : option (gmap string string))
      (m : gmap string string) :
  ∃ m', scopeOf decl (Some m) = Some m' ∧
        ∀ k, is_Some (m !! k) → is_Some (m' !! k).
Proof.
  unfold scopeOf. destruct decl as [d|]; [|eauto].
  destruct (0 <? Z.of_nat (size d)); [|eauto].
  exists (d ∪ m). split; [reflexivity|]. intros k [v Hv].
  rewrite lookup_union, Hv. destruct (d !! k); cbn; eauto.
Qed.

(** X7 (qualified names).  After every event sequence, for every element:
    if its name has no colon the prefix is empty and the local name is the
    name, otherwise the name is prefix, colon, local name and the prefix
    has no colon; and the namespace URI is what the prefix maps to in the
    element's own scope, empty when unmapped. *)
Theorem element_names_split_at_first_colon
        (TrimSpace : list byte → list byte) (p : Parser) (events : list Event) :
  ∃ w, parse TrimSpace p events = Ok w ∧
       ∀ a e, elems (hp w) !! a = Some e →
         ((IndexByte (Name e) bColon = -1 ∧ prefix_ e = EmptyString ∧
           localName e = Name e) ∨
          (Name e = (prefix_ e ++ ":" ++ localName e)%string ∧
           IndexByte (prefix_ e) bColon = -1)) ∧
         namespaceURI e = resolve (namespaces e) (prefix_ e).
Proof.
  destruct (parse_ok TrimSpace p events) as (w & Hw & _).
  destruct (parse_Inv3 TrimSpace p events w Hw) as (Hid & _).
  exists w. split; [exact Hw|]. intros a e He.
  destruct (Hid a e He) as [Hsplit Huri].
  split; [exact (splitName_parts _ _ _ Hsplit)|exact Huri].
Qed.

(** X8 (namespace scopes go down the tree).  After every event sequence,
    for every element and every child element it lists: every prefix the
    parent's scope maps is mapped by the child's scope, and a parent with a
    scope never has a child without one. *)
Theorem namespace_scope_is_inherited
        (TrimSpace : list byte → list byte) (p : Parser) (events : list Event) :
  ∃ w, parse TrimSpace p events = Ok w ∧
       ∀ q e c ec m,
         elems (hp w) !! q = Some e → ElemRef c ∈ children e →
         elems (hp w) !! c = Some ec → namespaces e = Some m →
         ∃ m', namespaces ec = Some m' ∧
               ∀ k, is_Some (m !! k) → is_Some (m' !! k).
Proof.
  destruct (parse_ok TrimSpace p events) as (w & Hw & _).
  destruct (parse_Inv3 TrimSpace p events w Hw) as (_ & Hsc & _).
  exists w. split; [exact Hw|]. intros q e c ec m He Hin Hec Hm.
  destruct (Hsc q e c ec He Hin Hec) as [decl Hdecl].
  rewrite Hdecl, Hm. apply scopeOf_inherits.
Qed.

(** ** Moving there and back *)

(** On a tree with the invariants of the assembler, a listed child has
    the lister as parent, or none. *)
Lemma listed_parent (h : heap) (q : nat) (e : XMLElement) (n : XMLNode) :
  children_ok h → child_parent_ok h →
  elems h !! q = Some e → n ∈ children e → allocated h n →
  Parent h n = Ok (Some q) ∨ Parent h n = Ok None.
Proof.
  intros Hch Hcp He Hin Ha. destruct n as [c|a]; cbn [Parent].
  - cbn [allocated] in Ha. apply lookup_lt_is_Some in Ha as [ec Hec].
    pose proof Hec as Hget. apply getElem_Ok in Hget. rewrite Hget. bind_simpl.
    destruct (Hcp q e c ec He Hin Hec) as [-> | ->]; auto.
  - destruct (Hch q e _ He Hin) as (c & Hc & Hpar).
    apply getContent_Ok in Hc. rewrite Hc. bind_simpl. rewrite Hpar. auto.
Qed.

Lemma MoveToNext_inv (h : heap) (nav nav1 : elementNavigator) :
  MoveToNext h nav = Ok (true, nav1) →
  ∃ q idx pe n1,
    attributeIndex nav = -1 ∧
    Parent h (currNode nav) = Ok (Some q) ∧
    getSiblingIndex h (currNode nav) = Ok idx ∧
    elems h !! q = Some pe ∧
    index (children pe) (idx + 1) = Ok n1 ∧
    nav1 = moveTo nav n1.
Proof.
  unfold MoveToNext.
  destruct (attributeIndex nav =? -1) eqn:Hat; cbn [negb]; [|discriminate].
  apply Z.eqb_eq in Hat.
  destruct (Parent h (currNode nav)) as [[q|]| |]; bind_simpl; [|discriminate..].
  destruct (getSiblingIndex h (currNode nav)) as [idx| |]; bind_simpl;
    [|discriminate..].
  destruct (getElem h q) as [pe| |] eqn:Hpe; bind_simpl; [|discriminate..].
  destruct (len (children pe) <=? idx + 1); [discriminate|].
  destruct (index (children pe) (idx + 1)) as [n1| |] eqn:Hn1; bind_simpl;
    [|discriminate..].
  intros [= <-]. apply getElem_Ok in Hpe. exists q, idx, pe, n1. auto 10.
Qed.

Lemma MoveToPrevious_inv (h : heap) (nav nav1 : elementNavigator) :
  MoveToPrevious h nav = Ok (true, nav1) →
  ∃ q idx pe n1,
    attributeIndex nav = -1 ∧
    Parent h (currNode nav) = Ok (Some q) ∧
    getSiblingIndex h (currNode nav) = Ok idx ∧ 0 < idx ∧
    elems h !! q = Some pe ∧
    index (children pe) (idx - 1) = Ok n1 ∧
    nav1 = moveTo nav n1.
Proof.
  unfold MoveToPrevious.
  destruct (attributeIndex nav =? -1) eqn:Hat; cbn [negb]; [|discriminate].
  apply Z.eqb_eq in Hat.
  destruct (Parent h (currNode nav)) as [[q|]| |]; bind_simpl; [|discriminate..].
  destruct (getSiblingIndex h (currNode nav)) as [idx| |]; bind_simpl;
    [|discriminate..].
  destruct (idx <=? 0) eqn:Hle; [discriminate|]. apply Z.leb_gt in Hle.
  destruct (getElem h q) as [pe| |] eqn:Hpe; bind_simpl; [|discriminate..].
  destruct (index (children pe) (idx - 1)) as [n1| |] eqn:Hn1; bind_simpl;
    [|discriminate..].
  intros [= <-]. apply getElem_Ok in Hpe. exists q, idx, pe, n1. auto 10.
Qed.

Lemma MoveToChild_inv (h : heap) (nav nav1 : elementNavigator) :
  MoveToChild h nav = Ok (true, nav1) →
  ∃ e el n1,
    attributeIndex nav = -1 ∧ currElement nav = Some e ∧
    elems h !! e = Some el ∧ index (children el) 0 = Ok n1 ∧
    nav1 = moveTo nav n1.
Proof.
  unfold MoveToChild.
  destruct (attributeIndex nav =? -1) eqn:Hat; cbn [negb]; [|discriminate].
  apply Z.eqb_eq in Hat.
  destruct (currElement nav) as [e|]; [|discriminate].
  destruct (getElem h e) as [el| |] eqn:Hel; bind_simpl; [|discriminate..].
  destruct (0 <? len (children el)); [|discriminate].
  destruct (index (children el) 0) as [n1| |] eqn:Hn1; bind_simpl;
    [|discriminate..].
  intros [= <-]. apply getElem_Ok in Hel. exists e, el, n1. auto 10.
Qed.

Section RoundTrips.

Variable h : heap.
Hypothesis Hsib : siblings_ok h.
Hypothesis Hpar : parents_ok h.
Hypothesis Hch : children_ok h.
Hypothesis Hcp : child_parent_ok h.

Lemma index_elem_of {A} (l : list A) (i : Z) (x : A) :
  index l i = Ok x → x ∈ l.
Proof.
  intros H. apply index_lookup in H as [_ H].
  eapply list_elem_of_lookup_2, H.
Qed.

Lemma next_then_previous (nav nav1 : elementNavigator) :
  onNode nav → MoveToNext h nav = Ok (true, nav1) →
  MoveToPrevious h nav1 = Ok (true, nav) ∨
  (Parent h (currNode nav1) = Ok None ∧
   MoveToPrevious h nav1 = Ok (false, nav1)).
Proof.
  intros Hon Hmove.
  destruct (MoveToNext_inv h nav nav1 Hmove)
    as (q & idx & pe & n1 & Hat & HP & Hidx & Hpe & Hn1 & ->).
  destruct (parents_ok_at h _ q idx Hpar HP Hidx) as (pe' & Hget & Hpe' & Hr & Hself).
  assert (pe' = pe) by congruence. subst pe'.
  assert (Hi1 : getSiblingIndex h n1 = Ok (idx + 1)) by exact (Hsib q pe _ _ Hget Hn1).
  assert (Hal : allocated h n1).
  { destruct n1 as [c|c]; cbn [allocated getSiblingIndex] in *.
    - destruct (getElem h c) as [x| |] eqn:E; [|discriminate..].
      apply getElem_Ok in E. eapply lookup_lt_Some, E.
    - destruct (getContent h c) as [x| |] eqn:E; [|discriminate..].
      apply getContent_Ok in E. eapply lookup_lt_Some, E. }
  unfold MoveToPrevious. cbn [moveTo attributeIndex currNode].
  rewrite Hat. cbn [Z.eqb negb].
  destruct (listed_parent h q pe n1 Hch Hcp Hpe (index_elem_of _ _ _ Hn1) Hal)
    as [HP1|HP1]; rewrite HP1; bind_simpl.
  - left. rewrite Hi1. bind_simpl.
    replace (idx + 1 <=? 0) with false by (symmetry; apply Z.leb_gt; lia).
    rewrite Hget. bind_simpl.
    replace (idx + 1 - 1) with idx by lia.
    assert (Hback : index (children pe) idx = Ok (currNode nav))
      by (apply index_lookup; split; [lia|exact Hself]).
    rewrite Hback. bind_simpl. do 2 f_equal.
    unfold moveTo. cbn [root attributeIndex].
    destruct nav as [r n ce ai]. destruct Hon as [Ha Hc]. cbn in *.
    subst. reflexivity.
  - right. split; reflexivity.
Qed.

Lemma previous_then_next (nav nav1 : elementNavigator) :
  onNode nav → MoveToPrevious h nav = Ok (true, nav1) →
  MoveToNext h nav1 = Ok (true, nav) ∨
  (Parent h (currNode nav1) = Ok None ∧
   MoveToNext h nav1 = Ok (false, nav1)).
Proof.
  intros Hon Hmove.
  destruct (MoveToPrevious_inv h nav nav1 Hmove)
    as (q & idx & pe & n1 & Hat & HP & Hidx & Hpos & Hpe & Hn1 & ->).
  destruct (parents_ok_at h _ q idx Hpar HP Hidx) as (pe' & Hget & Hpe' & Hr & Hself).
  assert (pe' = pe) by congruence. subst pe'.
  assert (Hi1 : getSiblingIndex h n1 = Ok (idx - 1)) by exact (Hsib q pe _ _ Hget Hn1).
  assert (Hal : allocated h n1).
  { destruct n1 as [c|c]; cbn [allocated getSiblingIndex] in *.
    - destruct (getElem h c) as [x| |] eqn:E; [|discriminate..].
      apply getElem_Ok in E. eapply lookup_lt_Some, E.
    - destruct (getContent h c) as [x| |] eqn:E; [|discriminate..].
      apply getContent_Ok in E. eapply lookup_lt_Some, E. }
  unfold MoveToNext. cbn [moveTo attributeIndex currNode].
  rewrite Hat. cbn [Z.eqb negb].
  destruct (listed_parent h q pe n1 Hch Hcp Hpe (index_elem_of _ _ _ Hn1) Hal)
    as [HP1|HP1]; rewrite HP1; bind_simpl.
  - left. rewrite Hi1. bind_simpl. rewrite Hget. bind_simpl.
    replace (idx - 1 + 1) with idx by lia.
    replace (len (children pe) <=? idx) with false by (symmetry; apply Z.leb_gt; lia).
    assert (Hback : index (children pe) idx = Ok (currNode nav))
      by (apply index_lookup; split; [lia|exact Hself]).
    rewrite Hback. bind_simpl. do 2 f_equal.
    unfold moveTo. cbn [root attributeIndex].
    destruct nav as [r n ce ai]. destruct Hon as [Ha Hc]. cbn in *.
    subst. reflexivity.
  - right. split; reflexivity.
Qed.

Lemma child_then_parent (nav nav1 : elementNavigator) :
  onNode nav → MoveToChild h nav = Ok (true, nav1) →
  MoveToParent h nav1 = Ok (true, nav) ∨
  (Parent h (currNode nav1) = Ok None ∧
   MoveToParent h nav1 = Ok (false, nav1)).
Proof.
  intros Hon Hmove.
  destruct (MoveToChild_inv h nav nav1 Hmove)
    as (e & el & n1 & Hat & Hce & Hel & Hn1 & ->).
  pose proof Hel as Hget. apply getElem_Ok in Hget.
  assert (Hi1 : getSiblingIndex h n1 = Ok 0) by exact (Hsib e el _ _ Hget Hn1).
  assert (Hal : allocated h n1).
  { destruct n1 as [c|c]; cbn [allocated getSiblingIndex] in *.
    - destruct (getElem h c) as [x| |] eqn:E; [|discriminate..].
      apply getElem_Ok in E. eapply lookup_lt_Some, E.
    - destruct (getContent h c) as [x| |] eqn:E; [|discriminate..].
      apply getContent_Ok in E. eapply lookup_lt_Some, E. }
  unfold MoveToParent. cbn [moveTo attributeIndex currNode].
  rewrite Hat. cbn [Z.eqb negb].
  destruct (listed_parent h e el n1 Hch Hcp Hel (index_elem_of _ _ _ Hn1) Hal)
    as [HP1|HP1]; rewrite HP1; bind_simpl.
  - left. do 2 f_equal. cbn [root].
    destruct nav as [r n ce ai]. destruct Hon as [Ha Hc].
    cbn [attributeIndex currElement currNode root] in *.
    rewrite Hce in Hc. destruct n as [x|x]; cbn [asElement] in Hc;
      [|discriminate].
    injection Hc as <-. rewrite Hce, Ha. reflexivity.
  - right. split; reflexivity.
Qed.

End RoundTrips.

(** X9 (there and back).  After every event sequence, for every cursor on
    a node of the memory: a successful move to the next sibling followed
    by a move to the previous sibling returns to the same cursor, and so do
    previous then next, and first child then parent; the only exception is
    a destination whose parent pointer is nil (an element that was sent),
    from which the move back fails and leaves the cursor there. *)
Theorem moves_return_or_stop_at_detached
        (TrimSpace : list byte → list byte) (p : Parser) (events : list Event) :
  ∃ w, parse TrimSpace p events = Ok w ∧
       ∀ nav nav1, onNode nav →
         (MoveToNext (hp w) nav = Ok (true, nav1) →
          MoveToPrevious (hp w) nav1 = Ok (true, nav) ∨
          (Parent (hp w) (currNode nav1) = Ok None ∧
           MoveToPrevious (hp w) nav1 = Ok (false, nav1))) ∧
         (MoveToPrevious (hp w) nav = Ok (true, nav1) →
          MoveToNext (hp w) nav1 = Ok (true, nav) ∨
          (Parent (hp w) (currNode nav1) = Ok None ∧
           MoveToNext (hp w) nav1 = Ok (false, nav1))) ∧
         (MoveToChild (hp w) nav = Ok (true, nav1) →
          MoveToParent (hp w) nav1 = Ok (true, nav) ∨
          (Parent (hp w) (currNode nav1) = Ok None ∧
           MoveToParent (hp w) nav1 = Ok (false, nav1))).
Proof.
  destruct (parse_ok TrimSpace p events) as (w & Hw & (_ & Hs & Hp & _) & _).
  destruct (parse_Inv2 TrimSpace p events w Hw) as [_ (_ & Hch & _)].
  destruct (parse_Inv3 TrimSpace p events w Hw) as (_ & _ & Hcp).
  exists w. split; [exact Hw|]. intros nav nav1 Hon.
  split; [|split].
  - apply next_then_previous; assumption.
  - apply previous_then_next; assumption.
  - apply child_then_parent; assumption.
Qed.

(** ** The attribute axis *)

Lemma onAttribute_self (nav : elementNavigator) :
  onAttribute nav (attributeIndex nav) = nav.
Proof. destruct nav. reflexivity. Qed.

Lemma attributeSteps_walk (h : heap) (nav : elementNavigator) (e : nat)
      (el : XMLElement) (k : nat) :
  attributeIndex nav = -1 → currElement nav = Some e →
  elems h !! e = Some el → (k ≤ length (Attributes el))%nat →
  attributeSteps k h nav = Ok (true, onAttribute nav (Z.of_nat k - 1)).
Proof.
  intros Hat Hce Hel. induction k as [|k IH]; intros Hk.
  - cbn [attributeSteps]. replace (Z.of_nat 0 - 1) with (attributeIndex nav) by lia.
    rewrite onAttribute_self. reflexivity.
  - cbn [attributeSteps]. rewrite IH by lia.
    unfold MoveToNextAttribute. cbn [onAttribute currElement attributeIndex root currNode].
    rewrite Hce. apply getElem_Ok in Hel. rewrite Hel. bind_simpl.
    unfold len.
    replace (Z.of_nat (length (Attributes el)) - 1 <=? Z.of_nat k - 1) with false
      by (symmetry; apply Z.leb_gt; lia).
    replace (Z.of_nat (S k) - 1) with (Z.of_nat k - 1 + 1) by lia.
    unfold onAttribute. rewrite Hce. reflexivity.
Qed.

(** X10 (attribute axis).  From a cursor on an element with [n]
    attributes, [k ≤ n] calls of [MoveToNextAttribute] all succeed and leave
    the cursor on attribute [k - 1]; call [n + 1] fails and leaves the
    cursor on the last attribute.  On attribute [i] the cursor reports an
    attribute node, its value is the value of the [i]-th attribute, and
    [MoveToParent] returns to the element. *)
Theorem attribute_axis_visits_each_attribute_once
        (h : heap) (nav : elementNavigator) (e : nat) (el : XMLElement) :
  attributeIndex nav = -1 → currElement nav = Some e →
  elems h !! e = Some el →
  (∀ k, (k ≤ length (Attributes el))%nat →
        attributeSteps k h nav = Ok (true, onAttribute nav (Z.of_nat k - 1))) ∧
  attributeSteps (S (length (Attributes el))) h nav =
    Ok (false, onAttribute nav (len (Attributes el) - 1)) ∧
  (∀ i a fuel, Attributes el !! i = Some a →
     NavNodeType h (onAttribute nav (Z.of_nat i)) = Ok AttributeNode ∧
     Value fuel h (onAttribute nav (Z.of_nat i)) = Ok (AttrValue a) ∧
     MoveToParent h (onAttribute nav (Z.of_nat i)) = Ok (true, nav)).
Proof.
  intros Hat Hce Hel. split; [|split].
  - intros k Hk. eapply attributeSteps_walk; eassumption.
  - cbn [attributeSteps].
    rewrite (attributeSteps_walk h nav e el _ Hat Hce Hel) by lia.
    unfold MoveToNextAttribute. cbn [onAttribute currElement attributeIndex].
    rewrite Hce. pose proof Hel as Hget. apply getElem_Ok in Hget.
    rewrite Hget. bind_simpl. unfold len.
    rewrite Z.leb_refl. reflexivity.
  - intros i a fuel Ha.
    assert (Hneq : (Z.of_nat i =? -1) = false) by (apply Z.eqb_neq; lia).
    pose proof Hel as Hget. apply getElem_Ok in Hget.
    split; [|split].
    + unfold NavNodeType. cbn [onAttribute attributeIndex]. rewrite Hneq.
      reflexivity.
    + unfold Value. cbn [onAttribute attributeIndex currElement].
      rewrite Hneq. cbn [negb]. rewrite Hce, Hget. bind_simpl.
      assert (Hidx : index (Attributes el) (Z.of_nat i) = Ok a).
      { apply index_lookup. pose proof (lookup_lt_Some _ _ _ Ha). unfold len.
        split; [lia|]. rewrite Nat2Z.id. exact Ha. }
      rewrite Hidx. reflexivity.
    + unfold MoveToParent. cbn [onAttribute attributeIndex currElement root currNode].
      rewrite Hneq. cbn [negb]. rewrite <- Hat. destruct nav. reflexivity.
Qed.

Lemma attribute_axis_witness :
  attributeIndex (rootCursor 0) = -1 ∧
  currElement (rootCursor 0) = Some 0%nat ∧
  elems heapAttrs !! 0%nat = Some itemWithAttrs ∧
  (∀ k, (k ≤ length (Attributes itemWithAttrs))%nat →
        attributeSteps k heapAttrs (rootCursor 0) =
          Ok (true, onAttribute (rootCursor 0) (Z.of_nat k - 1))) ∧
  attributeSteps (S (length (Attributes itemWithAttrs))) heapAttrs (rootCursor 0) =
    Ok (false, onAttribute (rootCursor 0) (len (Attributes itemWithAttrs) - 1)) ∧
  (∀ i a fuel, Attributes itemWithAttrs !! i = Some a →
     NavNodeType heapAttrs (onAttribute (rootCursor 0) (Z.of_nat i)) =
       Ok AttributeNode ∧
     Value fuel heapAttrs (onAttribute (rootCursor 0) (Z.of_nat i)) =
       Ok (AttrValue a) ∧
     MoveToParent heapAttrs (onAttribute (rootCursor 0) (Z.of_nat i)) =
       Ok (true, rootCursor 0)).
Proof.
  split; [reflexivity|]. split; [reflexivity|]. split; [reflexivity|].
  exact (attribute_axis_visits_each_attribute_once
           heapAttrs (rootCursor 0) 0 itemWithAttrs eq_refl eq_refl eq_refl).
Defined.

(** ** Names through the cursor *)

(** X11 (names through the cursor).  On an attribute the cursor splits
    the attribute name at its first colon: [Prefix] and [LocalName] are the
    two parts, and the namespace is the URI the owning element's scope
    binds to the prefix; an attribute without a colon has the empty prefix,
    its whole name as local name and no namespace, whatever the default
    namespace in scope. *)
Theorem attribute_names_split_at_first_colon
        (h : heap) (nav : elementNavigator) (e : nat)
        (el : XMLElement) (i : nat) (a : XMLAttribute) :
  currElement nav = Some e → elems h !! e = Some el →
  attributeIndex nav = Z.of_nat i → Attributes el !! i = Some a →
  ∃ pre loc,
    Prefix h nav = Ok pre ∧ LocalName h nav = Ok loc ∧
    ((IndexByte (AttrName a) bColon = -1 ∧ pre = EmptyString ∧
      loc = AttrName a ∧ NamespaceURL h nav = Ok EmptyString) ∨
     (AttrName a = (pre ++ ":" ++ loc)%string ∧
      IndexByte pre bColon = -1 ∧
      NamespaceURL h nav = Ok (resolve (namespaces el) pre))).
Proof.
  intros Hce Hel Hat Ha.
  assert (Hneq : (attributeIndex nav =? -1) = false) by (apply Z.eqb_neq; lia).
  assert (Hidx : index (Attributes el) (attributeIndex nav) = Ok a).
  { apply index_lookup. pose proof (lookup_lt_Some _ _ _ Ha). unfold len.
    rewrite Hat. split; [lia|]. rewrite Nat2Z.id. exact Ha. }
  apply getElem_Ok in Hel.
  unfold Prefix, LocalName, NamespaceURL, currentAttribute.
  rewrite Hneq, Hce, Hel. cbn [negb]. bind_simpl. rewrite Hidx. bind_simpl.
  destruct (splitName_ok (AttrName a)) as [[pre loc] Hsplit].
  pose proof (splitName_parts _ _ _ Hsplit) as Hparts.
  unfold splitName in Hsplit.
  destruct (IndexByte (AttrName a) bColon =? -1) eqn:Hcolon; cbn [negb] in *.
  - injection Hsplit as <- <-. apply Z.eqb_eq in Hcolon.
    exists EmptyString, (AttrName a). split; [reflexivity|].
    split; [reflexivity|]. left. auto.
  - destruct (strTo (AttrName a) (IndexByte (AttrName a) bColon))
      as [pre'| |]; bind_simpl; cbn [mbind result_bind] in Hsplit;
      [|discriminate..].
    destruct (strFrom (AttrName a) (IndexByte (AttrName a) bColon + 1))
      as [loc'| |]; cbn [mbind result_bind mret result_ret] in Hsplit;
      [|discriminate..].
    injection Hsplit as -> ->. apply Z.eqb_neq in Hcolon.
    exists pre, loc. split; [reflexivity|]. split; [reflexivity|].
    right. destruct Hparts as [[Hno _]|[Hname Hpre]]; [contradiction|].
    split; [exact Hname|]. split; [exact Hpre|].
    unfold resolve. destruct (namespaces el); reflexivity.
Qed.

Lemma attribute_names_witness :
  currElement (onAttribute (rootCursor 0) 1) = Some 0%nat ∧
  elems heapAttrs !! 0%nat = Some itemWithAttrs ∧
  attributeIndex (onAttribute (rootCursor 0) 1) = Z.of_nat 1 ∧
  Attributes itemWithAttrs !! 1%nat =
    Some {| AttrName := "xml:lang"; AttrValue := "en" |} ∧
  ∃ pre loc,
    Prefix heapAttrs (onAttribute (rootCursor 0) 1) = Ok pre ∧
    LocalName heapAttrs (onAttribute (rootCursor 0) 1) = Ok loc ∧
    ((IndexByte "xml:lang" bColon = -1 ∧ pre = EmptyString ∧
      loc = "xml:lang"%string ∧
      NamespaceURL heapAttrs (onAttribute (rootCursor 0) 1) = Ok EmptyString) ∨
     ("xml:lang"%string = (pre ++ ":" ++ loc)%string ∧
      IndexByte pre bColon = -1 ∧
      NamespaceURL heapAttrs (onAttribute (rootCursor 0) 1) =
        Ok (resolve (namespaces itemWithAttrs) pre))).
Proof.
  split; [reflexivity|]. split; [reflexivity|]. split; [reflexivity|].
  split; [reflexivity|].
  exact (attribute_names_split_at_first_colon
           heapAttrs (onAttribute (rootCursor 0) 1) 0 itemWithAttrs 1
           {| AttrName := "xml:lang"; AttrValue := "en" |}
           eq_refl eq_refl eq_refl eq_refl).
Defined.

(** ** Cursors on what the parser built *)

(** X12 (an emitted element is a root).  After every event sequence, the
    cursor [Evaluate] places on an emitted element reports a root node,
    and that cursor can move neither to a parent nor to a sibling: each of
    these moves fails and leaves it in place.  Its names are the ones
    stored at the start tag. *)
Theorem emitted_element_is_a_root
        (TrimSpace : list byte → list byte) (p : Parser) (events : list Event) :
  ∃ w, parse TrimSpace p events = Ok w ∧
       ∀ a, a ∈ sent w →
         ∃ el, elems (hp w) !! a = Some el ∧
           NavNodeType (hp w) (rootCursor a) = Ok RootNode ∧
           MoveToParent (hp w) (rootCursor a) = Ok (false, rootCursor a) ∧
           MoveToNext (hp w) (rootCursor a) = Ok (false, rootCursor a) ∧
           MoveToPrevious (hp w) (rootCursor a) = Ok (false, rootCursor a) ∧
           MoveToFirst (hp w) (rootCursor a) = Ok (false, rootCursor a) ∧
           MoveToRoot (rootCursor a) = rootCursor a ∧
           LocalName (hp w) (rootCursor a) = Ok (localName el) ∧
           Prefix (hp w) (rootCursor a) = Ok (prefix_ el) ∧
           NamespaceURL (hp w) (rootCursor a) = Ok (namespaceURI el).
Proof.
  destruct (parse_ok TrimSpace p events) as (w & Hw & (_ & _ & _ & Hdet) & _).
  exists w. split; [exact Hw|]. intros a Ha.
  rewrite Forall_forall in Hdet. specialize (Hdet a Ha).
  unfold detached in Hdet. pose proof Hdet as HP. cbn [Parent] in HP.
  destruct (getElem (hp w) a) as [el| |] eqn:Hget; bind_simpl;
    cbn [mbind result_bind] in HP; [|discriminate..].
  injection HP as Hnone.
  exists el. split; [apply getElem_Ok, Hget|].
  unfold NavNodeType, MoveToParent, MoveToNext, MoveToPrevious, MoveToFirst,
    LocalName, Prefix, NamespaceURL, MoveToRoot.
  cbn [rootCursor attributeIndex currNode currElement root Z.eqb negb].
  rewrite Hdet, Hget. bind_simpl. rewrite Hnone, Nat.eqb_refl.
  cbn. repeat split; reflexivity.
Qed.

(** ** Scanning rendered attributes *)

Lemma Byte_eqb_neq (x y : byte) : x ≠ y → Byte.eqb x y = false.
Proof.
  intros H. destruct (Byte.eqb x y) eqn:E; [|reflexivity].
  apply Byte.byte_dec_bl in E. contradiction.
Qed.

Lemma Byte_eqb_refl (x : byte) : Byte.eqb x x = true.
Proof. apply Byte.byte_dec_lb. reflexivity. Qed.

Lemma index_at {A} (s pre rest : list A) (x : A) (i : Z) :
  s = pre ++ x :: rest → i = len pre → index s i = Ok x.
Proof.
  intros -> ->. apply index_lookup. split; [apply len_nonneg|].
  unfold len. rewrite Nat2Z.id, lookup_app_r by lia.
  replace (length pre - length pre)%nat with 0%nat by lia. reflexivity.
Qed.

Lemma slice_at {A} (s pre mid rest : list A) (lo hi : Z) :
  s = pre ++ mid ++ rest → lo = len pre → hi = lo + len mid →
  slice s lo hi = Ok mid.
Proof.
  intros -> -> ->. pose proof (len_nonneg pre). pose proof (len_nonneg mid).
  rewrite slice_ok; [|lia|lia|rewrite !len_app; pose proof (len_nonneg rest); lia].
  f_equal. unfold len. rewrite Nat2Z.id.
  replace (Z.to_nat (Z.of_nat (length pre) + Z.of_nat (length mid) -
                     Z.of_nat (length pre))) with (length mid) by lia.
  rewrite drop_app_length, take_app_length. reflexivity.
Qed.

Lemma advance_run (cond : byte → bool) (run : list byte) :
  ∀ (fuel : nat) (pre rest : list byte),
    Forall (λ c, cond c = true) run →
    match rest with c :: _ => cond c = false | [] => True end →
    (length run < fuel)%nat →
    advance fuel cond (pre ++ run ++ rest) (len pre) = Ok (len pre + len run).
Proof.
  induction run as [|x run IH]; intros fuel pre rest Hrun Hrest Hf.
  - destruct fuel as [|fuel]; [cbn in Hf; lia|]. cbn [advance app].
    destruct rest as [|c rest].
    + rewrite app_nil_r, Z.ltb_irrefl. f_equal. unfold len. cbn. lia.
    + replace (len pre <? len (pre ++ c :: rest)) with true
        by (symmetry; apply Z.ltb_lt; rewrite len_app; unfold len;
            cbn [length]; lia).
      rewrite (index_at _ pre rest c) by reflexivity. bind_simpl.
      rewrite Hrest. f_equal. unfold len. cbn. lia.
  - destruct fuel as [|fuel]; [cbn in Hf; lia|]. cbn [advance app].
    replace (len pre <? len (pre ++ x :: run ++ rest)) with true
      by (symmetry; apply Z.ltb_lt; rewrite len_app; unfold len;
          cbn [length]; lia).
    rewrite (index_at _ pre (run ++ rest) x) by reflexivity. bind_simpl.
    apply Forall_cons in Hrun as [Hx Hrun]. rewrite Hx.
    specialize (IH fuel (pre ++ [x]) rest Hrun Hrest ltac:(cbn in Hf; lia)).
    rewrite <- app_assoc in IH. cbn [app] in IH. rewrite len_app in IH.
    change (len [x]) with 1 in IH. rewrite IH. f_equal.
    unfold len. cbn [length]. lia.
Qed.

Lemma advanceWhile_at (cond : byte → bool) (s pre run rest : list byte) (i : Z) :
  s = pre ++ run ++ rest → i = len pre →
  Forall (λ c, cond c = true) run →
  match rest with c :: _ => cond c = false | [] => True end →
  advanceWhile cond s i = Ok (i + len run).
Proof.
  intros -> -> Hrun Hrest. unfold advanceWhile.
  apply advance_run; [exact Hrun|exact Hrest|].
  rewrite !length_app. lia.
Qed.

Lemma isQuote_not_blank (q : byte) : isQuote q = true → isSpace2 q = false.
Proof.
  unfold isQuote. intros H. apply orb_prop in H as [H|H];
    apply Byte.byte_dec_bl in H; subst q; reflexivity.
Qed.

Lemma notByte_run (q : byte) (l : list byte) :
  q ∉ l → Forall (λ c, notByte q c = true) l.
Proof.
  intros H. apply Forall_forall. intros c Hc. unfold notByte.
  rewrite Byte_eqb_neq; [reflexivity|]. intros ->. contradiction.
Qed.

Lemma notByte_self (q : byte) : notByte q q = false.
Proof. unfold notByte. rewrite Byte_eqb_refl. reflexivity. Qed.

Lemma len_renderAttr (t : attrText) :
  len (renderAttr t) = len (lead t) + len (nm t) + 1 + len (gap t) + 1
                       + len (val t) + 1.
Proof. unfold renderAttr. rewrite !len_app. unfold len. cbn [length]. lia. Qed.

Ltac app_norm := unfold renderAttr; rewrite <- ?app_assoc; cbn [app]; reflexivity.
Ltac len_norm := rewrite ?len_app; unfold len; cbn [length]; lia.

Section Rendered.

Variable TrimSpace : list byte → list byte.

(** The positions the scanners reach inside one rendered attribute. *)
Lemma scan_attribute (pre rest : list byte) (t : attrText) :
  wfAttr t →
  let s := pre ++ renderAttr t ++ rest in
  let i1 := len pre + len (lead t) in
  let i2 := i1 + len (nm t) in
  let i3 := i2 + 1 + len (gap t) in
  let i4 := i3 + 1 + len (val t) in
  advanceWhile isSpace4 s (len pre) = Ok i1 ∧
  advanceWhile (notByte bEq) s i1 = Ok i2 ∧
  slice s i1 i2 = Ok (nm t) ∧
  advanceWhile isSpace2 s (i2 + 1) = Ok i3 ∧
  index s i3 = Ok (qt t) ∧
  advanceWhile (notByte (qt t)) s (i3 + 1) = Ok i4 ∧
  slice s (i3 + 1) i4 = Ok (val t) ∧
  i4 + 1 = len pre + len (renderAttr t) ∧
  i4 < len s ∧ 0 ≤ len pre.
Proof.
  intros (Hlead & Hnm & Hhead & Hgap & Hq & Hval) s i1 i2 i3 i4.
  pose proof (len_renderAttr t) as Hlen.
  pose proof (len_nonneg pre). pose proof (len_nonneg (lead t)).
  pose proof (len_nonneg (nm t)). pose proof (len_nonneg (gap t)).
  pose proof (len_nonneg (val t)). pose proof (len_nonneg rest).
  assert (Hs : len s = len pre + len (renderAttr t) + len rest)
    by (unfold s; rewrite !len_app; lia).
  repeat split.
  - apply (advanceWhile_at isSpace4 s pre (lead t)
             (nm t ++ [bEq] ++ gap t ++ [qt t] ++ val t ++ [qt t] ++ rest));
      [unfold s; app_norm|reflexivity|exact Hlead|
       destruct (nm t); [reflexivity|exact Hhead]].
  - apply (advanceWhile_at (notByte bEq) s (pre ++ lead t) (nm t)
             ([bEq] ++ gap t ++ [qt t] ++ val t ++ [qt t] ++ rest));
      [unfold s; app_norm|unfold i1; len_norm|apply notByte_run, Hnm|
       apply notByte_self].
  - apply (slice_at s (pre ++ lead t) (nm t)
             ([bEq] ++ gap t ++ [qt t] ++ val t ++ [qt t] ++ rest));
      [unfold s; app_norm|unfold i1; len_norm|reflexivity].
  - apply (advanceWhile_at isSpace2 s (pre ++ lead t ++ nm t ++ [bEq]) (gap t)
             (qt t :: val t ++ [qt t] ++ rest));
      [unfold s; app_norm|unfold i2, i1; len_norm|exact Hgap|
       apply isQuote_not_blank, Hq].
  - apply (index_at s (pre ++ lead t ++ nm t ++ [bEq] ++ gap t)
             (val t ++ [qt t] ++ rest) (qt t));
      [unfold s; app_norm|unfold i3, i2, i1; len_norm].
  - apply (advanceWhile_at (notByte (qt t)) s
             (pre ++ lead t ++ nm t ++ [bEq] ++ gap t ++ [qt t]) (val t)
             (qt t :: rest));
      [unfold s; app_norm|unfold i3, i2, i1; len_norm|apply notByte_run, Hval|
       apply notByte_self].
  - apply (slice_at s (pre ++ lead t ++ nm t ++ [bEq] ++ gap t ++ [qt t])
             (val t) (qt t :: rest));
      [unfold s; app_norm|unfold i3, i2, i1; len_norm|reflexivity].
  - unfold i4, i3, i2, i1. lia.
  - unfold i4, i3, i2, i1. lia.
  - lia.
Qed.

Lemma parseAttributes_step (fuel : nat) (pre rest : list byte) (t : attrText)
      (acc : list XMLAttribute) :
  wfAttr t →
  parseAttributes_loop TrimSpace (S fuel) (pre ++ renderAttr t ++ rest)
    (len pre) acc =
  parseAttributes_loop TrimSpace fuel (pre ++ renderAttr t ++ rest)
    (len pre + len (renderAttr t)) (acc ++ [attrOf TrimSpace t]).
Proof.
  intros Hwf.
  destruct (scan_attribute pre rest t Hwf)
    as (H1 & H2 & H3 & H4 & H5 & H6 & H7 & Hend & Hlt & Hpre).
  pose proof (proj1 (proj2 (proj2 (proj2 (proj2 Hwf))))) as Hq.
  pose proof (len_nonneg (lead t)). pose proof (len_nonneg (nm t)).
  pose proof (len_nonneg (gap t)). pose proof (len_nonneg (val t)).
  set (s := pre ++ renderAttr t ++ rest) in *.
  cbn [parseAttributes_loop].
  replace (len pre <? len s) with true by (symmetry; apply Z.ltb_lt; lia).
  cbn [negb]. rewrite H1. bind_simpl.
  replace (len s <=? len pre + len (lead t)) with false
    by (symmetry; apply Z.leb_gt; lia).
  rewrite H2. bind_simpl.
  replace (len s <=? len pre + len (lead t) + len (nm t)) with false
    by (symmetry; apply Z.leb_gt; lia).
  rewrite H3. bind_simpl. rewrite H4. bind_simpl.
  replace (len s <=? len pre + len (lead t) + len (nm t) + 1 + len (gap t))
    with false by (symmetry; apply Z.leb_gt; lia).
  rewrite H5. bind_simpl. rewrite Hq. cbn [negb].
  rewrite H6. bind_simpl. rewrite H7. bind_simpl.
  rewrite Hend. reflexivity.
Qed.

Lemma index_in_tail {A} (pre tail : list A) (j : Z) (c : A) :
  len pre ≤ j → index (pre ++ tail) j = Ok c → c ∈ tail.
Proof.
  intros Hj H. apply index_lookup in H as [_ H].
  rewrite lookup_app_r in H by (unfold len in Hj; lia).
  eapply list_elem_of_lookup_2, H.
Qed.

Lemma parseAttributes_tail (fuel : nat) (pre tail : list byte)
      (acc : list XMLAttribute) :
  bEq ∉ tail →
  parseAttributes_loop TrimSpace (S fuel) (pre ++ tail) (len pre) acc = Ok acc.
Proof.
  intros Htail. set (s := pre ++ tail). cbn [parseAttributes_loop].
  destruct (len pre <? len s); cbn [negb]; [|reflexivity].
  destruct (advanceWhile_ok isSpace4 s (len pre) (len_nonneg pre))
    as (j & -> & Hj & _). bind_simpl.
  destruct (len s <=? j) eqn:Hend; [reflexivity|].
  destruct (advanceWhile_ok (notByte bEq) s j ltac:(pose proof (len_nonneg pre); lia))
    as (j' & -> & Hj' & _ & Hstop). bind_simpl.
  destruct (len s <=? j') eqn:Hend'; [reflexivity|].
  apply Z.leb_gt in Hend'. destruct (Hstop Hend') as (c & Hc & Hnot).
  apply notByte_false in Hnot. subst c.
  exfalso. apply Htail. eapply (index_in_tail pre tail j'); [lia|exact Hc].
Qed.

Lemma parseAttributes_loop_rendered (l : list attrText) :
  ∀ (fuel : nat) (pre tail : list byte) (acc : list XMLAttribute),
    Forall wfAttr l → bEq ∉ tail → (length l < fuel)%nat →
    parseAttributes_loop TrimSpace fuel (pre ++ renderAttrs l ++ tail)
      (len pre) acc = Ok (acc ++ map (attrOf TrimSpace) l).
Proof.
  induction l as [|t l IH]; intros fuel pre tail acc Hwf Htail Hf.
  - destruct fuel as [|fuel]; [cbn in Hf; lia|].
    cbn [renderAttrs map concat app]. rewrite app_nil_r.
    apply parseAttributes_tail, Htail.
  - destruct fuel as [|fuel]; [cbn in Hf; lia|].
    apply Forall_cons in Hwf as [Ht Hwf].
    unfold renderAttrs. cbn [map concat]. fold (renderAttrs l).
    rewrite <- (app_assoc (renderAttr t)).
    rewrite parseAttributes_step by exact Ht.
    rewrite (app_assoc pre), <- len_app.
    rewrite IH; [|exact Hwf|exact Htail|cbn in Hf; lia].
    rewrite <- app_assoc. reflexivity.
Qed.

Lemma countEq_app (s t : list byte) : countEq (s ++ t) = countEq s + countEq t.
Proof. unfold countEq. rewrite filter_app, len_app. reflexivity. Qed.

Lemma countEq_absent (s : list byte) : bEq ∉ s → countEq s = 0.
Proof.
  induction s as [|c s IH]; intros H; [reflexivity|].
  rewrite countEq_cons, IH by (intros Hin; apply H; right; exact Hin).
  rewrite Byte_eqb_neq; [reflexivity|]. intros ->. apply H. left.
Qed.

Lemma countEq_renderAttr (t : attrText) : 0 < countEq (renderAttr t).
Proof.
  unfold renderAttr. rewrite !countEq_app.
  pose proof (countEq_nonneg (lead t)). pose proof (countEq_nonneg (nm t)).
  pose proof (countEq_nonneg (gap t)). pose proof (countEq_nonneg [qt t]).
  pose proof (countEq_nonneg (val t)).
  change (countEq [bEq]) with 1. lia.
Qed.

Lemma length_renderAttrs (l : list attrText) :
  (length l ≤ length (renderAttrs l))%nat.
Proof.
  induction l as [|t l IH]; [cbn; lia|].
  unfold renderAttrs. cbn [map concat]. fold (renderAttrs l).
  rewrite length_app. pose proof (len_renderAttr t) as H.
  pose proof (len_nonneg (lead t)). pose proof (len_nonneg (nm t)).
  pose proof (len_nonneg (gap t)). pose proof (len_nonneg (val t)).
  unfold len in *. cbn [length]. lia.
Qed.

End Rendered.

Lemma rendered_attributes_parsed
        (TrimSpace : list byte → list byte) (l : list attrText)
        (tail : list byte) (old : list XMLAttribute) :
  Forall wfAttr l → bEq ∉ tail →
  parseAttributes TrimSpace (renderAttrs l ++ tail) old =
    Ok (match l with [] => old | _ => map (attrOf TrimSpace) l end).
Proof.
  intros Hwf Htail. unfold parseAttributes. destruct l as [|t l].
  - cbn [renderAttrs map concat app]. rewrite countEq_absent by exact Htail.
    reflexivity.
  - assert (Hpos : 0 < countEq (renderAttrs (t :: l) ++ tail)).
    { unfold renderAttrs. cbn [map concat]. rewrite !countEq_app.
      pose proof (countEq_renderAttr t).
      pose proof (countEq_nonneg (concat (map renderAttr l))).
      pose proof (countEq_nonneg tail). lia. }
    replace (countEq (renderAttrs (t :: l) ++ tail) =? 0) with false
      by (symmetry; apply Z.eqb_neq; lia).
    assert (Hf : (length (t :: l) < S (length (renderAttrs (t :: l) ++ tail)))%nat)
      by (pose proof (length_renderAttrs (t :: l)); rewrite length_app; lia).
    exact (parseAttributes_loop_rendered TrimSpace (t :: l)
             (S (length (renderAttrs (t :: l) ++ tail))) [] tail []
             Hwf Htail Hf).
Qed.

(** X13 (attributes read back).  A tag body made of attributes, each
    written as white space, a name without [=], [=], blanks, a quote, a
    value without that quote, the quote, and followed by any bytes without
    [=], is parsed into exactly these attributes in order: the name trimmed
    by [bytes.TrimSpace], the value byte for byte.  With no attribute at
    all, the attribute list the element had is left as it was. *)
Theorem parseAttributes_reads_rendered_attributes
        (TrimSpace : list byte → list byte) (l : list attrText)
        (tail : list byte) (old : list XMLAttribute) :
  Forall wfAttr l → bEq ∉ tail →
  parseAttributes TrimSpace (renderAttrs l ++ tail) old =
    Ok (match l with [] => old | _ => map (attrOf TrimSpace) l end).
Proof. apply rendered_attributes_parsed. Qed.

(** ** Declarations among rendered attributes *)

Lemma length_string_of_list_byte (b : list byte) :
  String.length (string_of_list_byte b) = length b.
Proof. induction b as [|c b IH]; [reflexivity|]. cbn. f_equal. exact IH. Qed.

Lemma length_list_byte_of_string (s : string) :
  length (list_byte_of_string s) = String.length s.
Proof. induction s as [|a s IH]; [reflexivity|]. cbn. f_equal. exact IH. Qed.

Lemma String_prefix_length (s1 s2 : string) :
  String.prefix s1 s2 = true → (String.length s1 ≤ String.length s2)%nat.
Proof.
  revert s2. induction s1 as [|a s1 IH]; intros s2 H; [cbn; lia|].
  destruct s2 as [|b s2]; [discriminate|]. cbn [String.prefix] in H.
  destruct (Ascii.ascii_dec a b); [|discriminate].
  apply IH in H. cbn [String.length]. lia.
Qed.

Lemma String_prefix_head (a b : Ascii.ascii) (s1 s2 : string) :
  String.prefix (String a s1) (String b s2) = true → a = b.
Proof.
  cbn [String.prefix]. destruct (Ascii.ascii_dec a b); [auto|discriminate].
Qed.

Lemma head_is_x (c : byte) :
  Ascii.ascii_of_byte c = Ascii.ascii_of_byte bLowerX → c = bLowerX.
Proof.
  intros H. apply (f_equal Ascii.byte_of_ascii) in H.
  rewrite !Ascii.byte_of_ascii_of_byte in H. exact H.
Qed.

Lemma strFrom_6 (name : string) :
  String.prefix "xmlns:" name = true →
  strFrom name 6 =
    Ok (string_of_list_byte (drop 6 (list_byte_of_string name))).
Proof.
  intros H. apply String_prefix_length in H. cbn [String.length] in H.
  rewrite <- length_list_byte_of_string in H.
  unfold strFrom. rewrite slice_ok by (unfold len; lia). bind_simpl.
  rewrite take_ge; [reflexivity|]. rewrite length_drop. unfold len. lia.
Qed.

Section Declarations.

Variable TrimSpace : list byte → list byte.

Lemma declared_skip (ns : option (gmap string string)) (t : attrText) :
  len (TrimSpace (nm t)) < 5 ∨
  (∃ c r, TrimSpace (nm t) = c :: r ∧
          negb (Byte.eqb c bLowerX) && negb (Byte.eqb c bUpperX) = true) →
  declared ns (attrOf TrimSpace t) = ns.
Proof.
  intros Hskip. unfold declared, attrOf. cbn [AttrName AttrValue].
  set (nb := TrimSpace (nm t)) in *.
  pose proof (length_string_of_list_byte nb) as Hlen.
  destruct (String.eqb (string_of_list_byte nb) "xmlns") eqn:E1.
  { exfalso. apply String.eqb_eq in E1. destruct Hskip as [Hs|(c & r & Hnb & Hc)].
    - rewrite E1 in Hlen. cbn [String.length] in Hlen. unfold len in Hs. lia.
    - rewrite Hnb in E1. cbn in E1. injection E1 as Hx _.
      apply head_is_x in Hx. subst c. discriminate Hc. }
  destruct (String.prefix "xmlns:" (string_of_list_byte nb)) eqn:E2;
    [|reflexivity].
  exfalso. destruct Hskip as [Hs|(c & r & Hnb & Hc)].
  - apply String_prefix_length in E2. cbn [String.length] in E2.
    unfold len in Hs. lia.
  - rewrite Hnb in E2. cbn [string_of_list_byte map string_of_list_ascii] in E2.
    change (string_of_list_byte (c :: r))
      with (String (Ascii.ascii_of_byte c) (string_of_list_byte r)) in E2.
    apply String_prefix_head in E2. symmetry in E2.
    apply head_is_x in E2. subst c. discriminate Hc.
Qed.

Lemma extractNamespaces_step (fuel : nat) (pre rest : list byte) (t : attrText)
      (ns : option (gmap string string)) :
  wfAttr t →
  extractNamespaces_loop TrimSpace (S fuel) (pre ++ renderAttr t ++ rest)
    (len pre) ns =
  extractNamespaces_loop TrimSpace fuel (pre ++ renderAttr t ++ rest)
    (len pre + len (renderAttr t)) (declared ns (attrOf TrimSpace t)).
Proof.
  intros Hwf.
  destruct (scan_attribute pre rest t Hwf)
    as (H1 & H2 & H3 & H4 & H5 & H6 & H7 & Hend & Hlt & Hpre).
  pose proof (proj1 (proj2 (proj2 (proj2 (proj2 Hwf))))) as Hq.
  pose proof (len_nonneg (lead t)). pose proof (len_nonneg (nm t)).
  pose proof (len_nonneg (gap t)). pose proof (len_nonneg (val t)).
  set (s := pre ++ renderAttr t ++ rest) in *.
  cbn [extractNamespaces_loop].
  replace (len pre <? len s) with true by (symmetry; apply Z.ltb_lt; lia).
  cbn [negb]. rewrite H1. bind_simpl.
  replace (len s <=? len pre + len (lead t)) with false
    by (symmetry; apply Z.leb_gt; lia).
  rewrite H2. bind_simpl.
  replace (len s <=? len pre + len (lead t) + len (nm t)) with false
    by (symmetry; apply Z.leb_gt; lia).
  rewrite H3. bind_simpl.
  assert (Hskipped :
            declared ns (attrOf TrimSpace t) = ns →
            (i ← advanceWhile isSpace2 s (len pre + len (lead t) + len (nm t) + 1);
             i ← (if i <? len s then
                    q ← index s i;
                    if isQuote q then
                      i ← advanceWhile (notByte q) s (i + 1);
                      Ok (i + 1)
                    else Ok i
                  else Ok i);
             extractNamespaces_loop TrimSpace fuel s i ns) =
            extractNamespaces_loop TrimSpace fuel s
              (len pre + len (renderAttr t)) (declared ns (attrOf TrimSpace t))).
  { intros ->. rewrite H4. bind_simpl.
    replace (len pre + len (lead t) + len (nm t) + 1 + len (gap t) <? len s)
      with true by (symmetry; apply Z.ltb_lt; lia).
    rewrite H5. bind_simpl. rewrite Hq. rewrite H6. bind_simpl.
    rewrite Hend. reflexivity. }
  destruct (len (TrimSpace (nm t)) <? 5) eqn:Hshort.
  { bind_simpl. apply Hskipped, declared_skip. left.
    apply Z.ltb_lt, Hshort. }
  apply Z.ltb_ge in Hshort.
  destruct (TrimSpace (nm t)) as [|c r] eqn:Hnb;
    [unfold len in Hshort; cbn in Hshort; lia|].
  rewrite (index_at (c :: r) [] r c 0) by reflexivity. bind_simpl.
  destruct (negb (Byte.eqb c bLowerX) && negb (Byte.eqb c bUpperX)) eqn:Hhead.
  { apply Hskipped. apply declared_skip. right. exists c, r.
    split; [exact Hnb|exact Hhead]. }
  rewrite H4. bind_simpl.
  replace (len s <=? len pre + len (lead t) + len (nm t) + 1 + len (gap t))
    with false by (symmetry; apply Z.leb_gt; lia).
  rewrite H5. bind_simpl. rewrite Hq. cbn [negb].
  rewrite H6. bind_simpl. rewrite H7. bind_simpl. rewrite Hend.
  unfold declared, attrOf. cbn [AttrName AttrValue]. rewrite Hnb.
  destruct (String.eqb (string_of_list_byte (c :: r)) "xmlns"); bind_simpl;
    [reflexivity|].
  destruct (String.prefix "xmlns:" (string_of_list_byte (c :: r))) eqn:Hp;
    [|reflexivity].
  rewrite (strFrom_6 _ Hp). reflexivity.
Qed.

Lemma extractNamespaces_tail (fuel : nat) (pre tail : list byte)
      (ns : option (gmap string string)) :
  bEq ∉ tail →
  extractNamespaces_loop TrimSpace (S fuel) (pre ++ tail) (len pre) ns = Ok ns.
Proof.
  intros Htail. set (s := pre ++ tail). cbn [extractNamespaces_loop].
  destruct (len pre <? len s); cbn [negb]; [|reflexivity].
  destruct (advanceWhile_ok isSpace4 s (len pre) (len_nonneg pre))
    as (j & -> & Hj & _). bind_simpl.
  destruct (len s <=? j) eqn:Hend; [reflexivity|].
  destruct (advanceWhile_ok (notByte bEq) s j ltac:(pose proof (len_nonneg pre); lia))
    as (j' & -> & Hj' & _ & Hstop). bind_simpl.
  destruct (len s <=? j') eqn:Hend'; [reflexivity|].
  apply Z.leb_gt in Hend'. destruct (Hstop Hend') as (c & Hc & Hnot).
  apply notByte_false in Hnot. subst c.
  exfalso. apply Htail. eapply (index_in_tail pre tail j'); [lia|exact Hc].
Qed.

Lemma extractNamespaces_loop_rendered (l : list attrText) :
  ∀ (fuel : nat) (pre tail : list byte) (ns : option (gmap string string)),
    Forall wfAttr l → bEq ∉ tail → (length l < fuel)%nat →
    extractNamespaces_loop TrimSpace fuel (pre ++ renderAttrs l ++ tail)
      (len pre) ns = Ok (foldl declared ns (map (attrOf TrimSpace) l)).
Proof.
  induction l as [|t l IH]; intros fuel pre tail ns Hwf Htail Hf.
  - destruct fuel as [|fuel]; [cbn in Hf; lia|].
    cbn [renderAttrs map concat app foldl].
    apply extractNamespaces_tail, Htail.
  - destruct fuel as [|fuel]; [cbn in Hf; lia|].
    apply Forall_cons in Hwf as [Ht Hwf].
    unfold renderAttrs. cbn [map concat foldl]. fold (renderAttrs l).
    rewrite <- (app_assoc (renderAttr t)).
    rewrite extractNamespaces_step by exact Ht.
    rewrite (app_assoc pre), <- len_app.
    apply IH; [exact Hwf|exact Htail|cbn in Hf; lia].
Qed.

End Declarations.

Lemma rendered_declarations_extracted
        (TrimSpace : list byte → list byte) (l : list attrText)
        (tail : list byte) :
  Forall wfAttr l → bEq ∉ tail →
  extractNamespaces TrimSpace (renderAttrs l ++ tail) =
    Ok (declarationsOf (map (attrOf TrimSpace) l)).
Proof.
  intros Hwf Htail. unfold extractNamespaces, declarationsOf.
  destruct (len (renderAttrs l ++ tail) =? 0) eqn:Hempty.
  - apply Z.eqb_eq in Hempty. destruct l as [|t l]; [reflexivity|].
    exfalso. pose proof (length_renderAttrs (t :: l)) as H.
    unfold len in Hempty. rewrite length_app in Hempty. cbn [length] in H. lia.
  - assert (Hf : (length l < S (length (renderAttrs l ++ tail)))%nat)
      by (pose proof (length_renderAttrs l); rewrite length_app; lia).
    exact (extractNamespaces_loop_rendered TrimSpace l
             (S (length (renderAttrs l ++ tail))) [] tail None Hwf Htail Hf).
Qed.

(** X14 (declarations are the xmlns attributes).  On a tag body of
    rendered attributes, [extractNamespaces] returns the bindings of the
    attributes that [parseAttributes] reads whose name is [xmlns] or starts
    with [xmlns:], a later binding of a prefix replacing an earlier one;
    the shortcut that skips names shorter than five bytes or not starting
    with [x] or [X] loses none of them.  Without such an attribute the
    result is the nil map. *)
Theorem extractNamespaces_reads_rendered_declarations
        (TrimSpace : list byte → list byte) (l : list attrText)
        (tail : list byte) :
  Forall wfAttr l → bEq ∉ tail →
  extractNamespaces TrimSpace (renderAttrs l ++ tail) =
    Ok (declarationsOf (map (attrOf TrimSpace) l)).
Proof. apply rendered_declarations_extracted. Qed.

Ltac absent :=
  let H := fresh in
  intros H; vm_compute in H;
  repeat (apply elem_of_cons in H as [H|H]; [discriminate H|]);
  apply elem_of_nil in H; exact H.

Lemma twoAttrs_wf : Forall wfAttr twoAttrs.
Proof.
  repeat constructor; try reflexivity; absent.
Qed.

Lemma parseAttributes_rendered_witness :
  Forall wfAttr twoAttrs ∧ (bEq ∉ [bSpace; bSlash]) ∧
  parseAttributes asciiTrimSpace (renderAttrs twoAttrs ++ [bSpace; bSlash]) [] =
    Ok (match twoAttrs with
        | [] => []
        | _ => map (attrOf asciiTrimSpace) twoAttrs
        end).
Proof.
  assert (Htail : bEq ∉ [bSpace; bSlash]) by absent.
  split; [exact twoAttrs_wf|]. split; [exact Htail|].
  exact (parseAttributes_reads_rendered_attributes asciiTrimSpace twoAttrs
           [bSpace; bSlash] [] twoAttrs_wf Htail).
Defined.

Lemma extractNamespaces_rendered_witness :
  Forall wfAttr twoAttrs ∧ (bEq ∉ [bSlash]) ∧
  extractNamespaces asciiTrimSpace (renderAttrs twoAttrs ++ [bSlash]) =
    Ok (declarationsOf (map (attrOf asciiTrimSpace) twoAttrs)).
Proof.
  assert (Htail : bEq ∉ [bSlash]) by absent.
  split; [exact twoAttrs_wf|]. split; [exact Htail|].
  exact (extractNamespaces_reads_rendered_declarations asciiTrimSpace twoAttrs
           [bSlash] twoAttrs_wf Htail).
Defined.

(** ** From the tag to the element *)

Lemma guard_is_transparent (TrimSpace : list byte → list byte)
      (TrimSpace_subslice : ∀ s, ∃ l r, s = l ++ TrimSpace s ++ r)
      (attrs : list byte) :
  elementNamespacesOf TrimSpace attrs = extractNamespaces TrimSpace attrs.
Proof.
  unfold elementNamespacesOf.
  destruct (0 <? len attrs) eqn:Hlen; cbn [andb].
  - destruct (Contains attrs xmlns) eqn:Hc; [reflexivity|].
    destruct (extractNamespaces_ok TrimSpace attrs) as (r & Hr & [-> | Hd]);
      [symmetry; exact Hr|].
    apply (declares_Contains TrimSpace TrimSpace_subslice) in Hd. congruence.
  - unfold extractNamespaces. apply Z.ltb_ge in Hlen.
    pose proof (len_nonneg attrs).
    replace (len attrs =? 0) with true by (symmetry; apply Z.eqb_eq; lia).
    reflexivity.
Qed.

(** X15 (from the tag to the element).  In any state of the assembler
    that satisfies its structural invariant, a start event whose attribute
    bytes are rendered attributes is handled without failure, and the
    element it creates (at the next address) carries the name of the tag,
    exactly these attributes in order, and as its namespace scope the
    declarations among them laid over the scope of the innermost open
    element. *)
Theorem start_tag_fills_the_element
        (TrimSpace : list byte → list byte)
        (TrimSpace_subslice : ∀ s, ∃ l r, s = l ++ TrimSpace s ++ r)
        (p : Parser) (w : machine) (name fullTag : list byte)
        (l : list attrText) (tail : list byte) :
  Inv w → Forall wfAttr l → bEq ∉ tail →
  ∃ w' e,
    handleEvent TrimSpace p w (EventStart name (renderAttrs l ++ tail) fullTag)
      = Ok w' ∧
    elems (hp w') !! length (elems (hp w)) = Some e ∧
    Name e = string_of_list_byte name ∧
    Attributes e = map (attrOf TrimSpace) l ∧
    namespaces e = scopeOf (declarationsOf (map (attrOf TrimSpace) l))
                           (parentScope (hp w) (stack (st w))).
Proof.
  intros HInv Hwf Htail.
  destruct (handleEvent_ok TrimSpace p w
              (EventStart name (renderAttrs l ++ tail) fullTag) HInv
              ltac:(discriminate)) as (w' & _ & Hw' & _).
  exists w'. pose proof Hw' as Hrun. cbn [handleEvent] in Hrun.
  rewrite (guard_is_transparent TrimSpace TrimSpace_subslice) in Hrun.
  rewrite (rendered_declarations_extracted TrimSpace l tail Hwf Htail)
    in Hrun.
  bind_simpl. cbn [mbind result_bind] in Hrun.
  unfold handleStartElement in Hrun.
  destruct (splitName (string_of_list_byte name)) as [[pre localN]| |];
    cbn [mbind result_bind] in Hrun; [|discriminate..].
  assert (Hpns : ∀ r,
            match stack (st w) with
            | top :: _ => pe ← getElem (hp w) top; Ok (namespaces pe)
            | [] => Ok None
            end = Ok r → r = parentScope (hp w) (stack (st w))).
  { intros r. unfold parentScope, getElem.
    destruct (stack (st w)) as [|top stk]; [congruence|].
    destruct (elems (hp w) !! top); bind_simpl; [congruence|discriminate]. }
  destruct (match stack (st w) with
            | top :: _ => pe ← getElem (hp w) top; Ok (namespaces pe)
            | [] => Ok None
            end) as [pns| |] eqn:Hparent;
    cbn [mbind result_bind] in Hrun; [|discriminate..].
  specialize (Hpns pns eq_refl). subst pns.
  assert (Hattrs :
            (if 0 <? len (renderAttrs l ++ tail)
             then parseAttributes TrimSpace (renderAttrs l ++ tail) []
             else Ok []) = Ok (map (attrOf TrimSpace) l)).
  { pose proof (rendered_attributes_parsed TrimSpace l tail [] Hwf Htail)
      as Hp.
    destruct (0 <? len (renderAttrs l ++ tail)) eqn:Hlen.
    - rewrite Hp. destruct l; reflexivity.
    - apply Z.ltb_ge in Hlen. destruct l as [|t l]; [reflexivity|].
      pose proof (length_renderAttrs (t :: l)) as H.
      unfold len in Hlen. rewrite length_app in Hlen. cbn [length] in H. lia. }
  rewrite Hattrs in Hrun. cbn [mbind result_bind] in Hrun.
  match type of Hrun with
  | context [linkToParent _ _ ?f] => set (fresh := f) in Hrun
  end.
  destruct (linkToParent (hp w) (stack (st w)) fresh) as [h1| |] eqn:Hlink;
    cbn [mbind result_bind] in Hrun; [|discriminate..].
  destruct (linkToParent_cells _ _ _ _ Hlink) as (_ & Hlen1 & Hcells1).
  assert (Hnew1 : ∃ e1, elems h1 !! length (elems (hp w)) = Some e1 ∧
                        Name e1 = Name fresh ∧ Attributes e1 = Attributes fresh ∧
                        namespaces e1 = namespaces fresh).
  { destruct (lookup_lt_is_Some_2 (elems h1) (length (elems (hp w))))
      as [e1 He1]; [lia|].
    exists e1. split; [exact He1|].
    destruct (Hcells1 _ _ He1) as [(_ & [(_ & ->)|(top & pe & _ & _ & ->)])|
                                   (e & He & _)].
    - auto.
    - cbn [withLink Name Attributes namespaces]. auto.
    - apply lookup_lt_Some in He. lia. }
  destruct Hnew1 as (e1 & He1 & Hn1 & Ha1 & Hs1).
  assert (Hfields : ∀ e, Name e = Name fresh → Attributes e = Attributes fresh →
                         namespaces e = namespaces fresh →
                         Name e = string_of_list_byte name ∧
                         Attributes e = map (attrOf TrimSpace) l ∧
                         namespaces e =
                           scopeOf (declarationsOf (map (attrOf TrimSpace) l))
                                   (parentScope (hp w) (stack (st w)))).
  { intros e -> -> ->. unfold fresh. cbn [Name Attributes namespaces].
    split; [reflexivity|]. split; reflexivity. }
  destruct (isSelfClosing fullTag) as [[|]| |];
    cbn [mbind result_bind] in Hrun; [| |discriminate..].
  - destruct (checkAndStreamElement p h1 (sent w) (length (elems (hp w))))
      as [[h2 out]| |] eqn:Hcheck; cbn [mbind result_bind] in Hrun;
      [|discriminate..].
    injection Hrun as <-. cbn [hp].
    destruct (checkAndStreamElement_cells _ _ _ _ _ _ Hcheck) as (_ & Hlen2 & Hcells2).
    destruct (lookup_lt_is_Some_2 (elems h2) (length (elems (hp w))))
      as [e2 He2]; [lia|].
    exists e2. split; [exact Hw'|]. split; [exact He2|].
    destruct (Hcells2 _ _ He2) as (e & He & [(_ & ->)|(_ & [-> | ->])]);
      assert (e = e1) by congruence; subst e;
      apply Hfields; assumption.
  - injection Hrun as <-. cbn [hp].
    exists e1. split; [exact Hw'|]. split; [exact He1|].
    apply Hfields; assumption.
Qed.

Lemma start_tag_witness :
  Inv initial ∧ Forall wfAttr twoAttrs ∧ (bEq ∉ [bSlash]) ∧
  ∃ w' e,
    handleEvent asciiTrimSpace (NewParser [] 0) initial
      (EventStart (bytesOf "item") (renderAttrs twoAttrs ++ [bSlash])
                  (bytesOf "<item/>")) = Ok w' ∧
    elems (hp w') !! length (elems (hp initial)) = Some e ∧
    Name e = string_of_list_byte (bytesOf "item") ∧
    Attributes e = map (attrOf asciiTrimSpace) twoAttrs ∧
    namespaces e =
      scopeOf (declarationsOf (map (attrOf asciiTrimSpace) twoAttrs))
              (parentScope (hp initial) (stack (st initial))).
Proof.
  assert (Htail : bEq ∉ [bSlash]) by absent.
  split; [exact Inv_initial|]. split; [exact twoAttrs_wf|].
  split; [exact Htail|].
  exact (start_tag_fills_the_element asciiTrimSpace asciiTrimSpace_subslice
           (NewParser [] 0) initial (bytesOf "item") (bytesOf "<item/>")
           twoAttrs [bSlash] Inv_initial twoAttrs_wf Htail).
Defined.

(** ** Release *)

Lemma returnChildren_spec (cs : list XMLNode) :
  ∀ (stack : list nat) (pl : pools),
    returnChildren cs stack pl =
      (reverse (elementsOf cs) ++ stack,
       {| xmlElementPool := xmlElementPool pl;
          xmlContentNodePool := xmlContentNodePool pl ++ contentNodesOf cs |}).
Proof.
  induction cs as [|[c|c] cs IH]; intros stack pl.
  - cbn. rewrite app_nil_r. destruct pl. reflexivity.
  - cbn [returnChildren]. rewrite IH.
    change (elementsOf (ElemRef c :: cs)) with (c :: elementsOf cs).
    change (contentNodesOf (ElemRef c :: cs)) with (contentNodesOf cs).
    rewrite reverse_cons, <- app_assoc. reflexivity.
  - cbn [returnChildren]. rewrite IH. cbn [xmlElementPool xmlContentNodePool].
    change (elementsOf (ContentRef c :: cs)) with (elementsOf cs).
    change (contentNodesOf (ContentRef c :: cs)) with (c :: contentNodesOf cs).
    rewrite <- app_assoc. reflexivity.
Qed.

Lemma release_step (fuel : nat) (h : heap) (current : nat) (stack : list nat)
      (pl : pools) (el : XMLElement) :
  elems h !! current = Some el →
  returnElementToPool_loop (S fuel) h (current :: stack) pl =
  returnElementToPool_loop fuel (setElem h current (cleared el))
    (reverse (elementsOf (children el)) ++ stack)
    {| xmlElementPool := xmlElementPool pl ++ [current];
       xmlContentNodePool :=
         xmlContentNodePool pl ++ contentNodesOf (children el) |}.
Proof.
  intros Hel. apply getElem_Ok in Hel. cbn [returnElementToPool_loop].
  rewrite Hel. bind_simpl. rewrite returnChildren_spec. reflexivity.
Qed.

Lemma release_step_inv (fuel : nat) (h : heap) (current : nat)
      (stack : list nat) (pl : pools) (r : heap * pools) :
  returnElementToPool_loop (S fuel) h (current :: stack) pl = Ok r →
  ∃ el, elems h !! current = Some el.
Proof.
  cbn [returnElementToPool_loop].
  destruct (getElem h current) as [el| |] eqn:Hel; bind_simpl;
    [|discriminate..].
  intros _. exists el. apply getElem_Ok, Hel.
Qed.

Lemma release_more_fuel (fuel : nat) :
  ∀ (h : heap) (stack : list nat) (pl : pools) (r : heap * pools) (k : nat),
    returnElementToPool_loop fuel h stack pl = Ok r →
    returnElementToPool_loop (fuel + k) h stack pl = Ok r.
Proof.
  induction fuel as [|fuel IH]; intros h stack pl r k H; [discriminate|].
  destruct stack as [|current stack]; [exact H|].
  destruct (release_step_inv _ _ _ _ _ _ H) as [el Hel].
  rewrite (release_step _ _ _ _ _ _ Hel) in H.
  change (S fuel + k)%nat with (S (fuel + k)).
  rewrite (release_step _ _ _ _ _ _ Hel). apply IH, H.
Qed.

(** The work stack is a stack: what lies under its top part is not
    touched before the top part is done. *)
Lemma release_app (f1 : nat) :
  ∀ (f2 : nat) (h h1 : heap) (s1 s2 : list nat) (pl pl1 : pools)
    (r : heap * pools),
    returnElementToPool_loop f1 h s1 pl = Ok (h1, pl1) →
    returnElementToPool_loop f2 h1 s2 pl1 = Ok r →
    returnElementToPool_loop (f1 + f2) h (s1 ++ s2) pl = Ok r.
Proof.
  induction f1 as [|f1 IH]; intros f2 h h1 s1 s2 pl pl1 r H1 H2; [discriminate|].
  destruct s1 as [|current s1].
  - injection H1 as <- <-. cbn [app].
    rewrite Nat.add_comm. apply release_more_fuel, H2.
  - destruct (release_step_inv _ _ _ _ _ _ H1) as [el Hel].
    rewrite (release_step _ _ _ _ _ _ Hel) in H1.
    change (S f1 + f2)%nat with (S (f1 + f2)). cbn [app].
    rewrite (release_step _ _ _ _ _ _ Hel).
    rewrite app_assoc. eapply IH; [exact H1|exact H2].
Qed.

Lemma cleared_cleared (e : XMLElement) : cleared (cleared e) = cleared e.
Proof. reflexivity. Qed.

Lemma children_ok_cleared (h : heap) (q : nat) (el : XMLElement) :
  children_ok h → elems h !! q = Some el →
  children_ok (setElem h q (cleared el)).
Proof.
  intros Hch Hel p e n He Hin. cbn [setElem elems contents] in *.
  apply list_lookup_insert_Some in He as [(<- & <- & _)|(Hne & He)].
  - cbn [cleared children] in Hin. apply elem_of_nil in Hin. contradiction.
  - specialize (Hch p e n He Hin). destruct n; [|exact Hch].
    rewrite length_insert. exact Hch.
Qed.

(** What a run of the loop has done when it returns. *)
Lemma release_cells (fuel : nat) :
  ∀ (h : heap) (stack : list nat) (pl : pools) (h' : heap) (pl' : pools),
    returnElementToPool_loop fuel h stack pl = Ok (h', pl') →
    contents h' = contents h ∧
    length (elems h') = length (elems h) ∧
    ∃ put, xmlElementPool pl' = xmlElementPool pl ++ put ∧
           (∀ x, x ∈ stack → x ∈ put) ∧
           (∀ x, x ∈ put →
                 ∃ e, elems h !! x = Some e ∧ elems h' !! x = Some (cleared e)) ∧
           (∀ x, x ∉ put → elems h' !! x = elems h !! x) ∧
           (∀ x e c, x ∈ put → elems h !! x = Some e →
                     ElemRef c ∈ children e → c ∈ put).
Proof.
  induction fuel as [|fuel IH]; intros h stack pl h' pl' H; [discriminate|].
  destruct stack as [|current stack].
  - injection H as <- <-. split; [reflexivity|]. split; [reflexivity|].
    exists []. rewrite app_nil_r. split; [reflexivity|].
    split; [intros x Hx; exact Hx|].
    split; [intros x Hx; apply elem_of_nil in Hx; contradiction|].
    split; [reflexivity|].
    intros x e c Hx. apply elem_of_nil in Hx. contradiction.
  - destruct (release_step_inv _ _ _ _ _ _ H) as [el Hel].
    rewrite (release_step _ _ _ _ _ _ Hel) in H.
    destruct (IH _ _ _ _ _ H)
      as (Hc & Hlen & put & Hput & Hstack & Hclr & Hkeep & Hkids).
    cbn [setElem elems contents xmlElementPool] in Hc, Hlen, Hput, Hclr, Hkeep, Hkids.
    rewrite length_insert in Hlen.
    split; [exact Hc|]. split; [exact Hlen|].
    exists (current :: put).
    split; [rewrite Hput, <- app_assoc; reflexivity|].
    assert (Hcur : ∃ e, elems h !! current = Some e ∧
                        elems h' !! current = Some (cleared e)).
    { exists el. split; [exact Hel|].
      destruct (decide (current ∈ put)) as [Hin|Hout].
      - destruct (Hclr current Hin) as (e1 & He1 & He').
        rewrite list_lookup_insert_eq in He1
          by (eapply lookup_lt_Some, Hel).
        injection He1 as <-. exact He'.
      - rewrite (Hkeep current Hout).
        apply list_lookup_insert_eq. eapply lookup_lt_Some, Hel. }
    split; [|split; [|split]].
    + intros x Hx. apply elem_of_cons in Hx as [-> | Hx]; [left|].
      right. apply Hstack, elem_of_app. right. exact Hx.
    + intros x Hx. apply elem_of_cons in Hx as [-> | Hx]; [exact Hcur|].
      destruct (decide (x = current)) as [-> | Hne]; [exact Hcur|].
      destruct (Hclr x Hx) as (e1 & He1 & He').
      rewrite list_lookup_insert_ne in He1 by congruence.
      exists e1. split; assumption.
    + intros x Hx. apply not_elem_of_cons in Hx as [Hne Hx].
      rewrite (Hkeep x Hx). apply list_lookup_insert_ne. congruence.
    + intros x e c Hx He Hin.
      destruct (decide (x = current)) as [-> | Hne].
      * assert (e = el) by congruence. subst e. right.
        apply Hstack, elem_of_app. left. rewrite elem_of_reverse.
        unfold elementsOf. apply list_elem_of_omap.
        exists (ElemRef c). split; [exact Hin|reflexivity].
      * apply elem_of_cons in Hx as [-> | Hx]; [congruence|].
        right. apply (Hkids x e c Hx); [|exact Hin].
        rewrite list_lookup_insert_ne by congruence. exact He.
Qed.

Lemma release_children_ok (fuel : nat) (h : heap) (stack : list nat)
      (pl : pools) (h' : heap) (pl' : pools) :
  children_ok h →
  returnElementToPool_loop fuel h stack pl = Ok (h', pl') →
  children_ok h'.
Proof.
  intros Hch H.
  destruct (release_cells _ _ _ _ _ _ H)
    as (Hc & Hlen & put & _ & _ & Hclr & Hkeep & _).
  intros p e n He Hin.
  destruct (decide (p ∈ put)) as [Hp|Hp].
  - destruct (Hclr p Hp) as (e0 & _ & He0).
    assert (e = cleared e0) by congruence. subst e.
    cbn [cleared children] in Hin. apply elem_of_nil in Hin. contradiction.
  - rewrite (Hkeep p Hp) in He. specialize (Hch p e n He Hin).
    destruct n; [rewrite Hlen|rewrite Hc]; exact Hch.
Qed.

(** Nothing created before the elements on the stack is put back. *)
Lemma release_above (fuel : nat) :
  ∀ (h : heap) (stack : list nat) (pl : pools) (h' : heap) (pl' : pools)
    (k : nat) (put : list nat),
    children_ok h → Forall (λ x, (k ≤ x)%nat) stack →
    returnElementToPool_loop fuel h stack pl = Ok (h', pl') →
    xmlElementPool pl' = xmlElementPool pl ++ put →
    Forall (λ x, (k ≤ x)%nat) put.
Proof.
  induction fuel as [|fuel IH]; intros h stack pl h' pl' k put Hch Hst H Hput;
    [discriminate|].
  destruct stack as [|current stack].
  - injection H as <- <-.
    rewrite <- (app_nil_r (xmlElementPool pl)) in Hput at 1.
    apply app_inv_head in Hput. subst put. constructor.
  - destruct (release_step_inv _ _ _ _ _ _ H) as [el Hel].
    rewrite (release_step _ _ _ _ _ _ Hel) in H.
    apply Forall_cons in Hst as [Hk Hst].
    destruct (release_cells _ _ _ _ _ _ H) as (_ & _ & put' & Hput' & _).
    cbn [xmlElementPool] in Hput'.
    assert (put = current :: put').
    { rewrite Hput', <- app_assoc in Hput. apply app_inv_head in Hput.
      symmetry. exact Hput. }
    subst put. constructor; [exact Hk|].
    apply (IH _ _ _ _ _ k put' (children_ok_cleared h current el Hch Hel))
      with (2 := H); [|exact Hput'].
    apply Forall_app. split; [|exact Hst].
    apply Forall_forall. intros c Hc. rewrite elem_of_reverse in Hc.
    unfold elementsOf in Hc. apply list_elem_of_omap in Hc as (n & Hn & Hc).
    destruct n as [c'|c']; [|discriminate]. injection Hc as ->.
    pose proof (Hch current el _ Hel Hn) as [Hlt _]. lia.
Qed.

(** On a memory where children were created after their parents the loop
    returns. *)
Lemma release_terminates (m : nat) :
  ∀ (stack : list nat) (h : heap) (pl : pools),
    children_ok h →
    Forall (λ q, (q < length (elems h))%nat ∧
                 (length (elems h) - q ≤ m)%nat) stack →
    ∃ fuel h' pl', returnElementToPool_loop fuel h stack pl = Ok (h', pl').
Proof.
  induction m as [|m IHm]; intros stack; induction stack as [|q stack IHs];
    intros h pl Hch Hst.
  - exists 1%nat, h, pl. reflexivity.
  - apply Forall_cons in Hst as [[H1 H2] _]. lia.
  - exists 1%nat, h, pl. reflexivity.
  - apply Forall_cons in Hst as [[Hq Hm] Hst].
    destruct (lookup_lt_is_Some_2 (elems h) q Hq) as [el Hel].
    destruct (IHm (reverse (elementsOf (children el)))
                (setElem h q (cleared el))
                {| xmlElementPool := xmlElementPool pl ++ [q];
                   xmlContentNodePool :=
                     xmlContentNodePool pl ++ contentNodesOf (children el) |}
                (children_ok_cleared h q el Hch Hel))
      as (f1 & h1 & pl1 & Hrun1).
    { apply Forall_forall. intros c Hc. rewrite elem_of_reverse in Hc.
      unfold elementsOf in Hc. apply list_elem_of_omap in Hc as (n & Hn & Hc).
      destruct n as [c'|c']; [|discriminate]. injection Hc as ->.
      pose proof (Hch q el _ Hel Hn) as [Hlt Hlen].
      cbn [setElem elems]. rewrite length_insert. lia. }
    assert (Hone : returnElementToPool_loop (S f1) h [q] pl = Ok (h1, pl1)).
    { rewrite (release_step _ _ _ _ _ _ Hel), app_nil_r. exact Hrun1. }
    pose proof (release_children_ok _ _ _ _ _ _ Hch Hone) as Hch1.
    destruct (release_cells _ _ _ _ _ _ Hone) as (_ & Hlen1 & _).
    destruct (IHs h1 pl1 Hch1) as (f2 & h2 & pl2 & Hrun2).
    { rewrite Hlen1. exact Hst. }
    exists (S f1 + f2)%nat, h2, pl2.
    exact (release_app _ _ _ _ [q] stack _ _ _ Hone Hrun2).
Qed.

Lemma Release_on_assembled (h : heap) (a : nat) (pl : pools) :
  children_ok h → (a < length (elems h))%nat →
  ∃ fuel h' pl' put,
    Release fuel h a pl = Ok (h', pl') ∧
    children_ok h' ∧
    contents h' = contents h ∧
    length (elems h') = length (elems h) ∧
    xmlElementPool pl' = xmlElementPool pl ++ put ∧
    a ∈ put ∧
    (∀ x, x ∈ put →
          (a ≤ x)%nat ∧
          ∃ e, elems h !! x = Some e ∧ elems h' !! x = Some (cleared e)) ∧
    (∀ x e c, x ∈ put → elems h !! x = Some e →
              ElemRef c ∈ children e → c ∈ put) ∧
    (∀ x, x ∉ put → elems h' !! x = elems h !! x).
Proof.
  intros Hch Ha.
  destruct (release_terminates (length (elems h)) [a] h pl Hch)
    as (fuel & h' & pl' & Hrun).
  { constructor; [split; lia|constructor]. }
  destruct (release_cells _ _ _ _ _ _ Hrun)
    as (Hc & Hlen & put & Hput & Hstack & Hclr & Hkeep & Hkids).
  assert (Hbase : Forall (λ x, (a ≤ x)%nat) [a])
    by (constructor; [lia|constructor]).
  pose proof (release_above _ _ _ _ _ _ a put Hch Hbase Hrun Hput) as Habove.
  rewrite Forall_forall in Habove.
  exists fuel, h', pl', put. split; [exact Hrun|].
  split; [exact (release_children_ok _ _ _ _ _ _ Hch Hrun)|].
  split; [exact Hc|]. split; [exact Hlen|]. split; [exact Hput|].
  split; [apply Hstack; left|].
  split; [|split; [exact Hkids|exact Hkeep]].
  intros x Hx. split; [exact (Habove x Hx)|exact (Hclr x Hx)].
Qed.

(** X16 (release resets a subtree).  On the memory left by any parse,
    releasing any element returns.  The elements put back into the pool
    are the released one and, with each element put back, its element
    children; each of them has its children, parent, attributes, namespace
    scope, sibling index and text reset and keeps its names; none of them
    was created before the released element.  Every other element and
    every content node is left as it was. *)
Theorem Release_resets_the_subtree
        (TrimSpace : list byte → list byte) (p : Parser) (events : list Event) :
  ∃ w, parse TrimSpace p events = Ok w ∧
       ∀ a pl, (a < length (elems (hp w)))%nat →
         ∃ fuel h' pl' put,
           Release fuel (hp w) a pl = Ok (h', pl') ∧
           contents h' = contents (hp w) ∧
           xmlElementPool pl' = xmlElementPool pl ++ put ∧
           a ∈ put ∧
           (∀ x, x ∈ put →
                 (a ≤ x)%nat ∧
                 ∃ e, elems (hp w) !! x = Some e ∧
                      elems h' !! x = Some (cleared e)) ∧
           (∀ x e c, x ∈ put → elems (hp w) !! x = Some e →
                     ElemRef c ∈ children e → c ∈ put) ∧
           (∀ x, x ∉ put → elems h' !! x = elems (hp w) !! x).
Proof.
  destruct (parse_ok TrimSpace p events) as (w & Hw & _).
  destruct (parse_Inv2 TrimSpace p events w Hw) as [_ (_ & Hch & _)].
  exists w. split; [exact Hw|]. intros a pl Ha.
  destruct (Release_on_assembled (hp w) a pl Hch Ha)
    as (fuel & h' & pl' & put & Hrun & _ & Hc & _ & Hput & Hin & Hclr & Hkids & Hkeep).
  exists fuel, h', pl', put. auto 10.
Qed.

(** X17 (release and the former parent).  An element stays in the child
    list of the element that lists it, also after it was sent and after it
    was released.  So when an element is released and the element that
    lists it is released afterwards, both releases return, the second one
    reaches the first element again, and that element is put into the pool
    twice. *)
Theorem released_child_is_put_back_twice
        (TrimSpace : list byte → list byte) (p : Parser) (events : list Event)
        (w : machine) (q : nat) (e : XMLElement) (a : nat) (pl : pools) :
  parse TrimSpace p events = Ok w →
  elems (hp w) !! q = Some e → ElemRef a ∈ children e →
  ∃ f1 h1 pl1 f2 h2 pl2,
    Release f1 (hp w) a pl = Ok (h1, pl1) ∧
    elems h1 !! q = Some e ∧
    Release f2 h1 q pl1 = Ok (h2, pl2) ∧
    ∃ l1 l2 l3,
      xmlElementPool pl2 = xmlElementPool pl ++ l1 ++ a :: l2 ++ a :: l3.
Proof.
  intros Hw He Hin.
  destruct (parse_Inv2 TrimSpace p events w Hw) as [_ (_ & Hch & _)].
  pose proof (Hch q e _ He Hin) as [Hqa Ha].
  destruct (Release_on_assembled (hp w) a pl Hch Ha)
    as (f1 & h1 & pl1 & put1 & Hrun1 & Hch1 & _ & Hlen1 & Hput1 & Hin1 & Hclr1
        & _ & Hkeep1).
  assert (Hq1 : elems h1 !! q = Some e).
  { rewrite Hkeep1; [exact He|]. intros Hq. destruct (Hclr1 q Hq) as [Hle _]. lia. }
  assert (Hq : (q < length (elems h1))%nat) by (eapply lookup_lt_Some, Hq1).
  destruct (Release_on_assembled h1 q pl1 Hch1 Hq)
    as (f2 & h2 & pl2 & put2 & Hrun2 & _ & _ & _ & Hput2 & Hin2 & _ & Hkids2 & _).
  exists f1, h1, pl1, f2, h2, pl2.
  split; [exact Hrun1|]. split; [exact Hq1|]. split; [exact Hrun2|].
  pose proof (Hkids2 q e a Hin2 Hq1 Hin) as Ha2.
  apply list_elem_of_split in Hin1 as (l1 & l2 & ->).
  apply list_elem_of_split in Ha2 as (l3 & l4 & ->).
  exists l1, (l2 ++ l3), l4. rewrite Hput2, Hput1.
  rewrite <- ?app_assoc. cbn [app]. rewrite <- ?app_assoc. reflexivity.
Qed.

Lemma released_child_witness :
  ∃ w e,
    parse asciiTrimSpace (NewParser ["root"%string; "item"%string] 0) docItems
      = Ok w ∧
    sent w = [1%nat; 3%nat; 0%nat] ∧
    elems (hp w) !! 0%nat = Some e ∧
    ElemRef 1 ∈ children e ∧
    ∃ f1 h1 pl1 f2 h2 pl2,
      Release f1 (hp w) 1 {| xmlElementPool := []; xmlContentNodePool := [] |}
        = Ok (h1, pl1) ∧
      elems h1 !! 0%nat = Some e ∧
      Release f2 h1 0 pl1 = Ok (h2, pl2) ∧
      ∃ l1 l2 l3,
        xmlElementPool pl2 = [] ++ l1 ++ 1%nat :: l2 ++ 1%nat :: l3.
Proof.
  assert (H : ∃ w e,
             parse asciiTrimSpace (NewParser ["root"%string; "item"%string] 0)
               docItems = Ok w ∧
             sent w = [1%nat; 3%nat; 0%nat] ∧
             elems (hp w) !! 0%nat = Some e ∧
             ElemRef 1 ∈ children e).
  { eexists. eexists. split; [vm_compute; reflexivity|].
    split; [reflexivity|]. split; [reflexivity|]. cbn. left. }
  destruct H as (w & e & Hw & Hs & He & Hin).
  exists w, e. split; [exact Hw|]. split; [exact Hs|]. split; [exact He|].
  split; [exact Hin|].
  exact (released_child_is_put_back_twice asciiTrimSpace
           (NewParser ["root"%string; "item"%string] 0) docItems w 0 e 1
           {| xmlElementPool := []; xmlContentNodePool := [] |} Hw He Hin).
Defined.

(** ** The assembler over the pools *)

Lemma snoc_insert {A} (l : list A) (x y : A) :
  <[length l := y]> (l ++ [x]) = l ++ [y].
Proof.
  rewrite insert_app_r_alt by lia. rewrite Nat.sub_diag. reflexivity.
Qed.

Lemma getElem_snoc (h : heap) (x : XMLElement) :
  getElem {| elems := elems h ++ [x]; contents := contents h |}
          (length (elems h)) = Ok x.
Proof.
  unfold getElem. cbn [elems]. rewrite list_lookup_middle by reflexivity.
  reflexivity.
Qed.

Lemma setElem_snoc (h : heap) (x y : XMLElement) :
  setElem {| elems := elems h ++ [x]; contents := contents h |}
          (length (elems h)) y =
    {| elems := elems h ++ [y]; contents := contents h |}.
Proof. unfold setElem. cbn [elems contents]. rewrite snoc_insert. reflexivity. Qed.

Lemma getElem_snoc_below (h : heap) (x : XMLElement) (a : nat) :
  (a < length (elems h))%nat →
  getElem {| elems := elems h ++ [x]; contents := contents h |} a = getElem h a.
Proof.
  intros Ha. unfold getElem. cbn [elems]. rewrite lookup_app_l by exact Ha.
  reflexivity.
Qed.

(** With nothing in the pool the content block allocates, as in
    [appendContentNode]. *)
Lemma appendContentNode_pooled_fresh (h : heap) (top : nat)
      (bytes : list byte) (kind : NodeType) :
  appendContentNode_pooled h noPools top bytes kind =
    (h' ← appendContentNode h top bytes kind; Ok (h', noPools)).
Proof.
  unfold appendContentNode_pooled, appendContentNode, getContentNodeFromPool.
  cbn [noPools xmlContentNodePool].
  change (getElem {| elems := elems h;
                     contents := contents h ++ [newContentNode] |} top)
    with (getElem h top).
  destruct (getElem h top) as [pe| |]; bind_simpl; [|reflexivity..].
  unfold setElem, setContent. cbn [elems contents].
  rewrite snoc_insert. reflexivity.
Qed.

Section PooledFacts.

Variable TrimSpace : list byte → list byte.

(** With nothing in the pool a start tag allocates, as in
    [handleStartElement]. *)
Lemma handleStartElement_pooled_fresh (p : Parser) (w : machine)
      (name attrs fullTag : list byte)
      (elementNamespaces : option (gmap string string)) :
  Forall (λ a, allocated (hp w) (ElemRef a)) (stack (st w)) →
  handleStartElement_pooled TrimSpace p w noPools name attrs fullTag
    elementNamespaces =
    (w' ← handleStartElement TrimSpace p w name attrs fullTag elementNamespaces;
     Ok (w', noPools)).
Proof.
  intros Hstk. unfold handleStartElement_pooled, handleStartElement.
  destruct (splitName (string_of_list_byte name)) as [[pre localN]| |];
    bind_simpl; [|reflexivity..].
  destruct (match stack (st w) with
            | top :: _ => pe ← getElem (hp w) top; Ok (namespaces pe)
            | [] => Ok None
            end) as [parentNS| |]; bind_simpl; [|reflexivity..].
  unfold getElementFromPool. cbn [noPools xmlElementPool].
  rewrite getElem_snoc. bind_simpl. rewrite !setElem_snoc.
  set (n := length (elems (hp w))).
  set (nsContext := scopeOf elementNamespaces parentNS).
  change (match elementNamespaces with
          | Some decl =>
              if 0 <? Z.of_nat (size decl)
              then match parentNS with
                   | Some pns => Some (decl ∪ pns)
                   | None => Some decl
                   end
              else parentNS
          | None => parentNS
          end) with nsContext.
  change (match nsContext with
          | Some m => default EmptyString (m !! pre)
          | None => EmptyString
          end) with (resolve nsContext pre).
  set (e1 := withIdentity newElement _ _ _ _ _).
  assert (Hattrs :
            (if 0 <? len attrs
             then e ← getElem {| elems := elems (hp w) ++ [e1];
                                 contents := contents (hp w) |} n;
                  attributes ← parseAttributes TrimSpace attrs (Attributes e);
                  Ok (setElem {| elems := elems (hp w) ++ [e1];
                                 contents := contents (hp w) |} n
                        (withAttributes e attributes))
             else Ok {| elems := elems (hp w) ++ [e1];
                        contents := contents (hp w) |}) =
            (attributes ← (if 0 <? len attrs
                           then parseAttributes TrimSpace attrs []
                           else Ok []);
             Ok {| elems := elems (hp w) ++ [withAttributes e1 attributes];
                   contents := contents (hp w) |})).
  { destruct (0 <? len attrs); [|reflexivity].
    unfold n. rewrite getElem_snoc. bind_simpl.
    change (Attributes e1) with (@nil XMLAttribute).
    destruct (parseAttributes TrimSpace attrs []) as [attributes| |];
      bind_simpl; [|reflexivity..].
    rewrite setElem_snoc. reflexivity. }
  rewrite Hattrs. clear Hattrs.
  destruct (if 0 <? len attrs then parseAttributes TrimSpace attrs [] else Ok [])
    as [attributes| |]; bind_simpl; [|reflexivity..].
  set (fresh := withAttributes e1 attributes).
  assert (Hlink :
            match stack (st w) with
            | top :: _ =>
                pe ← getElem {| elems := elems (hp w) ++ [fresh];
                                contents := contents (hp w) |} top;
                e ← getElem {| elems := elems (hp w) ++ [fresh];
                               contents := contents (hp w) |} n;
                pe0 ← getElem
                        (setElem {| elems := elems (hp w) ++ [fresh];
                                    contents := contents (hp w) |} n
                           (withLink e top (len (children pe)))) top;
                Ok (setElem
                      (setElem {| elems := elems (hp w) ++ [fresh];
                                  contents := contents (hp w) |} n
                         (withLink e top (len (children pe)))) top
                      (appendChild pe0 (ElemRef n)))
            | [] => Ok {| elems := elems (hp w) ++ [fresh];
                          contents := contents (hp w) |}
            end = linkToParent (hp w) (stack (st w)) fresh).
  { unfold linkToParent. destruct (stack (st w)) as [|top stk]; [reflexivity|].
    apply Forall_cons in Hstk as [Htop _]. cbn [allocated] in Htop.
    rewrite (getElem_snoc_below (hp w) fresh top) by exact Htop.
    destruct (getElem (hp w) top) as [pe| |] eqn:Hpe; bind_simpl;
      [|reflexivity..].
    unfold n. rewrite getElem_snoc. bind_simpl. rewrite setElem_snoc.
    rewrite (getElem_snoc_below (hp w) _ top) by exact Htop.
    rewrite Hpe. bind_simpl.
    unfold setElem. cbn [elems contents].
    rewrite insert_app_l by exact Htop. reflexivity. }
  fold n. rewrite Hlink. clear Hlink.
  change {| Name := string_of_list_byte name; children := []; parent := None;
            Attributes := attributes; localName := localN; prefix_ := pre;
            namespaceURI := resolve nsContext pre; namespaces := nsContext;
            siblingIndex := 0; rawContent := [] |} with fresh.
  destruct (linkToParent (hp w) (stack (st w)) fresh) as [h| |]; bind_simpl;
    [|reflexivity..].
  destruct (isSelfClosing fullTag) as [[|]| |]; bind_simpl; [|reflexivity..].
  destruct (checkAndStreamElement p h (sent w) n) as [[h' out]| |]; reflexivity.
Qed.

(** With nothing in the pools one event does what it does in [parse]. *)
Lemma handleEvent_pooled_fresh (p : Parser) (w : machine) (e : Event) :
  Forall (λ a, allocated (hp w) (ElemRef a)) (stack (st w)) →
  handleEvent_pooled TrimSpace p w noPools e =
    (w' ← handleEvent TrimSpace p w e; Ok (w', noPools)).
Proof.
  intros Hstk. destruct e as [name attrs fullTag| |bytes|bytes|bytes| |bytes];
    cbn [handleEvent_pooled handleEvent]; try reflexivity.
  - destruct (elementNamespacesOf TrimSpace attrs) as [ns| |]; bind_simpl;
      [|reflexivity..].
    apply handleStartElement_pooled_fresh, Hstk.
  - destruct (stack (st w)) as [|top stk]; [reflexivity|].
    destruct (0 <? len bytes); [|reflexivity].
    rewrite appendContentNode_pooled_fresh.
    destruct (appendContentNode (hp w) top bytes TextNode); reflexivity.
  - destruct (stack (st w)) as [|top stk]; [reflexivity|].
    destruct (12 <? len bytes); [|reflexivity].
    destruct (slice bytes 9 (len bytes - 3)) as [content| |]; bind_simpl;
      [|reflexivity..].
    destruct (0 <? len content); [|reflexivity].
    rewrite appendContentNode_pooled_fresh.
    destruct (appendContentNode (hp w) top content TextNode); reflexivity.
  - destruct (stack (st w)) as [|top stk]; [reflexivity|].
    destruct (7 <? len bytes); [|reflexivity].
    destruct (slice bytes 4 (len bytes - 3)) as [content| |]; bind_simpl;
      [|reflexivity..].
    rewrite appendContentNode_pooled_fresh.
    destruct (appendContentNode (hp w) top content CommentNode); reflexivity.
Qed.

(** A run in which the consumer releases nothing is the parse. *)
Lemma run_without_release (fuel : nat) (p : Parser) (events : list Event) :
  ∀ w, Inv w →
       run TrimSpace fuel p (Feed <$> events) w noPools =
         (w' ← parse_loop TrimSpace p events w; Ok (w', noPools)).
Proof.
  induction events as [|e events IH]; intros w HInv; [reflexivity|].
  assert (Hgo : e ≠ EventEOF →
            ('(w', pl') ← handleEvent_pooled TrimSpace p w noPools e;
             run TrimSpace fuel p (Feed <$> events) w' pl') =
            (w' ← (w1 ← handleEvent TrimSpace p w e;
                   parse_loop TrimSpace p events w1);
             Ok (w', noPools))).
  { intros Hne. rewrite handleEvent_pooled_fresh by apply HInv.
    destruct (handleEvent_ok TrimSpace p w e HInv Hne)
      as (w1 & cl & Hw1 & HInv1 & _).
    rewrite Hw1. bind_simpl. apply IH, HInv1. }
  destruct e; try (apply Hgo; discriminate). reflexivity.
Qed.

End PooledFacts.

(** C4 (sibling index).  The invariant does not survive the recycling of
    a released element.  In the run of
    [<root><item>1</item><other>x</other><item>2</item></root>] with the
    targets [root] and [item], the consumer releases the first [item] once
    it has received it (it was the only element sent so far), and the start
    tag of [other] takes that element back from the pool while [root] still
    lists it.  At the end of the parse [root], which was sent and never
    released, lists the recycled element at the indices 0 and 1, and the
    sibling index of that element is 1: the child at index 0 does not have
    sibling index 0.  The inner text of [root] is [xx2].  The second form
    of the claim still holds of this memory, so the two forms are not
    equivalent. *)
Theorem sibling_index_broken_by_recycling
        (TrimSpace : list byte → list byte) (fuel : nat) :
  ∃ w1 w pl,
    run TrimSpace (S (S fuel)) (NewParser ["root"%string; "item"%string] 0)
        (take 4 releaseEarly) initial noPools = Ok (w1, noPools) ∧
    sent w1 = [1%nat] ∧
    releaseEarly !! 4%nat = Some (ReleaseReceived 0) ∧
    run TrimSpace (S (S fuel)) (NewParser ["root"%string; "item"%string] 0)
        releaseEarly initial noPools = Ok (w, pl) ∧
    sent w = [1%nat; 2%nat; 0%nat] ∧
    (children <$> elems (hp w) !! 0%nat)
      = Some [ElemRef 1; ElemRef 1; ElemRef 2] ∧
    (Name <$> elems (hp w) !! 1%nat) = Some "other"%string ∧
    Parent (hp w) (ElemRef 1) = Ok (Some 0%nat) ∧
    getSiblingIndex (hp w) (ElemRef 1) = Ok 1 ∧
    getSiblingIndex (hp w) (ElemRef 2) = Ok 2 ∧
    ¬ siblings_ok (hp w) ∧
    parents_ok (hp w) ∧
    InnerText (S (S fuel)) (hp w) 0 = Ok "xx2"%string.
Proof.
  eexists. eexists. eexists. split; [vm_compute; reflexivity|].
  split; [reflexivity|]. split; [reflexivity|].
  split; [vm_compute; reflexivity|].
  split; [reflexivity|]. split; [reflexivity|]. split; [reflexivity|].
  split; [reflexivity|]. split; [reflexivity|]. split; [reflexivity|].
  split; [|split; [|reflexivity]].
  - intros H.
    specialize (H 0%nat _ 0 (ElemRef 1) eq_refl eq_refl). discriminate H.
  - intros n p H.
    destruct n as [[|[|[|a]]]|[|[|a]]]; cbn in H; try discriminate;
      injection H as <-; eexists; eexists;
      (split; [reflexivity|]); (split; [reflexivity|]); reflexivity.
Qed.

(** X18 (sibling index without release).  A run in which nothing is
    released, from empty pools, is the parse with every element newly
    allocated; for every event sequence it returns, and in the memory it
    leaves, for every element and every index [i] into its child list, the
    child at [i] has sibling index [i], and every node whose parent pointer
    is not nil is listed among that parent's children at its own sibling
    index. *)
Theorem sibling_index_kept_without_release
        (TrimSpace : list byte → list byte) (fuel : nat) (p : Parser)
        (events : list Event) :
  ∃ w, run TrimSpace fuel p (Feed <$> events) initial noPools
         = Ok (w, noPools) ∧
       parse TrimSpace p events = Ok w ∧
       siblings_ok (hp w) ∧ parents_ok (hp w).
Proof.
  destruct (parse_ok TrimSpace p events) as (w & Hw & (_ & Hs & Hp & _) & _).
  exists w. split; [|split; [exact Hw|split; [exact Hs|exact Hp]]].
  rewrite (run_without_release TrimSpace fuel p events initial Inv_initial).
  unfold parse in Hw. rewrite Hw. reflexivity.
Qed.
